(** * The deployment planner core: [pkg/resource/deploy/plan_apply.go]

    A shallow embedding of the plan iterator ([PlanIterator]) and of the
    operations that drive it: [Apply], [Next], [makeRegisterResouceSteps],
    [registerResourceOutputs], [computeDeletes], [nextDeleteStep], [Snap],
    [SnapVersions], [MarkStateSnapshot] and [AppendStateSnapshot].

    Modelling conventions.
    - Go pointers to resource states ([*resource.State]) are addresses into
      an explicit heap, so that a state shared between a step, the pending
      registrations and the snapshot list is one object.  Dereferencing an
      address that is not live is the nil dereference of Go: a panic.
    - [map[resource.URN]bool] is a [gmap] to [bool] read with the Go default
      [false] for an absent key.
    - A Go panic ([contract.Assert], [contract.Failf], nil dereference) is the
      outcome [Panic]; an [error] result is an ordinary value.
    - Every interaction with a collaborator outside this file (the host,
      providers, analyzers, the diagnostics sink, the event source, the
      caller's hooks, the steps' own [Apply], the clock) is appended to a
      trace, in program order.
    - Logging through [glog] has no effect on the program and is left out. *)

From stdpp Require Import gmap strings list fin_maps sorting.
From Stdlib Require Import ZArith.

Set Default Proof Using "Type".
Local Open Scope string_scope.
Local Open Scope list_scope.

(** ** Resource data ([pkg/resource]) *)

Abbreviation URN := string.
Abbreviation ptr := nat.

(** Modelled from the spec: the tagged property values of a property map
    (scalar, list, map, secret, computed placeholder); the type is declared
    in [pkg/resource/properties.go]. *)
#[local] Unset Elimination Schemes.
Inductive PropertyValue :=
| PNull
| PBool (b : bool)
| PNumber (n : Z)
| PString (s : string)
| PArray (l : list PropertyValue)
| PObject (l : list (string * PropertyValue))
| PComputed
| PSecret (v : PropertyValue).
#[local] Set Elimination Schemes.

Abbreviation PropertyMap := (gmap string PropertyValue).

(** [resource.State]; the constructor arguments are in the order of
    [resource.NewState(t, urn, custom, del, id, inputs, outputs, parent)]. *)
Record State := NewState {
  st_Type : string;
  st_URN : URN;
  st_Custom : bool;
  st_Delete : bool;
  st_ID : string;
  st_Inputs : PropertyMap;
  st_Outputs : PropertyMap;
  st_Parent : URN
}.

Definition with_Inputs (s : State) (inputs : PropertyMap) : State :=
  NewState (st_Type s) (st_URN s) (st_Custom s) (st_Delete s) (st_ID s)
           inputs (st_Outputs s) (st_Parent s).

Definition with_Outputs (s : State) (outs : PropertyMap) : State :=
  NewState (st_Type s) (st_URN s) (st_Custom s) (st_Delete s) (st_ID s)
           (st_Inputs s) outs (st_Parent s).

Definition with_ID (s : State) (id : string) : State :=
  NewState (st_Type s) (st_URN s) (st_Custom s) (st_Delete s) id
           (st_Inputs s) (st_Outputs s) (st_Parent s).

Definition with_Delete (s : State) (d : bool) : State :=
  NewState (st_Type s) (st_URN s) (st_Custom s) d (st_ID s)
           (st_Inputs s) (st_Outputs s) (st_Parent s).

(** Modelled from the spec: [State.AddOutputs], declared in
    [pkg/resource/resource_state.go]: the keys of the event override the
    existing keys of the same name ([∪] on [gmap] is left-biased). *)
Definition AddOutputs (s : State) (outs : PropertyMap) : State :=
  with_Outputs s (outs ∪ st_Outputs s).

(** [resource.Goal]: what a registration event asks for. *)
Record Goal := mkGoal {
  g_Type : string;
  g_Name : string;
  g_Custom : bool;
  g_Properties : PropertyMap;
  g_Parent : URN
}.

Inductive Status := StatusOK | StatusPartialFailure | StatusUnknown.

(** Go [error] values: errors made by collaborators, errors made here with
    [goerr.New]/[goerr.Errorf], and [goerr.Wrapf] around a cause. *)
Inductive error :=
| ErrExternal (msg : string)
| ErrNew (msg : string)
| ErrWrap (cause : error) (msg : string).

(** The chain of causes of an error, outermost first. *)
Fixpoint causes (e : error) : list error :=
  match e with
  | ErrWrap c _ => e :: causes c
  | _ => [e]
  end.

Definition wraps (e inner : error) : Prop := inner ∈ causes e.

(** ** Events of the source, steps, collaborators *)

Record RegisterResourceEvent := mkReg {
  reg_Goal : Goal;
  reg_tag : nat
}.

Record RegisterResourceOutputsEvent := mkOut {
  out_URN : URN;
  out_Outputs : option PropertyMap;
  out_tag : nat
}.

Inductive SourceEvent :=
| EvRegister (e : RegisterResourceEvent)
| EvOutputs (e : RegisterResourceOutputsEvent)
| EvOther (kind : string).

(** Modelled from the spec: the six step variants of [step.go] with the
    arguments their constructors receive in this file (the iterator
    argument is implicit in the embedding). *)
Inductive Step :=
| NewSameStep (e : RegisterResourceEvent) (old new : ptr)
| NewCreateStep (e : RegisterResourceEvent) (new : ptr)
| NewUpdateStep (e : RegisterResourceEvent) (old new : ptr) (stables : list string)
| NewCreateReplacementStep (e : RegisterResourceEvent) (old new : ptr) (keys : list string)
| NewReplaceStep (old new : ptr) (keys : list string)
| NewDeleteStep (old : ptr) (replacing : bool).

(** Modelled from the spec: the [Logical], [Old] and [New] columns of the
    step table. *)
Definition Logical (s : Step) : bool :=
  match s with
  | NewSameStep _ _ _ | NewCreateStep _ _ | NewUpdateStep _ _ _ _
  | NewCreateReplacementStep _ _ _ _ => true
  | NewReplaceStep _ _ _ | NewDeleteStep _ _ => false
  end.

Definition Old (s : Step) : option ptr :=
  match s with
  | NewSameStep _ old _ | NewUpdateStep _ old _ _
  | NewCreateReplacementStep _ old _ _ | NewReplaceStep old _ _
  | NewDeleteStep old _ => Some old
  | NewCreateStep _ _ => None
  end.

Definition New (s : Step) : option ptr :=
  match s with
  | NewSameStep _ _ new | NewCreateStep _ new | NewUpdateStep _ _ new _
  | NewCreateReplacementStep _ _ new _ | NewReplaceStep _ new _ => Some new
  | NewDeleteStep _ _ => None
  end.

(** The state a step takes its URN from: the new state when it has one,
    the old state otherwise. *)
Definition step_state (s : Step) : ptr :=
  match s with
  | NewDeleteStep old _ => old
  | NewSameStep _ _ new | NewCreateStep _ new | NewUpdateStep _ _ new _
  | NewCreateReplacementStep _ _ new _ | NewReplaceStep _ new _ => new
  end.

Record CheckFailure := mkCheckFailure { cf_Property : string; cf_Reason : string }.
Record AnalyzeFailure := mkAnalyzeFailure { af_Property : string; af_Reason : string }.

(** Modelled from the spec: [plugin.DiffResult] with its [Replace()]
    answer; the zero value says "no replacement". *)
Record DiffResult := mkDiff {
  Replace : bool;
  ReplaceKeys : list string;
  StableKeys : list string
}.

Definition DiffResult_zero : DiffResult := mkDiff false [] [].

(** The diagnostics issued through [iter.p.Diag().Errorf]. *)
Inductive Diagnostic :=
| ErrorDuplicateResourceURN (urn : URN)
| ErrorResourcePropertyInvalidValue
    (t : string) (name : string) (property : string) (value : option PropertyValue)
    (reason : string)
| ErrorResourceInvalid (t : string) (name : string) (reason : string)
| ErrorAnalyzeResourceFailure (a : string) (urn : URN) (property reason : string).

Abbreviation Heap := (list State).
Abbreviation Ctx := (option string).

(** [Events]: the caller's hooks.  A hook sees the step and the states it
    points to, and answers with an error or none. *)
Record Events := mkEvents {
  OnResourceStepPre : Heap → Step → Ctx * option error;
  OnResourceStepPost : Heap → Ctx → Step → Status → option error → option error;
  OnResourceOutputs : Heap → Step → option error
}.

Record Options := mkOptions {
  opt_Events : option Events;
  opt_Parallel : Z
}.

Record Manifest := mkManifest {
  m_Time : Z;
  m_Version : string;
  m_Plugins : list string;
  m_Magic : string
}.

Record Snapshot := NewSnapshot {
  snap_Namespace : string;
  snap_Manifest : Manifest;
  snap_Resources : list ptr
}.

(** The part of [Plan] this file reads: the previous snapshot (or none),
    the URN map of the old resources ([Olds()]), the analyzers, the target
    name and the package of the source. *)
Record Plan := mkPlan {
  prev : option Snapshot;
  Olds : gmap URN ptr;
  analyzers : list string;
  Target_Name : string;
  source_Pkg : string
}.

Record PlanIterator := mkIter {
  p : Plan;
  opts : Options;
  urns : gmap URN bool;
  creates : gmap URN bool;
  updates : gmap URN bool;
  replaces : gmap URN bool;
  deletes : gmap URN bool;
  sames : gmap URN bool;
  stepqueue : list Step;
  delqueue : list ptr;
  resources : list ptr;
  regs : gmap URN Step;
  dones : gmap ptr bool;
  srcdone : bool;
  done : bool
}.

(** What is observable of a run from outside the iterator. *)
Inductive Call :=
| CDiag (d : Diagnostic)
| CHostProvider (pkg : string)
| CHostAnalyzer (a : string)
| CHostListPlugins (answer : list string)
| CTimeNow (answer : Z)
| CCheck (prov : string) (urn : URN) (olds : option PropertyMap) (news : PropertyMap)
| CDiff (prov : string) (urn : URN) (id : string) (olds news : PropertyMap)
| CAnalyze (a : string) (t : string) (inputs : PropertyMap)
| CSrcNext (answer : option SourceEvent * option error)
| CStepPre (s : Step)
| CStepApply (s : Step) (preview : bool)
| CStepPost (ctx : Ctx) (s : Step) (status : Status) (err : option error)
| COutputsHook (s : Step)
| COutputsDone (e : RegisterResourceOutputsEvent).

(** What a step's [Apply] may do to the planner: mark an old state as
    processed, append a state to the new snapshot, and write the fields of
    a state that providers decide. *)
Inductive StepEffect :=
| EffMark (state : ptr)
| EffAppend (state : ptr)
| EffSetID (state : ptr) (id : string)
| EffSetOutputs (state : ptr) (outs : PropertyMap)
| EffSetDelete (state : ptr) (d : bool).

(** ** Collaborators outside this file

    Providers and analyzers are named by the string the host resolves them
    from.  Each collaborator is a deterministic function of what it is
    given; the event source is a function of the number of events already
    pulled.  The list of the plugins the host has loaded and the clock
    are functions of everything that has happened so far (the trace):
    the list may grow with each provider or analyzer the host loads, and
    no two readings of the clock need agree. *)
Record Env := mkEnv {
  NewURN : string → string → string → string → URN;
  URN_Name : URN → string;
  Type_Package : string → string;
  DeepEquals : PropertyMap → PropertyMap → bool;
  Host_Provider : string → option string * option error;
  Host_Analyzer : string → option string * option error;
  Host_ListPlugins : list Call → list string;
  Check : string → URN → option PropertyMap → PropertyMap →
          PropertyMap * list CheckFailure * option error;
  Diff : string → URN → string → PropertyMap → PropertyMap →
         DiffResult * option error;
  Analyze : string → string → PropertyMap → list AnalyzeFailure * option error;
  src_Next : nat → option SourceEvent * option error;
  step_Apply : PlanIterator → Heap → Step → bool →
               list StepEffect * Status * option error;
  time_Now : list Call → Z;
  version_Version : string;
  NewMagic : Z → string → list string → string
}.

(** ** The state of a run and the monad of the embedding *)

Record World := mkWorld {
  iter : PlanIterator;
  heap : Heap;
  srcpos : nat;
  trace : list Call
}.

Inductive Outcome (A : Type) :=
| Ok (a : A) (w : World)
| Panic (msg : string)
| OutOfFuel.
Arguments Ok {A} a w.
Arguments Panic {A} msg.
Arguments OutOfFuel {A}.

Definition M (A : Type) : Type := World → Outcome A.

#[global] Instance M_ret : MRet M := λ A a w, Ok a w.
#[global] Instance M_bind : MBind M := λ A B f m w,
  match m w with
  | Ok a w' => f a w'
  | Panic msg => Panic msg
  | OutOfFuel => OutOfFuel
  end.

Definition panic {A} (msg : string) : M A := λ _, Panic msg.
Definition get_iter : M PlanIterator := λ w, Ok (iter w) w.
Definition get_heap : M Heap := λ w, Ok (heap w) w.
Definition set_iter (f : PlanIterator → PlanIterator) : M unit :=
  λ w, Ok tt (mkWorld (f (iter w)) (heap w) (srcpos w) (trace w)).
Definition set_heap (f : Heap → Heap) : M unit :=
  λ w, Ok tt (mkWorld (iter w) (f (heap w)) (srcpos w) (trace w)).
Definition log (c : Call) : M unit :=
  λ w, Ok tt (mkWorld (iter w) (heap w) (srcpos w) (trace w ++ [c])).

(** [contract.Assert] and [contract.Assertf]. *)
Definition Assert (b : bool) (msg : string) : M unit :=
  if b then mret tt else panic msg.

(** [*state]: reading through a pointer. *)
Definition deref (a : ptr) : M State := λ w,
  match heap w !! a with
  | Some s => Ok s w
  | None => Panic "nil pointer dereference"
  end.

(** Writing through a pointer. *)
Definition update (a : ptr) (f : State → State) : M unit :=
  s ← deref a; set_heap (λ h, <[a := f s]> h).

(** [&State{...}]: a fresh state. *)
Definition alloc (s : State) : M ptr := λ w,
  Ok (length (heap w)) (mkWorld (iter w) (heap w ++ [s]) (srcpos w) (trace w)).

(** A Go map to [bool] read at a key: [false] when absent. *)
Definition has (m : gmap URN bool) (urn : URN) : bool := default false (m !! urn).
Definition has_ptr (m : gmap ptr bool) (a : ptr) : bool := default false (m !! a).

(** Field updates of the iterator. *)
Definition set_urns v it := mkIter (p it) (opts it) v (creates it) (updates it) (replaces it) (deletes it) (sames it) (stepqueue it) (delqueue it) (resources it) (regs it) (dones it) (srcdone it) (done it).
Definition set_creates v it := mkIter (p it) (opts it) (urns it) v (updates it) (replaces it) (deletes it) (sames it) (stepqueue it) (delqueue it) (resources it) (regs it) (dones it) (srcdone it) (done it).
Definition set_updates v it := mkIter (p it) (opts it) (urns it) (creates it) v (replaces it) (deletes it) (sames it) (stepqueue it) (delqueue it) (resources it) (regs it) (dones it) (srcdone it) (done it).
Definition set_replaces v it := mkIter (p it) (opts it) (urns it) (creates it) (updates it) v (deletes it) (sames it) (stepqueue it) (delqueue it) (resources it) (regs it) (dones it) (srcdone it) (done it).
Definition set_deletes v it := mkIter (p it) (opts it) (urns it) (creates it) (updates it) (replaces it) v (sames it) (stepqueue it) (delqueue it) (resources it) (regs it) (dones it) (srcdone it) (done it).
Definition set_sames v it := mkIter (p it) (opts it) (urns it) (creates it) (updates it) (replaces it) (deletes it) v (stepqueue it) (delqueue it) (resources it) (regs it) (dones it) (srcdone it) (done it).
Definition set_stepqueue v it := mkIter (p it) (opts it) (urns it) (creates it) (updates it) (replaces it) (deletes it) (sames it) v (delqueue it) (resources it) (regs it) (dones it) (srcdone it) (done it).
Definition set_delqueue v it := mkIter (p it) (opts it) (urns it) (creates it) (updates it) (replaces it) (deletes it) (sames it) (stepqueue it) v (resources it) (regs it) (dones it) (srcdone it) (done it).
Definition set_resources v it := mkIter (p it) (opts it) (urns it) (creates it) (updates it) (replaces it) (deletes it) (sames it) (stepqueue it) (delqueue it) v (regs it) (dones it) (srcdone it) (done it).
Definition set_regs v it := mkIter (p it) (opts it) (urns it) (creates it) (updates it) (replaces it) (deletes it) (sames it) (stepqueue it) (delqueue it) (resources it) v (dones it) (srcdone it) (done it).
Definition set_dones v it := mkIter (p it) (opts it) (urns it) (creates it) (updates it) (replaces it) (deletes it) (sames it) (stepqueue it) (delqueue it) (resources it) (regs it) v (srcdone it) (done it).
Definition set_srcdone v it := mkIter (p it) (opts it) (urns it) (creates it) (updates it) (replaces it) (deletes it) (sames it) (stepqueue it) (delqueue it) (resources it) (regs it) (dones it) v (done it).
Definition set_done v it := mkIter (p it) (opts it) (urns it) (creates it) (updates it) (replaces it) (deletes it) (sames it) (stepqueue it) (delqueue it) (resources it) (regs it) (dones it) (srcdone it) v.

(** [Start]: the iterator a plan begins with (configuring the providers
    and opening the source happen outside the iterator's state). *)
Definition Start (pl : Plan) (o : Options) : PlanIterator :=
  mkIter pl o ∅ ∅ ∅ ∅ ∅ ∅ [] [] [] ∅ ∅ false false.

(** A step of a function body that may leave the function early: [inl v]
    returns [v] from the whole function, [inr x] goes on with [x]. *)
Definition orReturn {R A} (c : M (R + A)) (k : A → M R) : M R :=
  r ← c; match r with inl v => mret v | inr x => k x end.

Notation "x ←? c ; k" := (orReturn c (λ x, k))
  (at level 20, c at level 100, k at level 200, only parsing).

Fixpoint forEach {A} (l : list A) (body : A → M unit) : M unit :=
  match l with
  | [] => mret tt
  | x :: rest => body x;; forEach rest body
  end.

(** ** The operations of [plan_apply.go] *)

Section PlanApply.

Variable env : Env.

Definition diag (d : Diagnostic) : M unit := log (CDiag d).

(** [MarkStateSnapshot]: [state != nil] is asserted, then [dones[state]]
    is set. *)
Definition MarkStateSnapshot (state : ptr) : M unit :=
  h ← get_heap;
  Assert (bool_decide (state < length h)) "MarkStateSnapshot: nil state";;
  set_iter (λ it, set_dones (<[state := true]> (dones it)) it).

(** [AppendStateSnapshot]: [state != nil] is asserted, then the state is
    appended to [resources]. *)
Definition AppendStateSnapshot (state : ptr) : M unit :=
  h ← get_heap;
  Assert (bool_decide (state < length h)) "AppendStateSnapshot: nil state";;
  set_iter (λ it, set_resources (resources it ++ [state]) it).

Definition run_effect (eff : StepEffect) : M unit :=
  match eff with
  | EffMark a => MarkStateSnapshot a
  | EffAppend a => AppendStateSnapshot a
  | EffSetID a id => update a (λ s, with_ID s id)
  | EffSetOutputs a outs => update a (λ s, with_Outputs s outs)
  | EffSetDelete a d => update a (λ s, with_Delete s d)
  end.

(** [step.Apply(preview)]: the step's own code, outside this file. *)
Definition call_step_Apply (step : Step) (preview : bool) : M (Status * option error) :=
  log (CStepApply step preview);;
  it ← get_iter;
  h ← get_heap;
  let '(effs, status, err) := step_Apply env it h step preview in
  forEach effs run_effect;;
  mret (status, err).

(** [step.URN()]. *)
Definition Step_URN (step : Step) : M URN :=
  s ← deref (step_state step); mret (st_URN s).

(** [Apply] performs a plan's step and records its result in the
    iterator's state. *)
Definition Apply (step : Step) (preview : bool) : M (Status * option error) :=
  urn ← Step_URN step;
  it ← get_iter;
  (* If there is a pre-event, raise it. *)
  pre ← match opt_Events (opts it) with
        | Some e => h ← get_heap; log (CStepPre step);; mret (OnResourceStepPre e h step)
        | None => mret (None, None)
        end;
  let '(eventctx, eventerr) := pre in
  match eventerr with
  | Some eventerr =>
    mret (StatusOK, Some (ErrWrap eventerr "pre-step event returned an error"))
  | None =>
    (* Apply the step. *)
    r ← call_step_Apply step preview;
    let '(status, err) := r in
    (* If there is a post-event, raise it, and in any case, return the results. *)
    let exit : M (Status * option error) :=
      it ← get_iter;
      match opt_Events (opts it) with
      | Some e =>
        h ← get_heap;
        log (CStepPost eventctx step status err);;
        match OnResourceStepPost e h eventctx step status err with
        | Some eventerr =>
          mret (status, Some (ErrWrap eventerr "post-step event returned an error"))
        | None => mret (status, err)
        end
      | None => mret (status, err)
      end in
    match err with
    | None =>
      if Logical step then
        it ← get_iter;
        match regs it !! urn with
        | Some _ =>
          mret (StatusOK, Some (ErrNew ("resource '" +:+ urn +:+ "' registered twice")))
        | None =>
          set_iter (λ it, set_regs (<[urn := step]> (regs it)) it);;
          exit
        end
      else exit
    | Some _ => exit
    end
  end.

(** [iter.Provider(t)]: the provider of the package of a type. *)
Definition Provider (t : string) : M (option string * option error) :=
  let pkg := Type_Package env t in
  log (CHostProvider pkg);;
  match Host_Provider env pkg with
  | (_, Some err) => mret (None, Some err)
  | (None, None) =>
    mret (None, Some (ErrNew ("could not load resource provider for package '"
                                +:+ pkg +:+ "' from $PATH")))
  | (Some prov, None) => mret (Some prov, None)
  end.

(** [issueCheckErrors] prints any check errors to the diagnostics sink. *)
Definition issueCheckErrors (new : ptr) (urn : URN) (failures : list CheckFailure) : M bool :=
  match failures with
  | [] => mret false
  | _ =>
    s ← deref new;
    let inputs := st_Inputs s in
    forEach failures (λ failure,
      if decide (cf_Property failure ≠ "") then
        diag (ErrorResourcePropertyInvalidValue (st_Type s) (URN_Name env urn)
                (cf_Property failure) (inputs !! cf_Property failure) (cf_Reason failure))
      else
        diag (ErrorResourceInvalid (st_Type s) (URN_Name env urn) (cf_Reason failure)));;
    mret true
  end.

Definition validationError : error :=
  ErrNew "One or more resource validation errors occurred; refusing to proceed".

(** The loop over [iter.p.analyzers]; [inl err] is the [return nil, err]
    of the loop body, [inr invalid] the flag when the loop ends. *)
Fixpoint analyzeAll (names : list string) (new : ptr) (urn : URN)
    (inputs : PropertyMap) (invalid : bool) : M (error + bool) :=
  match names with
  | [] => mret (inr invalid)
  | a :: rest =>
    log (CHostAnalyzer a);;
    match Host_Analyzer env a with
    | (_, Some err) => mret (inl err)
    | (None, None) =>
      mret (inl (ErrNew ("analyzer '" +:+ a +:+ "' could not be loaded from your $PATH")))
    | (Some analyzer, None) =>
      s ← deref new;
      log (CAnalyze analyzer (st_Type s) inputs);;
      match Analyze env analyzer (st_Type s) inputs with
      | (_, Some err) => mret (inl err)
      | (failures, None) =>
        forEach failures (λ failure,
          diag (ErrorAnalyzeResourceFailure a urn (af_Property failure) (af_Reason failure)));;
        analyzeAll rest new urn inputs
          (match failures with [] => invalid | _ => true end)
      end
    end
  end.

(** [makeRegisterResouceSteps] produces one or more steps required to
    achieve the desired resource goal state.  The result is the Go pair:
    the steps ([[]] for [nil]) and the error. *)
Definition makeRegisterResouceSteps (e : RegisterResourceEvent)
    : M (list Step * option error) :=
  (* Use the resource goal state name to produce a globally unique URN. *)
  let res := reg_Goal e in
  it ← get_iter;
  let urn := NewURN env (Target_Name (p it)) (source_Pkg (p it)) (g_Type res) (g_Name res) in
  invalid ← (if has (urns it) urn
             then diag (ErrorDuplicateResourceURN urn);; mret true
             else mret false);
  set_iter (λ it, set_urns (<[urn := true]> (urns it)) it);;
  (* Produce a new state object; it begins with empty outputs. *)
  new ← alloc (NewState (g_Type res) urn (g_Custom res) false "" (g_Properties res) ∅
                 (g_Parent res));
  (* Check for an old resource before going any further. *)
  hasold ← match Olds (p it) !! urn with
           | Some old => s ← deref old; mret (Some (old, st_Inputs s))
           | None => mret None
           end;
  let olds := snd <$> hasold in
  (* Fetch the provider for this resource type, unless it is a logical one. *)
  prov ←? (if g_Custom res then
             r ← Provider (g_Type res);
             match r with
             | (_, Some err) => mret (inl ([], Some err))
             | (prov, None) => mret (inr prov)
             end
           else mret (inr None));
  (* Ensure the provider is okay with this resource and fetch the inputs. *)
  news ← (s ← deref new; mret (st_Inputs s));
  checked ←? match prov with
             | Some pv =>
               log (CCheck pv urn olds news);;
               match Check env pv urn olds news with
               | (_, _, Some err) => mret (inl ([], Some err))
               | (inputs, failures, None) =>
                 bad ← issueCheckErrors new urn failures;
                 update new (λ s, with_Inputs s inputs);;
                 mret (inr (inputs, invalid || bad))
               end
             | None => mret (inr (news, invalid))
             end;
  let '(inputs, invalid) := checked in
  (* Next, give each analyzer a chance to inspect the resource too. *)
  invalid ←? (r ← analyzeAll (analyzers (p it)) new urn inputs invalid;
              match r with
              | inl err => mret (inl ([], Some err))
              | inr invalid => mret (inr invalid)
              end);
  (* If the resource isn't valid, don't proceed any further. *)
  if invalid : bool then mret ([], Some validationError) else
  match hasold with
  | Some (old, oldinputs) =>
    so ← deref old;
    sn ← deref new;
    Assert (bool_decide (st_Type so = st_Type sn)) "old.Type == new.Type";;
    if negb (DeepEquals env oldinputs inputs) then
      (* The properties changed: an update or a replacement. *)
      diff ←? match prov with
              | Some pv =>
                log (CDiff pv urn (st_ID so) oldinputs inputs);;
                match Diff env pv urn (st_ID so) oldinputs inputs with
                | (_, Some err) => mret (inl ([], Some err))
                | (diff, None) => mret (inr diff)
                end
              | None => mret (inr DiffResult_zero)
              end;
      if Replace diff then
        set_iter (λ it, set_replaces (<[urn := true]> (replaces it)) it);;
        (* Recompute the default values without the old inputs. *)
        _ ←? match prov with
             | Some pv =>
               log (CCheck pv urn None news);;
               match Check env pv urn None news with
               | (_, _, Some err) => mret (inl ([], Some err))
               | (inputs, failures, None) =>
                 bad ← issueCheckErrors new urn failures;
                 if bad : bool then mret (inl ([], Some validationError))
                 else update new (λ s, with_Inputs s inputs);; mret (inr tt)
               end
             | None => mret (inr tt)
             end;
        mret ([NewCreateReplacementStep e old new (ReplaceKeys diff);
               NewReplaceStep old new (ReplaceKeys diff)], None)
      else
        (* If we fell through, it's an update. *)
        set_iter (λ it, set_updates (<[urn := true]> (updates it)) it);;
        mret ([NewUpdateStep e old new (StableKeys diff)], None)
    else
      (* No need to update anything, the properties didn't change. *)
      set_iter (λ it, set_sames (<[urn := true]> (sames it)) it);;
      mret ([NewSameStep e old new], None)
  | None =>
    (* The resource isn't in the old map, so it must be a resource creation. *)
    set_iter (λ it, set_creates (<[urn := true]> (creates it)) it);;
    mret ([NewCreateStep e new], None)
  end.

(** [registerResourceOutputs] completes a pending registration. *)
Definition registerResourceOutputs (e : RegisterResourceOutputsEvent) : M (option error) :=
  (* Look up the final state in the pending registration list. *)
  let urn := out_URN e in
  it ← get_iter;
  match regs it !! urn with
  | None => panic "cannot complete a resource whose registration isn't pending"
  | Some reg =>
    set_iter (λ it, set_regs (delete urn (regs it)) it);;
    (* If there are any extra properties to add to the outputs, append them now. *)
    match out_Outputs e with
    | Some outs =>
      match New reg with
      | Some new => update new (λ s, AddOutputs s outs)
      | None => panic "nil pointer dereference"
      end
    | None => mret tt
    end;;
    (* If there is an event subscription for finishing the resource, execute it. *)
    match opt_Events (opts it) with
    | Some ev =>
      h ← get_heap;
      log (COutputsHook reg);;
      match OnResourceOutputs ev h reg with
      | Some eventerr =>
        mret (Some (ErrWrap eventerr "resource complete event returned an error"))
      | None =>
        (* Finally, let the language provider know that we're done. *)
        log (COutputsDone e);; mret None
      end
    | None => log (COutputsDone e);; mret None
    end
  end.

(** The loop of [computeDeletes]: [n] is [i + 1], so that the loop runs
    for [i = n - 1] down to [0]. *)
Fixpoint computeDeletes_from (rs : list ptr) (n : nat) (dels : list ptr) : M (list ptr) :=
  match n with
  | 0 => mret dels
  | S i =>
    match rs !! i with
    | None => panic "index out of range"
    | Some res =>
      s ← deref res;
      let urn := st_URN s in
      it ← get_iter;
      Assert (negb (has (creates it) urn) || st_Delete s) "!iter.creates[urn] || res.Delete";;
      if st_Delete s || (negb (has (sames it) urn) && negb (has (updates it) urn))
         || has (replaces it) urn
      then computeDeletes_from rs i (dels ++ [res])
      else computeDeletes_from rs i dels
    end
  end.

(** [computeDeletes] creates a list of deletes to perform. *)
Definition computeDeletes : M (list ptr) :=
  it ← get_iter;
  match prev (p it) with
  | Some pv => computeDeletes_from (snap_Resources pv) (length (snap_Resources pv)) []
  | None => mret []
  end.

(** [nextDeleteStep] produces a new step that deletes a resource if
    necessary. *)
Definition nextDeleteStep : M (option Step) :=
  it ← get_iter;
  match delqueue it with
  | del :: rest =>
    set_iter (set_delqueue rest);;
    s ← deref del;
    let urn := st_URN s in
    set_iter (λ it, set_deletes (<[urn := true]> (deletes it)) it);;
    it ← get_iter;
    mret (Some (NewDeleteStep del (has (replaces it) urn)))
  | [] => mret None
  end.

(** [iter.src.Next()]. *)
Definition call_src_Next : M (option SourceEvent * option error) := λ w,
  let answer := src_Next env (srcpos w) in
  Ok answer (mkWorld (iter w) (heap w) (S (srcpos w)) (trace w ++ [CSrcNext answer])).

(** The loop of [Next]; one unit of fuel is one turn of the loop. *)
Fixpoint Next_loop (fuel : nat) : M (option Step * option error) :=
  match fuel with
  | 0 => λ _, OutOfFuel
  | S fuel =>
    it ← get_iter;
    if done it then mret (None, None) else
    match stepqueue it with
    | step :: rest =>
      set_iter (set_stepqueue rest);;
      mret (Some step, None)
    | [] =>
      if negb (srcdone it) then
        r ← call_src_Next;
        match r with
        | (_, Some err) => mret (None, Some err)
        | (Some event, None) =>
          match event with
          | EvRegister e =>
            r ← makeRegisterResouceSteps e;
            match r with
            | (_, Some steperr) => mret (None, Some steperr)
            | (steps, None) =>
              match steps with
              | [] => panic "len(steps) > 0"
              | step :: rest =>
                (match rest with
                 | [] => mret tt
                 | _ => set_iter (set_stepqueue rest)
                 end);;
                mret (Some step, None)
              end
            end
          | EvOutputs e =>
            err ← registerResourceOutputs e;
            match err with
            | Some err => mret (None, Some err)
            | None => Next_loop fuel
            end
          | EvOther kind => panic "Unrecognized intent from source iterator"
          end
        | (None, None) =>
          (* The source is done: note it, and add any deletions to be performed. *)
          set_iter (set_srcdone true);;
          dels ← computeDeletes;
          set_iter (set_delqueue dels);;
          Next_loop fuel
        end
      else
        (* The interpreter has finished: drain any deletions that piled up. *)
        step ← nextDeleteStep;
        match step with
        | Some step => mret (Some step, None)
        | None => set_iter (set_done true);; mret (None, None)
        end
    end
  end.

(** Every pass of the loop that does not leave it either removes a pending
    registration or marks the source as done, so this many turns are
    enough (see [Next_loop_fuel]). *)
Definition Next_fuel (w : World) : nat := size (regs (iter w)) + 3.

(** [Next] advances the plan by a single step. *)
Definition Next : M (option Step * option error) :=
  λ w, Next_loop (Next_fuel w) w.

(** The resource list of [Snap]: a copy of [iter.resources], then the
    loop that appends the resources of the base plan that are not done. *)
Definition Snap_resources (it : PlanIterator) : list ptr :=
  let resources := resources it in
  if negb (done it) then
    match prev (p it) with
    | Some pv =>
      foldl (λ resources res,
               if negb (has_ptr (dones it) res) then resources ++ [res] else resources)
            resources (snap_Resources pv)
    | None => resources
    end
  else resources.

(** [iter.p.ctx.Host.ListPlugins()]: the plugins the host has loaded by
    now. *)
Definition call_Host_ListPlugins : M (list string) := λ w,
  let answer := Host_ListPlugins env (trace w) in
  Ok answer (mkWorld (iter w) (heap w) (srcpos w) (trace w ++ [CHostListPlugins answer])).

(** [time.Now()]. *)
Definition call_time_Now : M Z := λ w,
  let answer := time_Now env (trace w) in
  Ok answer (mkWorld (iter w) (heap w) (srcpos w) (trace w ++ [CTimeNow answer])).

(** [SnapVersions] returns all versions used in the generation of this
    snapshot: the version of the engine and the plugins loaded by now. *)
Definition SnapVersions : M (string * list string) :=
  plugs ← call_Host_ListPlugins;
  mret (version_Version env, plugs).

(** [Snap] returns a fresh snapshot that takes into account everything
    that has happened up till this point. *)
Definition Snap : M Snapshot :=
  it ← get_iter;
  let resources := Snap_resources it in
  (* Now produce a manifest and snapshot. *)
  r ← SnapVersions;
  let '(v, plugs) := r in
  now ← call_time_Now;
  mret (NewSnapshot (Target_Name (p it))
          (mkManifest now v plugs (NewMagic env now v plugs))
          resources).

End PlanApply.

(** ** Runs of the iterator

    What a caller does with an iterator: pull the next step, apply a step,
    and record snapshot states. *)
Inductive Action :=
| ActNext
| ActApply (step : Step) (preview : bool)
| ActMark (state : ptr)
| ActAppend (state : ptr).

Section Runs.

Variable env : Env.

Definition exec (a : Action) : M unit :=
  match a with
  | ActNext => Next env;; mret tt
  | ActApply step preview => Apply env step preview;; mret tt
  | ActMark state => MarkStateSnapshot state
  | ActAppend state => AppendStateSnapshot state
  end.

Fixpoint run (acts : list Action) : M unit :=
  match acts with
  | [] => mret tt
  | a :: rest => exec a;; run rest
  end.

(** [n] calls of [Next] in a row, with their results. *)
Fixpoint NextN (n : nat) : M (list (option Step * option error)) :=
  match n with
  | 0 => mret []
  | S n => r ← Next env; rs ← NextN n; mret (r :: rs)
  end.

End Runs.

(** The world a plan starts in: a fresh iterator over the heap that holds
    the states of the previous snapshot. *)
Definition initial (pl : Plan) (o : Options) (h : Heap) : World :=
  mkWorld (Start pl o) h 0 [].

(** ** Vocabulary of the properties *)

Definition add_trace (w : World) (tr : list Call) : World :=
  mkWorld (iter w) (heap w) (srcpos w) (trace w ++ tr).

Definition with_iter (w : World) (it : PlanIterator) : World :=
  mkWorld it (heap w) (srcpos w) (trace w).

(** The resources of the previous snapshot, none when there is no
    previous snapshot. *)
Definition prior (it : PlanIterator) : list ptr :=
  match prev (p it) with
  | Some pv => snap_Resources pv
  | None => []
  end.

(** The identity of a state: what never changes once it is allocated. *)
Definition ident (s : State) : URN * string * URN :=
  (st_URN s, st_Type s, st_Parent s).

Definition idents (h : Heap) : list (URN * string * URN) := map ident h.

(** The answers of the source, in the order it gave them. *)
Definition src_answers (tr : list Call) : list (option SourceEvent * option error) :=
  omap (λ c, match c with CSrcNext a => Some a | _ => None end) tr.

(** *** Snapshots as topological sorts *)

(** Every resource with a parent comes after a resource whose URN is that
    parent. *)
Definition topological (h : Heap) (l : list ptr) : Prop :=
  ∀ i a s, l !! i = Some a → h !! a = Some s → st_Parent s ≠ "" →
    ∃ j b t, j < i ∧ l !! j = Some b ∧ h !! b = Some t ∧ st_URN t = st_Parent s.

(** A prior resource that is marked done and is the parent of a prior
    resource not marked done has a resource of the same URN in the
    current list. *)
Definition superseded_parents (h : Heap) (it : PlanIterator) : Prop :=
  ∀ a s c sc,
    a ∈ prior it → has_ptr (dones it) a = true → h !! a = Some s →
    c ∈ prior it → has_ptr (dones it) c = false → h !! c = Some sc →
    st_Parent sc ≠ "" → st_Parent sc = st_URN s →
    ∃ b t, b ∈ resources it ∧ h !! b = Some t ∧ st_URN t = st_URN s.

(** *** Deletions *)

(** The condition under which [computeDeletes] enqueues a prior resource,
    in the words of the specification. *)
Definition enqueued (it : PlanIterator) (h : Heap) (res : ptr) : bool :=
  match h !! res with
  | Some s =>
    st_Delete s
    || (negb (has (sames it) (st_URN s)) && negb (has (updates it) (st_URN s)))
    || has (replaces it) (st_URN s)
  | None => false
  end.

(** The assertion of [computeDeletes] holds of a prior resource. *)
Definition delete_assertion (it : PlanIterator) (h : Heap) (res : ptr) : Prop :=
  ∃ s, h !! res = Some s ∧ (has (creates it) (st_URN s) = false ∨ st_Delete s = true).

(** The step [Next] returns for an enqueued resource. *)
Definition delete_step (it : PlanIterator) (h : Heap) (res : ptr)
    : option Step * option error :=
  (Some (NewDeleteStep res
           (match h !! res with
            | Some s => has (replaces it) (st_URN s)
            | None => false
            end)), None).

(** *** The decision of a registration, in the words of the specification *)

Section Decision.

Variable env : Env.
Variable w : World.
Variable e : RegisterResourceEvent.

Definition reg_urn : URN :=
  NewURN env (Target_Name (p (iter w))) (source_Pkg (p (iter w)))
         (g_Type (reg_Goal e)) (g_Name (reg_Goal e)).

(** The old state of the URN, if the previous snapshot has one. *)
Definition old_state : option (ptr * State) :=
  old ← Olds (p (iter w)) !! reg_urn; s ← heap w !! old; Some (old, s).

Definition old_inputs : option PropertyMap := (λ os, st_Inputs os.2) <$> old_state.

(** The provider of a custom resource; none for a logical one. *)
Definition resolved_provider : option string :=
  if g_Custom (reg_Goal e)
  then (Host_Provider env (Type_Package env (g_Type (reg_Goal e)))).1
  else None.

(** The inputs after the first check; the event's own for a logical
    resource. *)
Definition checked_inputs : PropertyMap :=
  match resolved_provider with
  | Some pv => (Check env pv reg_urn old_inputs (g_Properties (reg_Goal e))).1.1
  | None => g_Properties (reg_Goal e)
  end.

(** The registration passes validation: the URN is new, the provider of a
    custom resource is found and accepts the inputs, and every analyzer
    is loaded and accepts the checked inputs. *)
Definition passes_validation : Prop :=
  has (urns (iter w)) reg_urn = false
  ∧ (g_Custom (reg_Goal e) = true →
     ∃ pv inputs,
       Host_Provider env (Type_Package env (g_Type (reg_Goal e))) = (Some pv, None)
       ∧ Check env pv reg_urn old_inputs (g_Properties (reg_Goal e)) = (inputs, [], None))
  ∧ Forall (λ a, ∃ an, Host_Analyzer env a = (Some an, None)
                       ∧ Analyze env an (g_Type (reg_Goal e)) checked_inputs = ([], None))
           (analyzers (p (iter w))).

(** The old state, when there is one, is live and has the type of the
    goal (the assertion of the code). *)
Definition old_well_formed : Prop :=
  ∀ old, Olds (p (iter w)) !! reg_urn = Some old →
    ∃ s, heap w !! old = Some s ∧ st_Type s = g_Type (reg_Goal e).

(** The answer of the provider's diff; the zero value for a logical
    resource. *)
Definition provider_diff (so : State) : DiffResult * option error :=
  match resolved_provider with
  | Some pv => Diff env pv reg_urn (st_ID so) (st_Inputs so) checked_inputs
  | None => (DiffResult_zero, None)
  end.

Inductive Verdict :=
| DecCreate
| DecSame (old : ptr)
| DecReplace (old : ptr) (keys : list string)
| DecUpdate (old : ptr) (stables : list string).

(** If no old state exists: create.  If the old inputs equal the checked
    inputs: same.  If the provider's diff says replace: replace.
    Otherwise: update. *)
Definition decision : Verdict :=
  match old_state with
  | None => DecCreate
  | Some (old, so) =>
    if DeepEquals env (st_Inputs so) checked_inputs then DecSame old
    else if Replace (provider_diff so).1 then DecReplace old (ReplaceKeys (provider_diff so).1)
    else DecUpdate old (StableKeys (provider_diff so).1)
  end.

Definition decision_steps (new : ptr) (d : Verdict) : list Step :=
  match d with
  | DecCreate => [NewCreateStep e new]
  | DecSame old => [NewSameStep e old new]
  | DecReplace old keys =>
    [NewCreateReplacementStep e old new keys; NewReplaceStep old new keys]
  | DecUpdate old stables => [NewUpdateStep e old new stables]
  end.

(** The classification sets after the decision is recorded. *)
Definition recorded (d : Verdict) (it : PlanIterator) : Prop :=
  let mark (m : gmap URN bool) := <[reg_urn := true]> m in
  let it0 := iter w in
  urns it = mark (urns it0) ∧ deletes it = deletes it0 ∧
  match d with
  | DecCreate =>
    creates it = mark (creates it0) ∧ sames it = sames it0
    ∧ replaces it = replaces it0 ∧ updates it = updates it0
  | DecSame _ =>
    creates it = creates it0 ∧ sames it = mark (sames it0)
    ∧ replaces it = replaces it0 ∧ updates it = updates it0
  | DecReplace _ _ =>
    creates it = creates it0 ∧ sames it = sames it0
    ∧ replaces it = mark (replaces it0) ∧ updates it = updates it0
  | DecUpdate _ _ =>
    creates it = creates it0 ∧ sames it = sames it0
    ∧ replaces it = replaces it0 ∧ updates it = mark (updates it0)
  end.

(** The diff is asked (there is an old state whose inputs differ from the
    checked inputs) and answers with an error. *)
Definition diff_error : option error :=
  match old_state with
  | Some (old, so) =>
    if DeepEquals env (st_Inputs so) checked_inputs then None else (provider_diff so).2
  | None => None
  end.

(** The check that a replacement re-runs, without the old inputs and on
    the event's own inputs; none for a logical resource. *)
Definition second_check : option (PropertyMap * list CheckFailure * option error) :=
  (λ pv, Check env pv reg_urn None (g_Properties (reg_Goal e))) <$> resolved_provider.

(** The error in which the provider calls of the decision itself end the
    registration: the error of the diff, and, when the diff says replace,
    the error of the second check, or the validation error when the
    second check reports failures. *)
Definition decision_error : option error :=
  match diff_error with
  | Some err => Some err
  | None =>
    match decision with
    | DecReplace _ _ =>
      match second_check with
      | Some (_, failures, Some err) => Some err
      | Some (_, failures, None) =>
        match failures with [] => None | _ => Some validationError end
      | None => None
      end
    | _ => None
    end
  end.

(** Only the URN is recorded; none of the classification sets changes. *)
Definition unclassified (it : PlanIterator) : Prop :=
  let it0 := iter w in
  urns it = <[reg_urn := true]> (urns it0) ∧ deletes it = deletes it0
  ∧ creates it = creates it0 ∧ sames it = sames it0
  ∧ replaces it = replaces it0 ∧ updates it = updates it0.


End Decision.

(** *** Classification sets *)

Definition disjoint_sets (m1 m2 : gmap URN bool) : Prop :=
  ∀ u, ¬ (has m1 u = true ∧ has m2 u = true).

Definition subset_sets (m1 m2 : gmap URN bool) : Prop :=
  ∀ u, has m1 u = true → has m2 u = true.

(** [Olds()] is the URN map of the previous snapshot: every old state is
    a resource of the previous snapshot and has the URN it is filed
    under. *)
Definition olds_of_prev (pl : Plan) (h : Heap) : Prop :=
  ∀ u old, Olds pl !! u = Some old →
    ∃ pv s, prev pl = Some pv ∧ old ∈ snap_Resources pv ∧ h !! old = Some s
            ∧ st_URN s = u.

(** *** Invariants of a run *)

(** A step of a run that classifies nothing, enqueues nothing and leaves
    the source alone: it keeps the plan, the classification sets, the
    queue of deletions and the two flags, the identity of every state, and
    the answers of the source. *)
Definition quiet (w w' : World) : Prop :=
  p (iter w') = p (iter w) ∧ opts (iter w') = opts (iter w)
  ∧ urns (iter w') = urns (iter w) ∧ creates (iter w') = creates (iter w)
  ∧ updates (iter w') = updates (iter w) ∧ replaces (iter w') = replaces (iter w)
  ∧ deletes (iter w') = deletes (iter w) ∧ sames (iter w') = sames (iter w)
  ∧ delqueue (iter w') = delqueue (iter w)
  ∧ srcdone (iter w') = srcdone (iter w) ∧ done (iter w') = done (iter w)
  ∧ srcpos w' = srcpos w
  ∧ idents (heap w') = idents (heap w)
  ∧ src_answers (trace w') = src_answers (trace w).

(** A step that only talks to collaborators other than the source. *)
Definition silent (w w' : World) : Prop :=
  iter w' = iter w ∧ heap w' = heap w ∧ srcpos w' = srcpos w
  ∧ src_answers (trace w') = src_answers (trace w).

(** A step that may also write the fields of a state that are not its
    identity. *)
Definition calm (w w' : World) : Prop :=
  iter w' = iter w ∧ idents (heap w') = idents (heap w) ∧ srcpos w' = srcpos w
  ∧ src_answers (trace w') = src_answers (trace w).

(** What a registration does to the classification: nothing (it ended in
    an error first), or the URN was new and went to one of [creates],
    [updates] and [sames], or the URN has an old state and went to
    [replaces]. *)
Definition classified (pl : Plan) (u : URN) (it it' : PlanIterator) : Prop :=
  (creates it' = creates it ∧ updates it' = updates it ∧ sames it' = sames it
   ∧ replaces it' = replaces it)
  ∨ (has (urns it) u = false ∧ creates it' = <[u := true]> (creates it)
     ∧ updates it' = updates it ∧ sames it' = sames it ∧ replaces it' = replaces it)
  ∨ (has (urns it) u = false ∧ creates it' = creates it
     ∧ updates it' = <[u := true]> (updates it) ∧ sames it' = sames it
     ∧ replaces it' = replaces it)
  ∨ (has (urns it) u = false ∧ creates it' = creates it ∧ updates it' = updates it
     ∧ sames it' = <[u := true]> (sames it) ∧ replaces it' = replaces it)
  ∨ (is_Some (Olds pl !! u) ∧ creates it' = creates it ∧ updates it' = updates it
     ∧ sames it' = sames it ∧ replaces it' = <[u := true]> (replaces it)).

Definition registered (env : Env) (e : RegisterResourceEvent) (w w' : World) : Prop :=
  p (iter w') = p (iter w) ∧ opts (iter w') = opts (iter w)
  ∧ urns (iter w') = <[reg_urn env w e := true]> (urns (iter w))
  ∧ classified (p (iter w)) (reg_urn env w e) (iter w) (iter w')
  ∧ deletes (iter w') = deletes (iter w)
  ∧ delqueue (iter w') = delqueue (iter w)
  ∧ srcdone (iter w') = srcdone (iter w) ∧ done (iter w') = done (iter w)
  ∧ regs (iter w') = regs (iter w) ∧ stepqueue (iter w') = stepqueue (iter w)
  ∧ resources (iter w') = resources (iter w)
  ∧ srcpos w' = srcpos w
  ∧ (∃ s, idents (heap w') = idents (heap w) ++ [ident s])
  ∧ src_answers (trace w') = src_answers (trace w).

(** A registration under way: the URN is recorded, the new state is
    allocated, and nothing is classified yet. *)
Definition pending (env : Env) (e : RegisterResourceEvent) (w : World) (s : State)
    (w1 : World) : Prop :=
  iter w1 = set_urns (<[reg_urn env w e := true]> (urns (iter w))) (iter w)
  ∧ idents (heap w1) = idents (heap w) ++ [ident s]
  ∧ srcpos w1 = srcpos w
  ∧ src_answers (trace w1) = src_answers (trace w).

(** The three intent sets hold only URNs that were seen, and no URN is in
    two of them. *)
Definition classified_apart (it : PlanIterator) : Prop :=
  subset_sets (creates it) (urns it) ∧ subset_sets (updates it) (urns it)
  ∧ subset_sets (sames it) (urns it)
  ∧ disjoint_sets (creates it) (updates it) ∧ disjoint_sets (creates it) (sames it)
  ∧ disjoint_sets (updates it) (sames it).

(** Every replaced URN has an old state while the source runs, and, once
    the source is done, is deleted or still in the queue of deletions. *)
Definition replaces_accounted (pl : Plan) (h0 : Heap) (it : PlanIterator) : Prop :=
  if srcdone it then
    ∀ u, has (replaces it) u = true →
      has (deletes it) u = true
      ∨ ∃ d s, d ∈ delqueue it ∧ h0 !! d = Some s ∧ st_URN s = u
  else ∀ u, has (replaces it) u = true → is_Some (Olds pl !! u).

(** The source has answered "no event, no error" at most once, and that
    answer is its last; before it, the source is not marked done. *)
Definition source_ended_once (w : World) : Prop :=
  (∀ t1 t2, src_answers (trace w) = t1 ++ (None, None) :: t2 → t2 = [])
  ∧ (srcdone (iter w) = false → (None, None) ∉ src_answers (trace w)).

Definition invariant (pl : Plan) (h0 : Heap) (w : World) : Prop :=
  p (iter w) = pl
  ∧ idents h0 `prefix_of` idents (heap w)
  ∧ classified_apart (iter w)
  ∧ (olds_of_prev pl h0 → replaces_accounted pl h0 (iter w))
  ∧ (done (iter w) = true → srcdone (iter w) = true ∧ delqueue (iter w) = [])
  ∧ source_ended_once w.

(** *** The source in the trace *)

Definition is_src_call (c : Call) : bool :=
  match c with CSrcNext _ => true | _ => false end.

(** Nothing is pulled from the source after it has answered with no event
    and no error. *)
Definition source_left_alone (tr : list Call) : Prop :=
  ∀ t1 t2, tr = t1 ++ CSrcNext (None, None) :: t2 →
    Forall (λ c, is_src_call c = false) t2.

(** ** Concrete plans

    A small provider, a scripted source and the step behaviour of the
    specification's step table, used to run the operations on concrete
    inputs. *)

Fixpoint pv_eqb (a b : PropertyValue) : bool :=
  match a, b with
  | PNull, PNull => true
  | PBool x, PBool y => Bool.eqb x y
  | PNumber x, PNumber y => Z.eqb x y
  | PString x, PString y => String.eqb x y
  | PArray l, PArray m =>
    (fix go (l m : list PropertyValue) : bool :=
       match l, m with
       | [], [] => true
       | x :: l', y :: m' => pv_eqb x y && go l' m'
       | _, _ => false
       end) l m
  | PObject l, PObject m =>
    (fix go (l m : list (string * PropertyValue)) : bool :=
       match l, m with
       | [], [] => true
       | (k, x) :: l', (k', y) :: m' => String.eqb k k' && pv_eqb x y && go l' m'
       | _, _ => false
       end) l m
  | PComputed, PComputed => true
  | PSecret x, PSecret y => pv_eqb x y
  | _, _ => false
  end.

Fixpoint entries_eqb (l m : list (string * PropertyValue)) : bool :=
  match l, m with
  | [], [] => true
  | (k, x) :: l', (k', y) :: m' => String.eqb k k' && pv_eqb x y && entries_eqb l' m'
  | _, _ => false
  end.

Definition ex_DeepEquals (a b : PropertyMap) : bool :=
  entries_eqb (map_to_list a) (map_to_list b).

Definition ex_NewURN (target pkg t name : string) : URN :=
  "urn:pulumi:" +:+ target +:+ "::" +:+ pkg +:+ "::" +:+ t +:+ "::" +:+ name.

(** The step table of the specification: what applying each variant does
    to the planner. *)
Definition ex_apply (it : PlanIterator) (h : Heap) (s : Step) (preview : bool)
    : list StepEffect * Status * option error :=
  match s with
  | NewSameStep _ old new => ([EffMark old; EffAppend new], StatusOK, None)
  | NewCreateStep _ new => ([EffSetID new "id-1"; EffAppend new], StatusOK, None)
  | NewUpdateStep _ old new _ => ([EffMark old; EffAppend new], StatusOK, None)
  | NewCreateReplacementStep _ old new _ =>
    ([EffSetID new "id-2"; EffSetDelete old true; EffAppend new], StatusOK, None)
  | NewReplaceStep _ _ _ => ([], StatusOK, None)
  | NewDeleteStep old _ => ([EffMark old], StatusOK, None)
  end.

Definition ex_apply_fails (it : PlanIterator) (h : Heap) (s : Step) (preview : bool)
    : list StepEffect * Status * option error :=
  ([], StatusUnknown, Some (ErrExternal "create failed")).

Definition ex_check_ok (prov : string) (urn : URN) (olds : option PropertyMap)
    (news : PropertyMap) : PropertyMap * list CheckFailure * option error :=
  (news, [], None).

(** A provider that rejects the property ["k"] whenever it is asked. *)
Definition ex_check_rejects (prov : string) (urn : URN) (olds : option PropertyMap)
    (news : PropertyMap) : PropertyMap * list CheckFailure * option error :=
  (news, [mkCheckFailure "k" "out of range"], None).

(** A provider whose defaults come from the old inputs: it accepts the
    inputs next to old inputs and rejects them without. *)
Definition ex_check_needs_olds (prov : string) (urn : URN) (olds : option PropertyMap)
    (news : PropertyMap) : PropertyMap * list CheckFailure * option error :=
  match olds with
  | Some _ => (news, [], None)
  | None => (news, [mkCheckFailure "" "no default for zone"], None)
  end.

(** The diff asks for a replacement when the new inputs set ["zone"]. *)
Definition ex_diff (prov : string) (urn : URN) (id : string) (olds news : PropertyMap)
    : DiffResult * option error :=
  (if decide (is_Some (news !! "zone")) then mkDiff true ["zone"] []
   else mkDiff false [] ["arn"], None).

(** The name of a URN: what follows its last ["::"]. *)
Fixpoint ex_URN_Name_from (s name : string) : string :=
  match s with
  | String _ rest =>
    ex_URN_Name_from rest
      (if String.prefix "::" s then String.substring 1 (String.length rest) rest else name)
  | EmptyString => name
  end.

Definition ex_URN_Name (urn : URN) : string := ex_URN_Name_from urn urn.

(** A host that lists the plugins it has been asked for so far, and a
    clock that ticks with every interaction. *)
Definition ex_ListPlugins (tr : list Call) : list string :=
  remove_dups (omap (λ c, match c with
                          | CHostProvider pkg => Some pkg
                          | CHostAnalyzer a => Some a
                          | _ => None
                          end) tr).

Definition ex_Now (tr : list Call) : Z := Z.of_nat (length tr).

Definition ex_env
    (script : list (option SourceEvent * option error))
    (check : string → URN → option PropertyMap → PropertyMap →
             PropertyMap * list CheckFailure * option error)
    (apply : PlanIterator → Heap → Step → bool →
             list StepEffect * Status * option error) : Env :=
  mkEnv ex_NewURN ex_URN_Name (λ t, "aws") ex_DeepEquals
        (λ pkg, (Some pkg, None)) (λ a, (Some a, None)) ex_ListPlugins
        check ex_diff (λ a t inputs, ([], None))
        (λ n, nth n script (None, None))
        apply ex_Now "v0.9" (λ _ _ _, "magic").

Definition ex_hooks_ok : Events :=
  mkEvents (λ _ _, (Some "ctx", None)) (λ _ _ _ _ _, None) (λ _ _, None).
Definition ex_hooks_post_fails : Events :=
  mkEvents (λ _ _, (Some "ctx", None))
           (λ _ _ _ _ _, Some (ErrExternal "post-step hook failed")) (λ _ _, None).
(** A post-step hook that hands back the error of the step. *)
Definition ex_hooks_post_echo : Events :=
  mkEvents (λ _ _, (Some "ctx", None)) (λ _ _ _ _ err, err) (λ _ _, None).

Definition ex_urn (name : string) : URN := ex_NewURN "dev" "proj" "aws:s3:Bucket" name.

Definition ex_goal (name : string) (inputs : PropertyMap) (parent : URN) : Goal :=
  mkGoal "aws:s3:Bucket" name true inputs parent.

Definition ex_state (name : string) (inputs : PropertyMap) (parent : URN) : State :=
  NewState "aws:s3:Bucket" (ex_urn name) true false "id-0" inputs ∅ parent.

Definition ex_k (n : Z) : PropertyMap := {["k" := PNumber n]}.

Definition ex_plan (prior : option (list ptr)) (olds : gmap URN ptr) : Plan :=
  mkPlan ((λ l, NewSnapshot "dev" (mkManifest 0 "v0.9" ["aws"] "magic") l) <$> prior)
         olds ["policy"] "dev" "proj".

(** A plan without previous snapshot whose heap holds one fresh state,
    and the step that creates it. *)
Definition ex_reg_b : RegisterResourceEvent := mkReg (ex_goal "b" (ex_k 1) "") 0.
Definition ex_create_b : Step := NewCreateStep ex_reg_b 0.
Definition ex_world_b (hooks : option Events) : World :=
  initial (ex_plan None ∅) (mkOptions hooks 1) [ex_state "b" (ex_k 1) ""].

(** The same world once the creation of ["b"] has been applied and awaits
    its outputs, and the event that completes it. *)
Definition ex_world_b_pending (hooks : option Events) : World :=
  with_iter (ex_world_b hooks)
    (set_regs {[ex_urn "b" := ex_create_b]} (Start (ex_plan None ∅) (mkOptions hooks 1))).
Definition ex_outputs_b : RegisterResourceOutputsEvent :=
  mkOut (ex_urn "b") (Some {["arn" := PString "arn:b"]}) 1.

(** A plan over a previous snapshot with the single resource ["a"], and a
    registration of ["a"] that sets ["zone"], which the provider cannot
    update in place. *)
Definition ex_plan_a : Plan := ex_plan (Some [0]) {[ex_urn "a" := 0]}.
Definition ex_world_a (hooks : option Events) : World :=
  initial ex_plan_a (mkOptions hooks 1) [ex_state "a" (ex_k 1) ""].
Definition ex_reg_a_zone : RegisterResourceEvent :=
  mkReg (ex_goal "a" {["zone" := PString "eu"]} "") 7.

(** The provider of ["a"] needs the old inputs for its defaults. *)
Definition ex_env_needs_olds : Env := ex_env [] ex_check_needs_olds ex_apply.

(** A plan over a previous snapshot with ["a"] and its child ["c"]. *)
Definition ex_plan_ac : Plan :=
  ex_plan (Some [0; 1]) {[ex_urn "a" := 0; ex_urn "c" := 1]}.
Definition ex_world_ac : World :=
  initial ex_plan_ac (mkOptions None 1)
    [ex_state "a" (ex_k 1) ""; ex_state "c" (ex_k 2) (ex_urn "a")].

(** The same plan under way: ["a"] has been updated, its new state is
    committed and its old state marked; ["c"] is still to come. *)
Definition ex_world_ac_mid : World :=
  mkWorld (set_resources [2] (set_dones {[0 := true]}
             (Start ex_plan_ac (mkOptions None 1))))
          [ex_state "a" (ex_k 1) ""; ex_state "c" (ex_k 2) (ex_urn "a");
           ex_state "a" (ex_k 3) ""]
          1 [].

(** A program that registers a resource under a parent that no resource
    has. *)
Definition ex_reg_orphan : RegisterResourceEvent :=
  mkReg (ex_goal "c" (ex_k 2) (ex_urn "ghost")) 3.
Definition ex_env_orphan : Env :=
  ex_env [(Some (EvRegister ex_reg_orphan), None)] ex_check_ok ex_apply.
Definition ex_world_empty : World := initial (ex_plan None ∅) (mkOptions None 1) [].

(** The world an operation ends in; the given one if it does not end. *)
Definition outcome_world {A} (d : World) (o : Outcome A) : World :=
  match o with Ok _ w => w | _ => d end.

(** A program that registers ["a"] with a new ["zone"] and ends: the plan
    replaces ["a"], then deletes the old ["a"], and is done. *)
Definition ex_env_replace : Env :=
  ex_env [(Some (EvRegister ex_reg_a_zone), None)] ex_check_ok ex_apply.
Definition ex_world_a_done : World :=
  outcome_world (ex_world_a None)
    (run ex_env_replace [ActNext; ActNext; ActNext; ActNext] (ex_world_a None)).


(** ** The rest of the file

    Definitions for the properties of the operations beyond the claims of
    the specification. *)

(** An operation that needs no more turns of a loop than it is given: it
    ends in a result or in a panic. *)
Definition fueled {A} (m : M A) : Prop := ∀ w, m w ≠ OutOfFuel.

(** *** Registrations *)

(** The collaborators a registration talks to: the diagnostics sink and
    the analyzers for every resource, the host's provider table and the
    provider for a custom resource only. *)
Definition planning_call (custom : bool) (c : Call) : bool :=
  match c with
  | CDiag _ | CHostAnalyzer _ | CAnalyze _ _ _ => true
  | CHostProvider _ | CCheck _ _ _ _ | CDiff _ _ _ _ _ => custom
  | _ => false
  end.

(** The state at [new] may have got other inputs; no other state and no
    other field has changed. *)
Definition inputs_set (new : ptr) (h h' : Heap) : Prop :=
  h' = h ∨ ∃ s inputs, h !! new = Some s ∧ h' = <[new := with_Inputs s inputs]> h.

(** The trace has grown by calls of planning. *)
Definition extends (custom : bool) (tr tr' : list Call) : Prop :=
  ∃ t, tr' = tr ++ t ∧ forallb (planning_call custom) t = true.

(** A part of a registration that leaves the iterator alone. *)
Definition planning (custom : bool) (new : ptr) (w w' : World) : Prop :=
  iter w' = iter w ∧ srcpos w' = srcpos w
  ∧ extends custom (trace w) (trace w')
  ∧ inputs_set new (heap w) (heap w').

(** The state a registration allocates. *)
Definition fresh_state (env : Env) (w : World) (e : RegisterResourceEvent)
    (inputs : PropertyMap) : State :=
  NewState (g_Type (reg_Goal e)) (reg_urn env w e) (g_Custom (reg_Goal e)) false ""
           inputs ∅ (g_Parent (reg_Goal e)).

(** Marking a URN in one of the classification sets. *)
Inductive Intent := IntentCreate | IntentUpdate | IntentReplace | IntentSame.

Definition mark (i : Intent) (u : URN) (it : PlanIterator) : PlanIterator :=
  match i with
  | IntentCreate => set_creates (<[u := true]> (creates it)) it
  | IntentUpdate => set_updates (<[u := true]> (updates it)) it
  | IntentReplace => set_replaces (<[u := true]> (replaces it)) it
  | IntentSame => set_sames (<[u := true]> (sames it)) it
  end.

(** The steps, the error and the classification of a registration go
    together: an error comes with no step and at most a mark in
    [replaces]; steps come with no error and the mark of their kind. *)
Definition filed (env : Env) (e : RegisterResourceEvent) (w : World)
    (r : list Step * option error) (it' : PlanIterator) : Prop :=
  let u := reg_urn env w e in
  let new := length (heap w) in
  let it1 := set_urns (<[u := true]> (urns (iter w))) (iter w) in
  match r.2 with
  | Some err =>
    r.1 = []
    ∧ (it' = it1
       ∨ (has (urns (iter w)) u = false ∧ is_Some (Olds (p (iter w)) !! u)
          ∧ it' = mark IntentReplace u it1))
  | None =>
    has (urns (iter w)) u = false
    ∧ match Olds (p (iter w)) !! u with
      | None => r.1 = [NewCreateStep e new] ∧ it' = mark IntentCreate u it1
      | Some old =>
        (r.1 = [NewSameStep e old new] ∧ it' = mark IntentSame u it1)
        ∨ (∃ stables, r.1 = [NewUpdateStep e old new stables]
                      ∧ it' = mark IntentUpdate u it1)
        ∨ (∃ keys, r.1 = [NewCreateReplacementStep e old new keys;
                          NewReplaceStep old new keys]
                   ∧ it' = mark IntentReplace u it1)
      end
  end.

(** What a registration that returns has done, read off the code path by
    path: the source is left alone, the only calls are those of planning
    (after the diagnostic of a duplicate URN), one state is allocated and
    no other state is written, and the result is filed. *)
Definition registered_as (env : Env) (e : RegisterResourceEvent) (w : World)
    (r : list Step * option error) (w' : World) : Prop :=
  let u := reg_urn env w e in
  srcpos w' = srcpos w
  ∧ (∃ tr, trace w' = trace w
             ++ (if has (urns (iter w)) u then [CDiag (ErrorDuplicateResourceURN u)] else [])
             ++ tr
           ∧ forallb (planning_call (g_Custom (reg_Goal e))) tr = true)
  ∧ (∃ inputs, heap w' = heap w ++ [fresh_state env w e inputs])
  ∧ filed env e w r (iter w').

(** The value an operation ends with; the given one if it does not end. *)
Definition outcome_value {A} (d : A) (o : Outcome A) : A :=
  match o with Ok a _ => a | _ => d end.

(** *** Concrete registrations *)

(** The plan over ["a"] after ["a"] has been registered once. *)
Definition ex_world_a_seen : World :=
  with_iter (ex_world_a None)
    (set_urns {[ex_urn "a" := true]} (iter (ex_world_a None))).

(** A registration of ["a"] with the inputs it had. *)
Definition ex_reg_a_same : RegisterResourceEvent := mkReg (ex_goal "a" (ex_k 1) "") 8.

(** A registration of a component, which has no provider. *)
Definition ex_reg_logical : RegisterResourceEvent :=
  mkReg (mkGoal "my:component:Group" "g" false (ex_k 5) "") 9.

(** *** One call of [Next], turn by turn *)

(** The world after the source has been asked and has given [answer]. *)
Definition pulled (w : World) (answer : option SourceEvent * option error) : World :=
  mkWorld (iter w) (heap w) (S (srcpos w)) (trace w ++ [CSrcNext answer]).

(** The turns of the loop of [Next] as a relation between the world at the
    call, the result and the world at the return: one rule for each way
    through the body of the loop, the two rules with a premise on
    [Next_result] being the two places where the loop goes round again. *)
Inductive Next_result (env : Env) : World → option Step * option error → World → Prop :=
| Next_already_done w :
    done (iter w) = true → Next_result env w (None, None) w
| Next_from_queue w step rest :
    done (iter w) = false → stepqueue (iter w) = step :: rest →
    Next_result env w (Some step, None) (with_iter w (set_stepqueue rest (iter w)))
| Next_source_error w event err :
    done (iter w) = false → stepqueue (iter w) = [] → srcdone (iter w) = false →
    src_Next env (srcpos w) = (event, Some err) →
    Next_result env w (None, Some err) (pulled w (event, Some err))
| Next_register_error w e steps err w1 :
    done (iter w) = false → stepqueue (iter w) = [] → srcdone (iter w) = false →
    src_Next env (srcpos w) = (Some (EvRegister e), None) →
    makeRegisterResouceSteps env e (pulled w (Some (EvRegister e), None))
      = Ok (steps, Some err) w1 →
    Next_result env w (None, Some err) w1
| Next_register w e step rest w1 :
    done (iter w) = false → stepqueue (iter w) = [] → srcdone (iter w) = false →
    src_Next env (srcpos w) = (Some (EvRegister e), None) →
    makeRegisterResouceSteps env e (pulled w (Some (EvRegister e), None))
      = Ok (step :: rest, None) w1 →
    Next_result env w (Some step, None)
      (match rest with
       | [] => w1
       | _ => with_iter w1 (set_stepqueue rest (iter w1))
       end)
| Next_outputs_error w e err w1 :
    done (iter w) = false → stepqueue (iter w) = [] → srcdone (iter w) = false →
    src_Next env (srcpos w) = (Some (EvOutputs e), None) →
    registerResourceOutputs e (pulled w (Some (EvOutputs e), None)) = Ok (Some err) w1 →
    Next_result env w (None, Some err) w1
| Next_outputs w e w1 r w' :
    done (iter w) = false → stepqueue (iter w) = [] → srcdone (iter w) = false →
    src_Next env (srcpos w) = (Some (EvOutputs e), None) →
    registerResourceOutputs e (pulled w (Some (EvOutputs e), None)) = Ok None w1 →
    Next_result env w1 r w' →
    Next_result env w r w'
| Next_source_end w dels w1 r w' :
    done (iter w) = false → stepqueue (iter w) = [] → srcdone (iter w) = false →
    src_Next env (srcpos w) = (None, None) →
    computeDeletes (with_iter (pulled w (None, None)) (set_srcdone true (iter w)))
      = Ok dels w1 →
    Next_result env (with_iter w1 (set_delqueue dels (iter w1))) r w' →
    Next_result env w r w'
| Next_delete w step w1 :
    done (iter w) = false → stepqueue (iter w) = [] → srcdone (iter w) = true →
    nextDeleteStep w = Ok (Some step) w1 →
    Next_result env w (Some step, None) w1
| Next_finished w w1 :
    done (iter w) = false → stepqueue (iter w) = [] → srcdone (iter w) = true →
    nextDeleteStep w = Ok None w1 →
    Next_result env w (None, None) (with_iter w1 (set_done true (iter w1))).

(** *** Concrete sources *)

(** A source that fails on the first pull and then registers ["b"]. *)
Definition ex_env_flaky : Env :=
  ex_env [(None, Some (ErrExternal "program crashed")); (Some (EvRegister ex_reg_b), None)]
         ex_check_ok ex_apply.

(** A source that sends an event the planner does not know. *)
Definition ex_env_unknown : Env :=
  ex_env [(Some (EvOther "ReadResourceEvent"), None)] ex_check_ok ex_apply.

(** *** What holds all along a run *)

Definition intent_set (i : Intent) (it : PlanIterator) : gmap URN bool :=
  match i with
  | IntentCreate => creates it
  | IntentUpdate => updates it
  | IntentReplace => replaces it
  | IntentSame => sames it
  end.

(** Every URN that is filed has been seen, is filed under one intent only,
    and is filed under [creates] exactly when it has no old state. *)
Definition one_intent (it : PlanIterator) : Prop :=
  ∀ u i, has (intent_set i it) u = true →
    has (urns it) u = true
    ∧ (∀ j, has (intent_set j it) u = true → j = i)
    ∧ (i = IntentCreate ↔ Olds (p it) !! u = None).

(** Until the source has ended nothing is deleted and no deletion waits. *)
Definition no_early_delete (it : PlanIterator) : Prop :=
  srcdone it = false → deletes it = ∅ ∧ delqueue it = [] ∧ done it = false.

(** What is deleted, or waits to be, is a resource of the previous
    snapshot. *)
Definition deletes_prior (w : World) : Prop :=
  (∀ d, d ∈ delqueue (iter w) → d ∈ prior (iter w))
  ∧ ∀ u, has (deletes (iter w)) u = true →
      ∃ d s, d ∈ prior (iter w) ∧ heap w !! d = Some s ∧ st_URN s = u.

(** [Steps]: the number of steps the plan has found, replacements counted
    apart from the deletions they entail and [sames] left out. *)
Definition Steps (it : PlanIterator) : nat :=
  size (creates it) + size (updates it) + size (replaces it) + size (deletes it).

(** The plan over ["a"] after its first step has been pulled. *)
Definition ex_world_a_planned : World :=
  outcome_world (ex_world_a None) (run ex_env_replace [ActNext] (ex_world_a None)).

(** *** Applying steps *)

(** Everything of the iterator but the pending registrations and the two
    fields of the snapshot ([resources], [dones]) is the same. *)
Definition same_plan (it it' : PlanIterator) : Prop :=
  p it' = p it ∧ opts it' = opts it ∧ urns it' = urns it
  ∧ creates it' = creates it ∧ updates it' = updates it
  ∧ replaces it' = replaces it ∧ deletes it' = deletes it ∧ sames it' = sames it
  ∧ stepqueue it' = stepqueue it ∧ delqueue it' = delqueue it
  ∧ srcdone it' = srcdone it ∧ done it' = done it.

(** The diagnostic of a check failure for the resource of a name: about
    the property when the failure names one, about the resource
    otherwise. *)
Definition check_diagnostic (s : State) (name : string) (failure : CheckFailure) : Call :=
  CDiag (if decide (cf_Property failure ≠ "") then
           ErrorResourcePropertyInvalidValue (st_Type s) name (cf_Property failure)
             (st_Inputs s !! cf_Property failure) (cf_Reason failure)
         else ErrorResourceInvalid (st_Type s) name (cf_Reason failure)).

(** The error [Provider] makes when the host has no provider for a
    package. *)
Definition provider_not_loaded (pkg : string) : error :=
  ErrNew ("could not load resource provider for package '" +:+ pkg +:+ "' from $PATH").

(** A plan over ["a"] in which ["a"] has been filed under [creates]
    although the previous snapshot holds it. *)
Definition ex_world_a_created : World :=
  with_iter (ex_world_a None)
    (set_creates {[ex_urn "a" := true]} (iter (ex_world_a None))).

(** ** [Start] and [configure]

    [configure] runs before there is an iterator: it reads the
    configuration of the target, a Go map from configuration keys to
    values, and talks to the providers.  The map is given as the list of
    its entries in the order in which the [range] loop visits them, which
    Go leaves open; values are kept abstract. *)

(** The order of [sort.Strings]: bytewise lexicographic. *)
Definition string_le (a b : string) : Prop := String.leb a b = true.

#[global] Instance string_le_dec : RelDecision string_le :=
  λ a b, decide (String.leb a b = true).

Definition string_lt (a b : string) : Prop := string_le a b ∧ a ≠ b.

(** The collaborators of [Start]: the package of a configuration key
    ([k.Package()]), the decryption of a value ([c.Value(decrypter)]),
    the plan's provider table ([p.Provider(pkg)], which may answer with
    no provider and no error), the provider's [Configure], and the
    source's [Iterate], of which only the error matters here. *)
Record ConfigEnv (V : Type) := mkConfigEnv {
  Key_Package : string → string;
  Value : V → string * option error;
  Plan_Provider : string → option string * option error;
  prov_Configure : string → gmap string string → option error;
  source_Iterate : Options → option error
}.
Arguments mkConfigEnv {V}.
Arguments Key_Package {V}.
Arguments Value {V}.
Arguments Plan_Provider {V}.
Arguments prov_Configure {V}.
Arguments source_Iterate {V}.

Inductive ConfigCall :=
| CValue (k : string)
| CPlanProvider (pkg : string)
| CConfigure (prov : string) (cfg : gmap string string)
| CIterate.

Section Configure.

Context {V : Type}.
Variable cenv : ConfigEnv V.

(** The first loop of [configure]: the packages of the keys, one for
    each entry, and the decrypted entries of each package. *)
Fixpoint config_collect (entries : list (string * V)) (pkgs : list string)
    (pkgconfigs : gmap string (gmap string string)) (tr : list ConfigCall)
    : (error + list string * gmap string (gmap string string)) * list ConfigCall :=
  match entries with
  | [] => (inr (pkgs, pkgconfigs), tr)
  | (k, c) :: rest =>
    let pkg := Key_Package cenv k in
    let pkgs := pkgs ++ [pkg] in
    let pkgconfig := default ∅ (pkgconfigs !! pkg) in
    match Value cenv c with
    | (_, Some err) => (inl err, tr ++ [CValue k])
    | (v, None) =>
      config_collect rest pkgs (<[pkg := <[k := v]> pkgconfig]> pkgconfigs)
                     (tr ++ [CValue k])
    end
  end.

(** The second loop of [configure]: each package once, in the order of
    the list. *)
Fixpoint config_providers (pkgs : list string)
    (pkgconfigs : gmap string (gmap string string)) (initialized : gmap string bool)
    (tr : list ConfigCall) : option error * list ConfigCall :=
  match pkgs with
  | [] => (None, tr)
  | pkg :: rest =>
    if decide (is_Some (initialized !! pkg)) then
      config_providers rest pkgconfigs initialized tr
    else
      match Plan_Provider cenv pkg with
      | (_, Some err) =>
        (Some (ErrWrap err ("failed to get pkg '" +:+ pkg +:+ "' resource provider")),
         tr ++ [CPlanProvider pkg])
      | (Some prov, None) =>
        (* A provider for the package: configure it. *)
        let cfg := default ∅ (pkgconfigs !! pkg) in
        match prov_Configure cenv prov cfg with
        | Some err =>
          (Some (ErrWrap err ("failed to configure pkg '" +:+ pkg +:+ "' resource provider")),
           tr ++ [CPlanProvider pkg; CConfigure prov cfg])
        | None =>
          config_providers rest pkgconfigs (<[pkg := true]> initialized)
                           (tr ++ [CPlanProvider pkg; CConfigure prov cfg])
        end
      | (None, None) =>
        (* It is legal for a provider to be missing for this package. *)
        config_providers rest pkgconfigs (<[pkg := true]> initialized)
                         (tr ++ [CPlanProvider pkg])
      end
  end.

(** [configure]: the error, and the calls made in order. *)
Definition configure (entries : list (string * V)) : option error * list ConfigCall :=
  match config_collect entries [] ∅ [] with
  | (inl err, tr) => (Some err, tr)
  | (inr (pkgs, pkgconfigs), tr) =>
    config_providers (merge_sort string_le pkgs) pkgconfigs ∅ tr
  end.

(** [Start] initializes and returns an iterator that can be used to step
    through a plan's individual steps. *)
Definition Plan_Start (entries : list (string * V)) (pl : Plan) (o : Options)
    : (option PlanIterator * option error) * list ConfigCall :=
  match configure entries with
  | (Some err, tr) => ((None, Some err), tr)
  | (None, tr) =>
    match source_Iterate cenv o with
    | Some err => ((None, Some err), tr ++ [CIterate])
    | None => ((Some (Start pl o), None), tr ++ [CIterate])
    end
  end.

End Configure.

(** The packages [configure] asked the plan's provider table for, and the
    calls other than decryptions, in order. *)
Definition asked (tr : list ConfigCall) : list string :=
  omap (λ c, match c with CPlanProvider pkg => Some pkg | _ => None end) tr.

Definition is_decryption (c : ConfigCall) : bool :=
  match c with CValue _ => true | _ => false end.

Definition provider_calls (tr : list ConfigCall) : list ConfigCall :=
  filter (λ c, is_decryption c = false) tr.

(** A configuration of two packages, one without provider, and a
    decrypter that fails on the value ["???"]. *)
Definition ex_cenv : ConfigEnv string :=
  mkConfigEnv
    (λ k, match String.index 0 ":" k with
          | Some n => String.substring 0 n k
          | None => k
          end)
    (λ c, if String.eqb c "???" then ("", Some (ErrExternal "cannot decrypt")) else (c, None))
    (λ pkg, if String.eqb pkg "aws" then (Some "aws-provider", None) else (None, None))
    (λ prov cfg, None)
    (λ o, None).

Definition ex_config : list (string * string) :=
  [("proj:name", "demo"); ("aws:region", "eu-west-1"); ("aws:profile", "dev")].

(** What the first loop of [configure] does with one entry whose value
    decrypts, and the decrypted entries of one package. *)
Definition config_add {V} (cenv : ConfigEnv V) (pkgconfigs : gmap string (gmap string string))
    (e : string * V) : gmap string (gmap string string) :=
  let pkg := Key_Package cenv e.1 in
  <[pkg := <[e.1 := (Value cenv e.2).1]> (default ∅ (pkgconfigs !! pkg))]> pkgconfigs.

Definition decrypts {V} (cenv : ConfigEnv V) (e : string * V) : Prop :=
  (Value cenv e.2).2 = None.

(** What [configure] does for one package: it asks for the provider and,
    if there is one, configures it. *)
Definition package_calls {V} (cenv : ConfigEnv V)
    (pkgconfigs : gmap string (gmap string string)) (pkg : string) : list ConfigCall :=
  CPlanProvider pkg ::
  match Plan_Provider cenv pkg with
  | (Some prov, None) => [CConfigure prov (default ∅ (pkgconfigs !! pkg))]
  | _ => []
  end.

(** [configure] fails at a package: the provider table returns an error,
    or the provider refuses the configuration; the error says which. *)
Definition config_failure {V} (cenv : ConfigEnv V)
    (pkgconfigs : gmap string (gmap string string)) (pkg : string) (err : error) : Prop :=
  (∃ pv e0, Plan_Provider cenv pkg = (pv, Some e0)
            ∧ err = ErrWrap e0 ("failed to get pkg '" +:+ pkg +:+ "' resource provider"))
  ∨ (∃ prov e0, Plan_Provider cenv pkg = (Some prov, None)
                ∧ prov_Configure cenv prov (default ∅ (pkgconfigs !! pkg)) = Some e0
                ∧ err = ErrWrap e0 ("failed to configure pkg '" +:+ pkg
                                    +:+ "' resource provider")).

(** [configure] gets through a package: no provider, or a provider that
    accepts the configuration. *)
Definition config_passes {V} (cenv : ConfigEnv V)
    (pkgconfigs : gmap string (gmap string string)) (pkg : string) : Prop :=
  match Plan_Provider cenv pkg with
  | (_, Some _) => False
  | (Some prov, None) => prov_Configure cenv prov (default ∅ (pkgconfigs !! pkg)) = None
  | (None, None) => True
  end.

Definition ex_config_sealed : list (string * string) :=
  [("aws:region", "eu-west-1"); ("aws:token", "???"); ("proj:name", "demo")].

(** * Properties *)

#[local] Set Warnings "-clear-no-such-hyp".

(** ** Reasoning about the monad *)

Lemma bind_inv {A B} (m : M A) (f : A → M B) w b w' :
  @mbind M _ _ _ f m w = Ok b w' → ∃ a w1, m w = Ok a w1 ∧ f a w1 = Ok b w'.
Proof. unfold mbind, M_bind. destruct (m w); naive_solver. Qed.

Lemma ret_inv {A} (a b : A) w w' : @mret M _ A a w = Ok b w' → a = b ∧ w = w'.
Proof. unfold mret, M_ret. by intros [= -> ->]. Qed.

Lemma orReturn_inv {R A} (c : M (R + A)) (k : A → M R) w r w' :
  orReturn c k w = Ok r w' →
  (c w = Ok (inl r) w') ∨ (∃ a w1, c w = Ok (inr a) w1 ∧ k a w1 = Ok r w').
Proof.
  unfold orReturn. intros (x & w1 & Hc & Hk)%bind_inv.
  destruct x; [left|right]; [|by eauto].
  apply ret_inv in Hk as [-> ->]. done.
Qed.

Lemma bind_Ok {A B} (m : M A) (f : A → M B) w a w1 :
  m w = Ok a w1 → @mbind M _ _ _ f m w = f a w1.
Proof. unfold mbind, M_bind. by intros ->. Qed.

Ltac munfold := unfold mbind, M_bind, mret, M_ret, orReturn in *.

Ltac mprim :=
  unfold diag, update, Assert, deref, alloc, log, set_heap, set_iter, get_heap,
    get_iter, panic in *.

Ltac minv1 :=
  match goal with
  | H : Panic _ = Ok _ _ |- _ => discriminate H
  | H : OutOfFuel = Ok _ _ |- _ => discriminate H
  | H : Ok _ _ = Ok _ _ |- _ => injection H; clear H; intros; subst
  | H : @mret M _ _ _ _ = Ok _ _ |- _ =>
      destruct (ret_inv _ _ _ _ H); clear H; subst
  | H : @mbind M _ _ _ _ _ _ = Ok _ _ |- _ =>
      let a := fresh "a" in let w := fresh "w" in
      let H1 := fresh "H" in let H2 := fresh "H" in
      destruct (bind_inv _ _ _ _ _ H) as (a & w & H1 & H2); clear H
  | H : orReturn _ _ _ = Ok _ _ |- _ =>
      let a := fresh "a" in let w := fresh "w" in
      let H1 := fresh "H" in let H2 := fresh "H" in
      destruct (orReturn_inv _ _ _ _ _ H) as [H1|(a & w & H1 & H2)]; clear H
  | H : context [match ?x with _ => _ end] |- _ =>
      match type of H with _ = Ok _ _ => destruct x eqn:? end
  end.

Ltac minv := mprim; repeat (minv1; simpl in * ).

(** ** [Apply] *)

Lemma forEach_frame {A} (R : World → World → Prop) (body : A → M unit) l :
  (∀ w, R w w) → (∀ w1 w2 w3, R w1 w2 → R w2 w3 → R w1 w3) →
  (∀ x w r w', body x w = Ok r w' → R w w') →
  ∀ w r w', forEach l body w = Ok r w' → R w w'.
Proof.
  intros Hrefl Htrans Hbody. induction l as [|x l IH]; simpl; intros w r w' H.
  - minv. apply Hrefl.
  - minv. eapply Htrans; eauto.
Qed.

Lemma call_step_Apply_opts env step preview w r w' :
  call_step_Apply env step preview w = Ok r w' →
  opts (iter w') = opts (iter w) ∧ regs (iter w') = regs (iter w).
Proof.
  unfold call_step_Apply. intros H. minv.
  match goal with Hf : forEach _ _ _ = Ok _ _ |- _ =>
    refine (forEach_frame
      (λ w w', opts (iter w') = opts (iter w) ∧ regs (iter w') = regs (iter w))
      _ _ _ _ _ _ _ _ Hf); [done|intros ? ? ? [? ?] [? ?]; split; congruence|] end.
  intros eff w0 r0 w0' He. destruct eff; simpl in He;
    unfold MarkStateSnapshot, AppendStateSnapshot in He; minv; done.
Qed.

Lemma Apply_pre_error_eq env w step preview ev ctx eventerr s :
  heap w !! step_state step = Some s →
  opt_Events (opts (iter w)) = Some ev →
  OnResourceStepPre ev (heap w) step = (ctx, Some eventerr) →
  Apply env step preview w =
    Ok (StatusOK, Some (ErrWrap eventerr "pre-step event returned an error"))
       (add_trace w [CStepPre step]).
Proof.
  intros Hs Hev Hpre.
  unfold Apply, Step_URN, deref, get_iter, get_heap, log. munfold.
  rewrite Hs. simpl. rewrite Hev. simpl. rewrite Hpre. reflexivity.
Qed.

Lemma Apply_post_eq env w step preview ev s ctx status err w2 :
  heap w !! step_state step = Some s →
  opt_Events (opts (iter w)) = Some ev →
  OnResourceStepPre ev (heap w) step = (ctx, None) →
  call_step_Apply env step preview (add_trace w [CStepPre step]) = Ok (status, err) w2 →
  ¬ (err = None ∧ Logical step = true ∧ is_Some (regs (iter w) !! st_URN s)) →
  Apply env step preview w =
    Ok (status,
        match OnResourceStepPost ev (heap w2) ctx step status err with
        | Some eventerr => Some (ErrWrap eventerr "post-step event returned an error")
        | None => err
        end)
       (add_trace
          (with_iter w2
             (match err with
              | None => if Logical step
                        then set_regs (<[st_URN s := step]> (regs (iter w2))) (iter w2)
                        else iter w2
              | Some _ => iter w2
              end))
          [CStepPost ctx step status err]).
Proof.
  intros Hs Hev Hpre Hstep Hdup.
  destruct (call_step_Apply_opts _ _ _ _ _ _ Hstep) as [Hopts Hregs]. simpl in Hopts, Hregs.
  unfold Apply, Step_URN, deref, get_iter, get_heap, log. munfold.
  rewrite Hs. simpl. rewrite Hev. simpl. rewrite Hpre.
  unfold add_trace in Hstep. rewrite Hstep. unfold add_trace, with_iter.
  destruct err as [e|].
  - simpl. rewrite Hopts, Hev. simpl. destruct (OnResourceStepPost _ _ _ _ _ _); reflexivity.
  - destruct (Logical step) eqn:Hl.
    + rewrite Hregs. destruct (regs (iter w) !! st_URN s) eqn:Hr.
      { exfalso. apply Hdup. eauto. }
      simpl. rewrite Hopts, Hev. simpl.
      destruct (OnResourceStepPost _ _ _ _ _ _); rewrite ?Hregs; reflexivity.
    + simpl. rewrite Hopts, Hev. simpl. destruct (OnResourceStepPost _ _ _ _ _ _); reflexivity.
Qed.

Lemma wraps_refl e : wraps e e.
Proof. unfold wraps. destruct e; simpl; set_solver. Qed.

Lemma wraps_ErrWrap e msg : wraps (ErrWrap e msg) e.
Proof. unfold wraps. simpl. right. apply wraps_refl. Qed.




(** The chain of causes of a wrapped error is the wrapper, then the chain
    of what it wraps. *)
Lemma wraps_ErrWrap_iff e msg x :
  wraps (ErrWrap e msg) x ↔ x = ErrWrap e msg ∨ wraps e x.
Proof. unfold wraps. simpl. apply elem_of_cons. Qed.

Lemma Apply_no_hooks_eq env w step preview s status err w2 :
  heap w !! step_state step = Some s →
  opt_Events (opts (iter w)) = None →
  call_step_Apply env step preview w = Ok (status, err) w2 →
  ¬ (err = None ∧ Logical step = true ∧ is_Some (regs (iter w) !! st_URN s)) →
  Apply env step preview w =
    Ok (status, err)
       (with_iter w2
          (match err with
           | None => if Logical step
                     then set_regs (<[st_URN s := step]> (regs (iter w2))) (iter w2)
                     else iter w2
           | Some _ => iter w2
           end)).
Proof.
  intros Hs Hev Hstep Hdup.
  destruct (call_step_Apply_opts _ _ _ _ _ _ Hstep) as [Hopts Hregs].
  unfold Apply, Step_URN, deref, get_iter, get_heap, log. munfold.
  rewrite Hs. simpl. rewrite Hev. simpl.
  replace (mkWorld (iter w) (heap w) (srcpos w) (trace w)) with w by by destruct w.
  rewrite Hstep. unfold with_iter.
  destruct err as [e|].
  - simpl. rewrite Hopts, Hev. by destruct w2.
  - destruct (Logical step) eqn:Hl.
    + rewrite Hregs. destruct (regs (iter w) !! st_URN s) eqn:Hr.
      { exfalso. apply Hdup. eauto. }
      simpl. rewrite Hopts, Hev, ?Hregs. reflexivity.
    + simpl. rewrite Hopts, Hev. by destruct w2.
Qed.

(** C5 (as the code has it).  When the pre-step hook returns an error,
    [Apply] returns [StatusOK] and the hook's error, wrapped; the call of
    the hook is all that has happened (neither the step's own [Apply] nor
    the post-step hook runs).  When the pre-step hook returns no error,
    the step's own [Apply] runs, and [Apply] does not stop on a
    registration made twice (a logical step that succeeds for a URN that
    is already pending), the post-step hook is called next, with the
    context value of the pre-step hook, the step, and the status and error
    of the step, whether the step succeeded or failed; [Apply] returns the
    status of the step, and for its error: the step's error if the
    post-step hook returns none, and otherwise the hook's error, wrapped.
    The chain of causes of that error is the wrapper, then the chain of
    the hook's error: the step's own error is among them only if it is
    that wrapper or among the causes of the hook's error.  When no hooks
    are configured, the step's own [Apply] runs, no hook is called after
    it, and (unless it stops on a registration made twice) [Apply]
    returns the status and the error of the step. *)
Theorem Apply_hooks env w step preview s :
  heap w !! step_state step = Some s →
  (∀ ev ctx eventerr,
     opt_Events (opts (iter w)) = Some ev →
     OnResourceStepPre ev (heap w) step = (ctx, Some eventerr) →
     ∃ w', Apply env step preview w
           = Ok (StatusOK, Some (ErrWrap eventerr "pre-step event returned an error")) w'
           ∧ trace w' = trace w ++ [CStepPre step])
  ∧ (∀ ev ctx status err w2,
       opt_Events (opts (iter w)) = Some ev →
       OnResourceStepPre ev (heap w) step = (ctx, None) →
       call_step_Apply env step preview (add_trace w [CStepPre step])
         = Ok (status, err) w2 →
       ¬ (err = None ∧ Logical step = true ∧ is_Some (regs (iter w) !! st_URN s)) →
       ∃ err' w',
         Apply env step preview w = Ok (status, err') w'
         ∧ trace w' = trace w2 ++ [CStepPost ctx step status err]
         ∧ match OnResourceStepPost ev (heap w2) ctx step status err with
           | Some eventerr =>
             ∃ wrapped,
               err' = Some wrapped
               ∧ wrapped = ErrWrap eventerr "post-step event returned an error"
               ∧ ∀ cause, wraps wrapped cause ↔ cause = wrapped ∨ wraps eventerr cause
           | None => err' = err
           end)
  ∧ (∀ status err w2,
       opt_Events (opts (iter w)) = None →
       call_step_Apply env step preview w = Ok (status, err) w2 →
       ¬ (err = None ∧ Logical step = true ∧ is_Some (regs (iter w) !! st_URN s)) →
       ∃ w', Apply env step preview w = Ok (status, err) w' ∧ trace w' = trace w2).
Proof.
  intros Hs. split; [|split].
  - intros ev ctx eventerr Hev Hpre. eexists.
    split; [by eapply Apply_pre_error_eq|]. done.
  - intros ev ctx status err w2 Hev Hpre Hstep Hdup. eexists _, _.
    split; [by eapply Apply_post_eq|]. split; [done|].
    destruct (OnResourceStepPost _ _ _ _ _ _) as [eventerr|]; [|done].
    eexists. split; [done|]. split; [done|]. intros cause. apply wraps_ErrWrap_iff.
  - intros status err w2 Hev Hstep Hdup. eexists.
    split; [by eapply Apply_no_hooks_eq|]. done.
Qed.

Lemma Apply_hooks_witness :
  ∃ err' w',
    Apply (ex_env [] ex_check_ok ex_apply_fails) ex_create_b false
          (ex_world_b (Some ex_hooks_post_fails)) = Ok (StatusUnknown, err') w'
    ∧ err' = Some (ErrWrap (ErrExternal "post-step hook failed")
                     "post-step event returned an error")
    ∧ last (trace w')
      = Some (CStepPost (Some "ctx") ex_create_b StatusUnknown
                (Some (ErrExternal "create failed"))).
Proof.
  destruct (Apply_hooks (ex_env [] ex_check_ok ex_apply_fails)
              (ex_world_b (Some ex_hooks_post_fails)) ex_create_b false
              (ex_state "b" (ex_k 1) "") eq_refl)
    as (_ & H & _).
  destruct (H ex_hooks_post_fails (Some "ctx") StatusUnknown
              (Some (ErrExternal "create failed")) _ eq_refl eq_refl eq_refl)
    as (err' & w' & H1 & H2 & wrapped & H3 & H4 & _).
  { intros [[=] _]. }
  exists err', w'. split; [exact H1|]. split; [rewrite H3, H4; reflexivity|].
  rewrite H2. reflexivity.
Defined.

(** C5, as stated, fails: the step fails with its own error, the
    post-step hook returns an error, and the error [Apply] returns wraps
    the hook's error only; the step's error is not among its causes. *)
Lemma Apply_post_hook_drops_step_error :
  ∃ w',
    call_step_Apply (ex_env [] ex_check_ok ex_apply_fails) ex_create_b false
      (add_trace (ex_world_b (Some ex_hooks_post_fails)) [CStepPre ex_create_b])
    = Ok (StatusUnknown, Some (ErrExternal "create failed")) w'
    ∧ ∃ err w'',
      Apply (ex_env [] ex_check_ok ex_apply_fails) ex_create_b false
            (ex_world_b (Some ex_hooks_post_fails)) = Ok (StatusUnknown, Some err) w''
      ∧ ¬ wraps err (ErrExternal "create failed").
Proof.
  eexists. split; [vm_compute; reflexivity|].
  eexists _, _. split; [vm_compute; reflexivity|].
  unfold wraps. simpl. rewrite !elem_of_cons. intros [H|[H|H]]; [done..|].
  by apply elem_of_nil in H.
Qed.

(** Whether the step's error is among the causes of the returned error
    is up to the hook: a post-step hook that hands back the error it was
    given makes [Apply] return an error that wraps the step's error. *)
Lemma Apply_post_hook_may_keep_step_error :
  ∃ err w',
    Apply (ex_env [] ex_check_ok ex_apply_fails) ex_create_b false
          (ex_world_b (Some ex_hooks_post_echo)) = Ok (StatusUnknown, Some err) w'
    ∧ wraps err (ErrExternal "create failed").
Proof.
  eexists _, _. split; [vm_compute; reflexivity|]. apply wraps_ErrWrap.
Qed.

(** A step that succeeds for a URN that is already pending: [Apply]
    returns before the post-step hook is reached. *)
Lemma Apply_registered_twice_skips_post_hook :
  ∃ err w',
    Apply (ex_env [] ex_check_ok ex_apply) ex_create_b false
          (ex_world_b_pending (Some ex_hooks_ok)) = Ok (StatusOK, Some err) w'
    ∧ CStepApply ex_create_b false ∈ trace w'
    ∧ ∀ c st er, CStepPost c ex_create_b st er ∉ trace w'.
Proof.
  eexists _, _. split; [vm_compute; reflexivity|]. simpl. split; [set_solver|].
  intros c st er. rewrite !elem_of_cons. intros [H|[H|H]]; [done..|].
  by apply elem_of_nil in H.
Qed.

(** ** [registerResourceOutputs] *)


Lemma registerResourceOutputs_pending e w reg new s :
  regs (iter w) !! out_URN e = Some reg →
  New reg = Some new →
  heap w !! new = Some s →
  let w1 := mkWorld (set_regs (delete (out_URN e) (regs (iter w))) (iter w))
                    (match out_Outputs e with
                     | Some outs => <[new := AddOutputs s outs]> (heap w)
                     | None => heap w
                     end) (srcpos w) (trace w) in
  registerResourceOutputs e w =
    match opt_Events (opts (iter w)) with
    | Some ev =>
      match OnResourceOutputs ev (heap w1) reg with
      | Some eventerr =>
        Ok (Some (ErrWrap eventerr "resource complete event returned an error"))
           (add_trace w1 [COutputsHook reg])
      | None => Ok None (add_trace w1 [COutputsHook reg; COutputsDone e])
      end
    | None => Ok None (add_trace w1 [COutputsDone e])
    end.
Proof.
  intros Hreg Hnew Hs. simpl.
  unfold registerResourceOutputs, update, deref, set_iter, set_heap, get_iter, get_heap,
    log, add_trace.
  munfold. rewrite Hreg. simpl.
  destruct (out_Outputs e) as [outs|]; simpl.
  - rewrite Hnew. simpl. rewrite Hs. simpl.
    destruct (opt_Events (opts (iter w))) as [ev|]; simpl; [|done].
    destruct (OnResourceOutputs ev _ reg); simpl; [done|]. by rewrite <-app_assoc.
  - destruct (opt_Events (opts (iter w))) as [ev|]; simpl; [|done].
    destruct (OnResourceOutputs ev _ reg); simpl; [done|]. by rewrite <-app_assoc.
Qed.





(** ** [Snap] and [AppendStateSnapshot] *)

Lemma foldl_append_filter {A} (P : A → bool) (l acc : list A) :
  foldl (λ acc x, if P x then acc ++ [x] else acc) acc l
  = acc ++ filter (λ x, P x = true) l.
Proof.
  revert acc. induction l as [|x l IH]; intros acc; simpl.
  - by rewrite app_nil_r.
  - rewrite IH, filter_cons. case_decide as HP; rewrite ?HP.
    + by rewrite <-app_assoc.
    + by destruct (P x).
Qed.

Lemma Snap_resources_eq it :
  Snap_resources it
  = resources it
    ++ (if done it then []
        else filter (λ res, has_ptr (dones it) res = false) (prior it)).
Proof.
  unfold Snap_resources, prior. destruct (done it); simpl; [by rewrite app_nil_r|].
  destruct (prev (p it)) as [pv|]; simpl; [|by rewrite app_nil_r].
  rewrite (foldl_append_filter (λ res, negb (has_ptr (dones it) res))).
  f_equal. apply list_filter_iff. intros res. by destruct (has_ptr (dones it) res).
Qed.

(** [Snap] asks the host for its plugins, then reads the clock, and
    returns; it writes neither the iterator nor a state. *)
Lemma Snap_eq env w :
  let plugs := Host_ListPlugins env (trace w) in
  let now := time_Now env (trace w ++ [CHostListPlugins plugs]) in
  Snap env w
  = Ok (NewSnapshot (Target_Name (p (iter w)))
          (mkManifest now (version_Version env) plugs
             (NewMagic env now (version_Version env) plugs))
          (Snap_resources (iter w)))
       (add_trace w [CHostListPlugins plugs; CTimeNow now]).
Proof.
  unfold Snap, SnapVersions, call_Host_ListPlugins, call_time_Now, get_iter, add_trace.
  munfold. simpl. by rewrite <-app_assoc.
Qed.

Lemma AppendStateSnapshot_eq state w :
  state < length (heap w) →
  AppendStateSnapshot state w
  = Ok tt (with_iter w (set_resources (resources (iter w) ++ [state]) (iter w))).
Proof.
  intros H. unfold AppendStateSnapshot, get_heap, Assert, set_iter. munfold.
  by rewrite bool_decide_eq_true_2.
Qed.

Lemma MarkStateSnapshot_eq state w :
  state < length (heap w) →
  MarkStateSnapshot state w
  = Ok tt (with_iter w (set_dones (<[state := true]> (dones (iter w))) (iter w))).
Proof.
  intros H. unfold MarkStateSnapshot, get_heap, Assert, set_iter. munfold.
  by rewrite bool_decide_eq_true_2.
Qed.

(** C8.  A plan starts with no committed state, and [AppendStateSnapshot]
    puts its state at the end of [resources].  The resource list of the
    snapshot [Snap] returns starts with [resources]; if the plan is done,
    that is all of it, and otherwise it goes on with the resources of the
    previous snapshot (if there is one) that are not marked in [dones], in
    the order of the previous snapshot.  [Snap] always returns, and leaves
    the iterator and the states as they are. *)
Theorem Snap_resources_spec env :
  (∀ pl o, resources (Start pl o) = [])
  ∧ (∀ w states,
       Forall (λ state, state < length (heap w)) states →
       ∃ w', forEach states AppendStateSnapshot w = Ok tt w'
             ∧ resources (iter w') = resources (iter w) ++ states
             ∧ prev (p (iter w')) = prev (p (iter w))
             ∧ dones (iter w') = dones (iter w) ∧ done (iter w') = done (iter w))
  ∧ (∀ w, ∃ snap w',
       Snap env w = Ok snap w' ∧ iter w' = iter w ∧ heap w' = heap w
       ∧ snap_Resources snap
         = resources (iter w)
           ++ (if done (iter w) then []
               else match prev (p (iter w)) with
                    | Some pv =>
                      filter (λ res, has_ptr (dones (iter w)) res = false)
                             (snap_Resources pv)
                    | None => []
                    end)).
Proof.
  split; [done|]. split.
  - intros w states. revert w. induction states as [|state states IH]; intros w Hlive.
    + exists w. simpl. by rewrite app_nil_r.
    + apply Forall_cons in Hlive as [Hs Hlive]. simpl.
      erewrite bind_Ok by by apply AppendStateSnapshot_eq.
      destruct (IH (with_iter w (set_resources (resources (iter w) ++ [state]) (iter w))))
        as (w' & H1 & H2 & H3 & H4 & H5); [done|].
      exists w'. split; [done|]. rewrite H2, H3, H4, H5. simpl.
      by rewrite <-app_assoc.
  - intros w. eexists _, _. split; [apply Snap_eq|]. simpl.
    split; [done|]. split; [done|]. rewrite Snap_resources_eq. unfold prior.
    by destruct (prev (p (iter w))).
Qed.

Lemma Snap_resources_spec_witness :
  ∃ w', forEach [0; 0] AppendStateSnapshot (ex_world_b None) = Ok tt w'
        ∧ resources (iter w') = [0; 0].
Proof.
  destruct (Snap_resources_spec (ex_env [] ex_check_ok ex_apply)) as (_ & H & _).
  destruct (H (ex_world_b None) [0; 0]) as (w' & H1 & H2 & _).
  { repeat constructor. }
  exists w'. split; [exact H1|exact H2].
Defined.

(** ** [computeDeletes] and the draining of the deletions *)

Lemma computeDeletes_from_eq rs n acc w :
  (n ≤ length rs)%nat →
  Forall (delete_assertion (iter w) (heap w)) (take n rs) →
  computeDeletes_from rs n acc w
  = Ok (acc ++ filter (λ res, enqueued (iter w) (heap w) res = true) (reverse (take n rs))) w.
Proof.
  revert acc. induction n as [|i IH]; intros acc Hn Hok; simpl.
  - by rewrite take_0, app_nil_r.
  - destruct (lookup_lt_is_Some_2 rs i) as [res Hres]; [lia|].
    rewrite Hres. rewrite (take_S_r _ _ _ Hres) in Hok |- *.
    apply Forall_app in Hok as [Hok [Hres_ok _]%Forall_cons].
    destruct Hres_ok as (s & Hs & Hassert).
    rewrite reverse_snoc, filter_cons. simpl.
    unfold deref, get_iter, Assert, panic. munfold. rewrite Hs. simpl.
    assert (negb (has (creates (iter w)) (st_URN s)) || st_Delete s = true) as ->.
    { destruct Hassert as [-> | ->]; [done|]. apply orb_true_r. }
    assert (Henq : enqueued (iter w) (heap w) res
                   = st_Delete s
                     || negb (has (sames (iter w)) (st_URN s))
                        && negb (has (updates (iter w)) (st_URN s))
                     || has (replaces (iter w)) (st_URN s))
      by (unfold enqueued; by rewrite Hs).
    rewrite <-Henq. destruct (enqueued (iter w) (heap w) res) eqn:Hc.
    + rewrite decide_True by done. rewrite IH by (done || lia).
      by rewrite <-app_assoc.
    + rewrite decide_False by done. by rewrite IH by (done || lia).
Qed.

Lemma computeDeletes_eq w :
  Forall (delete_assertion (iter w) (heap w)) (prior (iter w)) →
  computeDeletes w
  = Ok (filter (λ res, enqueued (iter w) (heap w) res = true) (reverse (prior (iter w)))) w.
Proof.
  unfold computeDeletes, prior, get_iter. munfold.
  destruct (prev (p (iter w))) as [pv|]; [|done].
  intros H. rewrite computeDeletes_from_eq; [|done|by rewrite firstn_all].
  by rewrite firstn_all.
Qed.

Lemma Next_loop_drain_step env fuel w d q s :
  done (iter w) = false → stepqueue (iter w) = [] → srcdone (iter w) = true →
  delqueue (iter w) = d :: q → heap w !! d = Some s →
  Next_loop env (S fuel) w
  = Ok (delete_step (iter w) (heap w) d)
       (with_iter w (set_deletes (<[st_URN s := true]> (deletes (iter w)))
                       (set_delqueue q (iter w)))).
Proof.
  intros Hd Hq Hs Hdq Hlive. simpl.
  unfold nextDeleteStep, deref, get_iter, set_iter, delete_step, with_iter. munfold.
  rewrite Hd, Hq, Hs. simpl. rewrite Hdq. simpl. rewrite Hlive. simpl. done.
Qed.

Lemma Next_loop_drain_end env fuel w :
  done (iter w) = false → stepqueue (iter w) = [] → srcdone (iter w) = true →
  delqueue (iter w) = [] →
  Next_loop env (S fuel) w = Ok (None, None) (with_iter w (set_done true (iter w))).
Proof.
  intros Hd Hq Hs Hdq. simpl.
  unfold nextDeleteStep, get_iter, set_iter, with_iter. munfold.
  rewrite Hd, Hq, Hs. simpl. rewrite Hdq. done.
Qed.

Lemma Next_unfold env w : Next env w = Next_loop env (S (S (S (size (regs (iter w)))))) w.
Proof. unfold Next, Next_fuel. by rewrite Nat.add_comm. Qed.

Lemma NextN_drain env q : ∀ w,
  done (iter w) = false → stepqueue (iter w) = [] → srcdone (iter w) = true →
  delqueue (iter w) = q → Forall (λ d, is_Some (heap w !! d)) q →
  ∃ w', NextN env (length q) w = Ok (map (delete_step (iter w) (heap w)) q) w'
        ∧ done (iter w') = false ∧ stepqueue (iter w') = []
        ∧ srcdone (iter w') = true ∧ delqueue (iter w') = [].
Proof.
  induction q as [|d q IH]; intros w Hd Hq Hs Hdq Hlive.
  - exists w. done.
  - apply Forall_cons in Hlive as [[s Hlive] Hq_live]. simpl.
    rewrite (bind_Ok _ _ _ _ _ (eq_trans (Next_unfold env w)
               (Next_loop_drain_step env _ w d q s Hd Hq Hs Hdq Hlive))).
    destruct (IH (with_iter w (set_deletes (<[st_URN s := true]> (deletes (iter w)))
                                 (set_delqueue q (iter w)))))
      as (w' & HN & H'); [done..|].
    exists w'. split; [|done].
    erewrite bind_Ok by exact HN. done.
Qed.

Lemma Next_loop_source_end env fuel w :
  done (iter w) = false → stepqueue (iter w) = [] → srcdone (iter w) = false →
  src_Next env (srcpos w) = (None, None) →
  Forall (delete_assertion (iter w) (heap w)) (prior (iter w)) →
  Next_loop env (S fuel) w
  = Next_loop env fuel
      (mkWorld
         (set_delqueue
            (filter (λ res, enqueued (iter w) (heap w) res = true) (reverse (prior (iter w))))
            (set_srcdone true (iter w)))
         (heap w) (S (srcpos w)) (trace w ++ [CSrcNext (None, None)])).
Proof.
  intros Hd Hq Hs Hsrc Hok. simpl.
  unfold call_src_Next, get_iter, set_iter. munfold.
  rewrite Hd, Hq, Hs. simpl. rewrite Hsrc.
  rewrite computeDeletes_eq by done. done.
Qed.

Lemma enqueued_live it h res : enqueued it h res = true → is_Some (h !! res).
Proof. unfold enqueued. by destruct (h !! res). Qed.

(** C3.  [computeDeletes] returns the resources of the previous snapshot
    that are delete-marked, or whose URN is in neither [sames] nor
    [updates], or whose URN is in [replaces], and no others, in the
    reverse of the order of the previous snapshot.  When the source ends,
    the calls of [Next] return one [Delete] step for each of them, in that
    order, and then no step. *)
Theorem computeDeletes_reverse_order env w :
  Forall (delete_assertion (iter w) (heap w)) (prior (iter w)) →
  let dels :=
    filter (λ res, enqueued (iter w) (heap w) res = true) (reverse (prior (iter w))) in
  computeDeletes w = Ok dels w
  ∧ (∀ res, res ∈ dels ↔
       res ∈ prior (iter w)
       ∧ ∃ s, heap w !! res = Some s
           ∧ (st_Delete s = true
              ∨ (has (sames (iter w)) (st_URN s) = false
                 ∧ has (updates (iter w)) (st_URN s) = false)
              ∨ has (replaces (iter w)) (st_URN s) = true))
  ∧ (done (iter w) = false → stepqueue (iter w) = [] → srcdone (iter w) = false →
     src_Next env (srcpos w) = (None, None) →
     ∃ w', NextN env (length dels) w = Ok (map (delete_step (iter w) (heap w)) dels) w'
           ∧ ∃ w'', Next env w' = Ok (None, None) w'' ∧ done (iter w'') = true).
Proof.
  intros Hok dels. split; [by apply computeDeletes_eq|]. split.
  - intros res. unfold dels. rewrite list_elem_of_filter, elem_of_reverse.
    unfold enqueued. split.
    + intros [Henq Hin]. split; [done|]. destruct (heap w !! res) as [s|]; [|done].
      exists s. split; [done|].
      apply orb_true_iff in Henq as [[H|H]%orb_true_iff|H]; [by left| |by right; right].
      right; left. apply andb_true_iff in H as [H1 H2].
      by destruct (has (sames _) _), (has (updates _) _).
    + intros [Hin (s & -> & H)]. split; [|done].
      destruct H as [->|[[-> ->]| ->]]; [done|by rewrite orb_true_r|by rewrite orb_true_r].
  - intros Hd Hq Hs Hsrc.
    set (w1 := mkWorld (set_delqueue dels (set_srcdone true (iter w)))
                 (heap w) (S (srcpos w)) (trace w ++ [CSrcNext (None, None)])).
    assert (Hlive : Forall (λ d, is_Some (heap w !! d)) dels).
    { apply Forall_forall. intros d [Hd' _]%list_elem_of_filter. by eapply enqueued_live. }
    destruct dels as [|d q] eqn:Hdels.
    + exists w. split; [done|]. exists (with_iter w1 (set_done true (iter w1))).
      split; [|done]. rewrite Next_unfold, Next_loop_source_end by done.
      fold dels. rewrite Hdels. by apply Next_loop_drain_end.
    + pose proof Hlive as [[s Hsd] Hq_live]%Forall_cons.
      set (w2 := with_iter w1 (set_deletes (<[st_URN s := true]> (deletes (iter w1)))
                                 (set_delqueue q (iter w1)))).
      destruct (NextN_drain env q w2) as (w' & HN & Hd' & Hq' & Hs' & Hdq'); [done..|].
      exists w'. split.
      * simpl. erewrite bind_Ok; last first.
        { rewrite Next_unfold, Next_loop_source_end by done. fold dels. rewrite Hdels.
          by eapply (Next_loop_drain_step env _ w1 d q s). }
        erewrite bind_Ok by exact HN. done.
      * exists (with_iter w' (set_done true (iter w'))). split; [|done].
        rewrite Next_unfold. by apply Next_loop_drain_end.
Qed.


(** ** [makeRegisterResouceSteps] *)

Lemma lookup_alloc (h : Heap) (s : State) : (h ++ [s]) !! length h = Some s.
Proof. by apply list_lookup_middle. Qed.

Lemma insert_alloc (h : Heap) (s s' : State) : <[length h := s']> (h ++ [s]) = h ++ [s'].
Proof. rewrite insert_app_r_alt, Nat.sub_diag by lia. done. Qed.

Lemma lookup_alloc_old (h : Heap) (s so : State) a :
  h !! a = Some so → (h ++ [s]) !! a = Some so.
Proof. apply lookup_app_l_Some. Qed.

Lemma forEach_diag {A} (f : A → Diagnostic) l w :
  forEach l (λ x, diag (f x)) w = Ok tt (add_trace w (map (λ x, CDiag (f x)) l)).
Proof.
  revert w. induction l as [|x l IH]; intros w; simpl.
  - unfold add_trace. munfold. rewrite app_nil_r. by destruct w.
  - erewrite bind_Ok by reflexivity. rewrite IH. unfold add_trace. simpl.
    by rewrite <-app_assoc.
Qed.

(** The calls the analyzers loop makes when every analyzer is loaded and
    answers without error. *)
Lemma analyzeAll_pass env names new urn inputs s : ∀ w invalid,
  heap w !! new = Some s →
  Forall (λ a, ∃ an, Host_Analyzer env a = (Some an, None)
                     ∧ Analyze env an (st_Type s) inputs = ([], None)) names →
  ∃ tr, analyzeAll env names new urn inputs invalid w = Ok (inr invalid) (add_trace w tr)
        ∧ Forall (λ c, is_src_call c = false) tr.
Proof.
  induction names as [|a names IH]; intros w invalid Hs Hall.
  - exists []. simpl. unfold add_trace. munfold. rewrite app_nil_r. by destruct w.
  - apply Forall_cons in Hall as [(an & Han & Hanalyze) Hall]. simpl.
    unfold log, deref. munfold. simpl. rewrite Han. simpl. rewrite Hs. simpl.
    rewrite Hanalyze. simpl.
    edestruct (IH (mkWorld (iter w) (heap w) (srcpos w)
                     ((trace w ++ [CHostAnalyzer a]) ++ [CAnalyze an (st_Type s) inputs]))
                  invalid) as (tr & -> & Htr); [done..|].
    exists (CHostAnalyzer a :: CAnalyze an (st_Type s) inputs :: tr).
    split; [|by repeat constructor].
    unfold add_trace. simpl. by rewrite <-!app_assoc.
Qed.

Section Registration.

Variable env : Env.
Variable w : World.
Variable e : RegisterResourceEvent.

Let res := reg_Goal e.
Let urn := reg_urn env w e.
Let new := length (heap w).
Let news := g_Properties res.
Let inputs := checked_inputs env w e.

(** The world once validation has passed: the URN is recorded, the new
    state allocated with the checked inputs. *)
Let validated (tr : list Call) : World :=
  mkWorld (set_urns (<[urn := true]> (urns (iter w))) (iter w))
          (heap w ++ [NewState (g_Type res) urn (g_Custom res) false "" inputs ∅
                        (g_Parent res)])
          (srcpos w) (trace w ++ tr).

Lemma old_state_Some old :
  old_well_formed env w e → Olds (p (iter w)) !! urn = Some old →
  ∃ so, heap w !! old = Some so ∧ st_Type so = g_Type res
        ∧ old_state env w e = Some (old, so).
Proof.
  intros Hwf Hold. destruct (Hwf old Hold) as (so & Hso & Hty).
  exists so. repeat split; [done..|]. unfold old_state. fold urn. rewrite Hold. simpl.
  by rewrite Hso.
Qed.

Lemma old_state_None :
  Olds (p (iter w)) !! urn = None → old_state env w e = None.
Proof. intros H. unfold old_state. fold urn. by rewrite H. Qed.

End Registration.

Ltac run_analyzers Han :=
  match goal with
  | |- context [analyzeAll ?env ?n ?nw ?u ?i ?inv (mkWorld ?it (?h ++ [?s]) ?sp ?tr0)] =>
    let tr := fresh "tr" in let Htr := fresh "Htr" in let Hq := fresh "Hquiet" in
    destruct (analyzeAll_pass env n nw u i s (mkWorld it (h ++ [s]) sp tr0) inv)
      as (tr & Htr & Hq);
    [apply lookup_alloc | exact Han | rewrite Htr; clear Htr]
  end.

Ltac unfold_registration :=
  unfold makeRegisterResouceSteps, Provider, issueCheckErrors;
  unfold Assert, update, deref, alloc, log, set_heap, set_iter, get_heap, get_iter, panic;
  unfold orReturn; munfold; simpl.

Lemma logical_never_replaces env w e :
  g_Custom (reg_Goal e) = false → ∀ old keys, decision env w e ≠ DecReplace old keys.
Proof.
  intros Hcustom old keys. unfold decision, provider_diff, resolved_provider.
  rewrite Hcustom. destruct (old_state env w e) as [[old' so]|]; [|done].
  destruct (DeepEquals _ _ _); done.
Qed.


(** *** Check failures in the first and in the second pass *)

Lemma forEach_check_diag (t : string) (urn : string) (inputs : PropertyMap) failures w :
  forEach failures (λ failure,
    if decide (cf_Property failure ≠ "") then
      diag (ErrorResourcePropertyInvalidValue t urn (cf_Property failure)
              (inputs !! cf_Property failure) (cf_Reason failure))
    else diag (ErrorResourceInvalid t urn (cf_Reason failure))) w
  = Ok tt (add_trace w (map (λ failure, CDiag
      (if decide (cf_Property failure ≠ "") then
         ErrorResourcePropertyInvalidValue t urn (cf_Property failure)
           (inputs !! cf_Property failure) (cf_Reason failure)
       else ErrorResourceInvalid t urn (cf_Reason failure))) failures)).
Proof.
  rewrite <-(forEach_diag (λ failure,
      if decide (cf_Property failure ≠ "") then
         ErrorResourcePropertyInvalidValue t urn (cf_Property failure)
           (inputs !! cf_Property failure) (cf_Reason failure)
       else ErrorResourceInvalid t urn (cf_Reason failure))).
  revert w. induction failures as [|f failures IH]; intros w; [done|]. simpl.
  case_decide; unfold mbind, M_bind; destruct (diag _ w); try done; apply IH.
Qed.

(** Whatever the analyzers answer, the loop returns; it begins with the
    lookup of the first analyzer, it never clears the [invalid] flag, and
    it touches neither the iterator nor the heap. *)
Lemma analyzeAll_total env names new urn inputs s : ∀ w invalid,
  heap w !! new = Some s →
  ∃ r tr, analyzeAll env names new urn inputs invalid w = Ok r (add_trace w tr)
          ∧ (invalid = true → r ≠ inr false)
          ∧ (∀ a rest, names = a :: rest → CHostAnalyzer a ∈ tr).
Proof.
  induction names as [|a names IH]; intros w invalid Hs.
  - exists (inr invalid), []. simpl. unfold add_trace. munfold. rewrite app_nil_r.
    split; [by destruct w|]. split; [by intros ->|done].
  - assert (Hhead : ∀ tr a' rest,
              a :: names = a' :: rest → CHostAnalyzer a' ∈ CHostAnalyzer a :: tr).
    { intros tr a' rest [= <- _]. left. }
    simpl. unfold log, deref. munfold. simpl.
    destruct (Host_Analyzer env a) as [[an|] [err|]]; simpl.
    + exists (inl err), [CHostAnalyzer a]. split; [done|]. split; [done|apply Hhead].
    + rewrite Hs. simpl.
      destruct (Analyze env an (st_Type s) inputs) as [failures [err|]].
      * exists (inl err), [CHostAnalyzer a; CAnalyze an (st_Type s) inputs].
        unfold add_trace. simpl. rewrite <-app_assoc.
        split; [done|]. split; [done|apply Hhead].
      * rewrite forEach_diag. unfold add_trace at 1. simpl.
        match goal with |- context [analyzeAll env names new urn inputs ?inv ?w0] =>
          destruct (IH w0 inv) as (r & tr & Hr & Hinv & _); [done|]; rewrite Hr end.
        exists r, (CHostAnalyzer a :: CAnalyze an (st_Type s) inputs
                     :: map (λ failure, CDiag (ErrorAnalyzeResourceFailure a urn
                               (af_Property failure) (af_Reason failure))) failures
                     ++ tr).
        split; [|split; [|apply Hhead]].
        { unfold add_trace. simpl. f_equal. f_equal.
          by rewrite <-!app_assoc. }
        intros ->. apply Hinv. by destruct failures.
    + exists (inl err), [CHostAnalyzer a]. split; [done|]. split; [done|apply Hhead].
    + eexists (inl _), [CHostAnalyzer a]. split; [done|]. split; [done|apply Hhead].
Qed.

(** When every analyzer is loaded and answers without error (with
    failures or not), the loop calls each of them on the inputs. *)
Lemma analyzeAll_runs env names new urn inputs s : ∀ w invalid,
  heap w !! new = Some s →
  Forall (λ a, ∃ an failures, Host_Analyzer env a = (Some an, None)
                 ∧ Analyze env an (st_Type s) inputs = (failures, None)) names →
  ∃ invalid' tr,
    analyzeAll env names new urn inputs invalid w = Ok (inr invalid') (add_trace w tr)
    ∧ (invalid = true → invalid' = true)
    ∧ (∀ a, a ∈ names →
         ∃ an, Host_Analyzer env a = (Some an, None)
               ∧ CAnalyze an (st_Type s) inputs ∈ tr).
Proof.
  induction names as [|a names IH]; intros w invalid Hs Hall.
  - exists invalid, []. simpl. unfold add_trace. munfold. rewrite app_nil_r.
    split; [by destruct w|]. split; [done|]. by intros a Ha%elem_of_nil.
  - apply Forall_cons in Hall as [(an & failures & Han & Hanalyze) Hall].
    simpl. unfold log, deref. munfold. simpl. rewrite Han. simpl. rewrite Hs. simpl.
    rewrite Hanalyze. rewrite forEach_diag. unfold add_trace at 1. simpl.
    match goal with |- context [analyzeAll env names new urn inputs ?inv ?w0] =>
      destruct (IH w0 inv) as (invalid' & tr & Hr & Hinv & Hcalls); [done..|];
      rewrite Hr end.
    exists invalid', (CHostAnalyzer a :: CAnalyze an (st_Type s) inputs
                        :: map (λ failure, CDiag (ErrorAnalyzeResourceFailure a urn
                                  (af_Property failure) (af_Reason failure))) failures
                        ++ tr).
    split; [|split].
    + unfold add_trace. simpl. f_equal. f_equal. by rewrite <-!app_assoc.
    + intros ->. apply Hinv. by destruct failures.
    + intros a' [->|Ha']%elem_of_cons.
      * exists an. split; [done|]. right; left.
      * destruct (Hcalls a' Ha') as (an' & ? & ?). exists an'. split; [done|].
        do 2 right. apply elem_of_app. by right.
Qed.

Lemma has_insert_eq (m : gmap URN bool) u : has (<[u := true]> m) u = true.
Proof. unfold has. by rewrite lookup_insert_eq. Qed.

Lemma old_inputs_live env w e old so :
  Olds (p (iter w)) !! reg_urn env w e = Some old → heap w !! old = Some so →
  old_state env w e = Some (old, so) ∧ old_inputs env w e = Some (st_Inputs so).
Proof.
  intros Hold Hso. unfold old_inputs, old_state. rewrite Hold. simpl. by rewrite Hso.
Qed.

Lemma old_inputs_None env w e :
  Olds (p (iter w)) !! reg_urn env w e = None → old_inputs env w e = None.
Proof. intros H. unfold old_inputs, old_state. by rewrite H. Qed.

Lemma issueCheckErrors_failures env new urn failures w s :
  heap w !! new = Some s → failures ≠ [] →
  issueCheckErrors env new urn failures w
  = Ok true (add_trace w (map (λ failure, CDiag
      (if decide (cf_Property failure ≠ "") then
         ErrorResourcePropertyInvalidValue (st_Type s) (URN_Name env urn)
           (cf_Property failure) (st_Inputs s !! cf_Property failure) (cf_Reason failure)
       else ErrorResourceInvalid (st_Type s) (URN_Name env urn) (cf_Reason failure)))
      failures)).
Proof.
  intros Hs Hne. unfold issueCheckErrors. destruct failures as [|f fs]; [done|].
  unfold deref. unfold mbind at 1 2, M_bind. rewrite Hs.
  by rewrite forEach_check_diag.
Qed.

Lemma issueCheckErrors_nil env new urn w : issueCheckErrors env new urn [] w = Ok false w.
Proof. done. Qed.

Ltac unfold_registration' :=
  unfold makeRegisterResouceSteps, Provider;
  unfold Assert, update, deref, alloc, log, set_heap, set_iter, get_heap, get_iter, panic;
  unfold orReturn; munfold; simpl.

(** Failures of the first check: the analyzers run all the same, and the
    registration ends in an error without being classified. *)
Lemma first_check_failures_not_fatal env w e pv inputs failures :
  g_Custom (reg_Goal e) = true →
  Host_Provider env (Type_Package env (g_Type (reg_Goal e))) = (Some pv, None) →
  (∀ old, Olds (p (iter w)) !! reg_urn env w e = Some old → is_Some (heap w !! old)) →
  Check env pv (reg_urn env w e) (old_inputs env w e) (g_Properties (reg_Goal e))
    = (inputs, failures, None) →
  failures ≠ [] →
  ∃ err w' tr,
    makeRegisterResouceSteps env e w = Ok ([], Some err) w'
    ∧ trace w' = trace w ++ tr
    ∧ CCheck pv (reg_urn env w e) (old_inputs env w e) (g_Properties (reg_Goal e)) ∈ tr
    ∧ creates (iter w') = creates (iter w) ∧ updates (iter w') = updates (iter w)
    ∧ sames (iter w') = sames (iter w) ∧ replaces (iter w') = replaces (iter w)
    ∧ (∀ a rest, analyzers (p (iter w)) = a :: rest → CHostAnalyzer a ∈ tr)
    ∧ (Forall (λ a, ∃ an fs, Host_Analyzer env a = (Some an, None)
                      ∧ Analyze env an (g_Type (reg_Goal e)) inputs = (fs, None))
              (analyzers (p (iter w))) →
       err = validationError
       ∧ ∀ a, a ∈ analyzers (p (iter w)) →
           ∃ an, Host_Analyzer env a = (Some an, None)
                 ∧ CAnalyze an (g_Type (reg_Goal e)) inputs ∈ tr).
Proof.
  intros Hcustom Hpv Hlive Hcheck Hne.
  set (s1 := with_Inputs
               (NewState (g_Type (reg_Goal e)) (reg_urn env w e) true false ""
                  (g_Properties (reg_Goal e)) ∅ (g_Parent (reg_Goal e))) inputs).
  assert (Htail : ∀ it t0 (inv0 : bool),
    let w0 := mkWorld it (heap w ++ [s1]) (srcpos w) (trace w ++ t0) in
    creates it = creates (iter w) → updates it = updates (iter w) →
    sames it = sames (iter w) → replaces it = replaces (iter w) →
    CCheck pv (reg_urn env w e) (old_inputs env w e) (g_Properties (reg_Goal e)) ∈ t0 →
    ∃ r tr0,
      analyzeAll env (analyzers (p (iter w))) (length (heap w)) (reg_urn env w e) inputs
        true w0 = Ok r (add_trace w0 tr0)
      ∧ ∃ err, match r with
               | inl e0 => err = e0
               | inr true => err = validationError
               | inr false => False
               end
        ∧ CCheck pv (reg_urn env w e) (old_inputs env w e)
            (g_Properties (reg_Goal e)) ∈ t0 ++ tr0
        ∧ (∀ a rest, analyzers (p (iter w)) = a :: rest → CHostAnalyzer a ∈ t0 ++ tr0)
        ∧ (Forall (λ a, ∃ an fs, Host_Analyzer env a = (Some an, None)
                          ∧ Analyze env an (g_Type (reg_Goal e)) inputs = (fs, None))
                  (analyzers (p (iter w))) →
           err = validationError
           ∧ ∀ a, a ∈ analyzers (p (iter w)) →
               ∃ an, Host_Analyzer env a = (Some an, None)
                     ∧ CAnalyze an (g_Type (reg_Goal e)) inputs ∈ t0 ++ tr0)).
  { intros it t0 inv0 w0 _ _ _ _ Hin.
    destruct (analyzeAll_total env (analyzers (p (iter w))) (length (heap w))
                (reg_urn env w e) inputs s1 w0 true) as (r & tr0 & Hr & Hinv & Hfirst);
      [apply lookup_alloc|].
    exists r, tr0. split; [done|].
    assert (∃ err, match r with
                   | inl e0 => err = e0
                   | inr true => err = validationError
                   | inr false => False
                   end) as [err Herr].
    { destruct r as [e0|[|]]; [by eexists..|]. by destruct Hinv. }
    exists err. split; [done|]. split; [apply elem_of_app; by left|]. split.
    { intros a rest Ha. apply elem_of_app. right. by eapply Hfirst. }
    intros Hruns.
    destruct (analyzeAll_runs env (analyzers (p (iter w))) (length (heap w))
                (reg_urn env w e) inputs s1 w0 true) as (inv' & tr1 & Hr1 & Hinv1 & Hcalls);
      [apply lookup_alloc|exact Hruns|].
    rewrite Hr in Hr1. injection Hr1 as -> Htr.
    apply app_inv_head in Htr as ->. rewrite (Hinv1 eq_refl) in Herr.
    split; [done|]. intros a Ha. destruct (Hcalls a Ha) as (an & ? & ?).
    exists an. split; [done|]. apply elem_of_app. by right. }
  unfold_registration'. fold (reg_urn env w e). rewrite Hcustom.
  destruct (Olds (p (iter w)) !! reg_urn env w e) as [old|] eqn:Hold.
  - destruct (Hlive old eq_refl) as [so Hso].
    destruct (old_inputs_live env w e old so Hold Hso) as [_ Hoi].
    rewrite Hoi in Hcheck, Htail. rewrite Hoi.
    destruct (has (urns (iter w)) (reg_urn env w e)); simpl;
      rewrite (lookup_alloc_old _ _ _ _ Hso); simpl; rewrite Hpv; simpl;
      rewrite lookup_alloc; simpl; rewrite Hcheck; simpl;
      erewrite issueCheckErrors_failures by (apply lookup_alloc || done); simpl;
      rewrite lookup_alloc; simpl; rewrite insert_alloc; fold s1;
      rewrite ?orb_true_r; rewrite <-!app_assoc;
      (match goal with |- context [analyzeAll _ _ _ _ _ _ (mkWorld ?it _ _ (_ ++ ?t0))] =>
         destruct (Htail it t0 true) as (r & tr0 & -> & err & Herr & Hin & H1 & H2);
           [done|done|done|done|set_solver|];
         exists err; eexists; exists (t0 ++ tr0)
       end);
      (split; [destruct r as [e0|[|]]; simpl; [subst err; reflexivity
                                             |subst err; reflexivity|done]|]);
      (split; [simpl; by rewrite <-app_assoc|]);
      (split; [exact Hin|]); do 4 (split; [reflexivity|]);
      (split; [exact H1|exact H2]).
  - rewrite (old_inputs_None env w e Hold) in Hcheck, Htail.
    rewrite (old_inputs_None env w e Hold).
    destruct (has (urns (iter w)) (reg_urn env w e)); simpl;
      rewrite Hpv; simpl;
      rewrite lookup_alloc; simpl; rewrite Hcheck; simpl;
      erewrite issueCheckErrors_failures by (apply lookup_alloc || done); simpl;
      rewrite lookup_alloc; simpl; rewrite insert_alloc; fold s1;
      rewrite ?orb_true_r; rewrite <-!app_assoc;
      (match goal with |- context [analyzeAll _ _ _ _ _ _ (mkWorld ?it _ _ (_ ++ ?t0))] =>
         destruct (Htail it t0 true) as (r & tr0 & -> & err & Herr & Hin & H1 & H2);
           [done|done|done|done|set_solver|];
         exists err; eexists; exists (t0 ++ tr0)
       end);
      (split; [destruct r as [e0|[|]]; simpl; [subst err; reflexivity
                                             |subst err; reflexivity|done]|]);
      (split; [simpl; by rewrite <-app_assoc|]);
      (split; [exact Hin|]); do 4 (split; [reflexivity|]);
      (split; [exact H1|exact H2]).
Qed.

Lemma old_state_inv env w e old so :
  old_state env w e = Some (old, so) →
  Olds (p (iter w)) !! reg_urn env w e = Some old ∧ heap w !! old = Some so.
Proof.
  unfold old_state. destruct (Olds (p (iter w)) !! reg_urn env w e) as [old'|]; [|done].
  simpl. destruct (heap w !! old') as [so'|] eqn:Hso; [|done]. simpl.
  by intros [= <- <-].
Qed.

(** Failures (or an error) of the check that a replacement re-runs: the
    registration returns at once, after the diagnostics of the failures. *)
Lemma second_check_failures_fatal env w e pv old so diff inputs2 failures2 err2 :
  passes_validation env w e → old_well_formed env w e →
  old_state env w e = Some (old, so) →
  resolved_provider env e = Some pv →
  DeepEquals env (st_Inputs so) (checked_inputs env w e) = false →
  provider_diff env w e so = (diff, None) → Replace diff = true →
  Check env pv (reg_urn env w e) None (g_Properties (reg_Goal e))
    = (inputs2, failures2, err2) →
  failures2 ≠ [] ∨ err2 ≠ None →
  ∃ err w' t1 ds,
    makeRegisterResouceSteps env e w = Ok ([], Some err) w'
    ∧ err = match err2 with Some e2 => e2 | None => validationError end
    ∧ trace w' = trace w ++ t1
                 ++ CCheck pv (reg_urn env w e) None (g_Properties (reg_Goal e))
                    :: map CDiag ds
    ∧ replaces (iter w') = <[reg_urn env w e := true]> (replaces (iter w))
    ∧ creates (iter w') = creates (iter w) ∧ updates (iter w') = updates (iter w)
    ∧ sames (iter w') = sames (iter w).
Proof.
  intros (Hfresh & Hprov & Han) Hwf Hos Hrp Hde Hdiff Hrep Hcheck2 Hfail.
  destruct (old_state_inv env w e old so Hos) as [Hold Hso].
  destruct (old_inputs_live env w e old so Hold Hso) as [_ Hoi].
  destruct (Hwf old Hold) as (so' & Hso' & Hty).
  rewrite Hso in Hso'. injection Hso' as <-.
  destruct (g_Custom (reg_Goal e)) eqn:Hcustom; last first.
  { unfold resolved_provider in Hrp. by rewrite Hcustom in Hrp. }
  destruct (Hprov eq_refl) as (pv' & inputs & Hpv & Hcheck).
  assert (pv' = pv) as ->.
  { unfold resolved_provider in Hrp. rewrite Hcustom, Hpv in Hrp. by injection Hrp. }
  assert (Hinputs : checked_inputs env w e = inputs).
  { unfold checked_inputs. by rewrite Hrp, Hcheck. }
  rewrite Hinputs in Han, Hde. rewrite Hoi in Hcheck.
  unfold provider_diff in Hdiff. rewrite Hrp, Hinputs in Hdiff.
  unfold_registration'. fold (reg_urn env w e). rewrite Hfresh, Hcustom, Hold. simpl.
  rewrite (lookup_alloc_old _ _ _ _ Hso). simpl.
  rewrite Hpv. simpl. rewrite lookup_alloc. simpl. rewrite Hcheck. simpl.
  rewrite lookup_alloc. simpl. rewrite insert_alloc.
  run_analyzers Han. simpl.
  rewrite (lookup_alloc_old _ _ _ _ Hso). simpl. rewrite lookup_alloc. simpl.
  rewrite bool_decide_eq_true_2 by done. simpl.
  rewrite Hde. simpl. rewrite Hdiff. simpl. rewrite Hrep. simpl.
  rewrite Hcheck2.
  set (t1 := [CHostProvider (Type_Package env (g_Type (reg_Goal e)));
              CCheck pv (reg_urn env w e) (Some (st_Inputs so)) (g_Properties (reg_Goal e))]
             ++ tr ++ [CDiff pv (reg_urn env w e) (st_ID so) (st_Inputs so) inputs]).
  destruct err2 as [e2|].
  - eexists e2, _, t1, []. split; [reflexivity|]. split; [done|].
    split; [|done]. unfold t1, add_trace. simpl. by rewrite <-!app_assoc.
  - destruct Hfail as [Hne|Hne]; [|done]. simpl.
    erewrite issueCheckErrors_failures by (apply lookup_alloc || done). simpl.
    eexists validationError, _, t1, _. split; [reflexivity|]. split; [done|].
    split; [|done]. unfold t1, add_trace. simpl. rewrite <-!app_assoc. simpl.
    rewrite map_map. reflexivity.
Qed.

(** C4.  Failures of the first check (the one given the old inputs) are
    not fatal on the spot: the resource is flagged invalid, the analyzers
    still run, and only then the registration ends in an error, without
    steps and without classification.  When the provider's diff demands a
    replacement, the check is re-run with no old inputs on the event's
    own inputs, and a failure (or an error) of that second check makes the
    registration return an error at once: the diagnostics of the failures
    are the last thing it does. *)
Theorem check_failures_first_and_second_pass env w e pv :
  g_Custom (reg_Goal e) = true →
  Host_Provider env (Type_Package env (g_Type (reg_Goal e))) = (Some pv, None) →
  old_well_formed env w e →
  (∀ inputs failures,
     Check env pv (reg_urn env w e) (old_inputs env w e) (g_Properties (reg_Goal e))
       = (inputs, failures, None) →
     failures ≠ [] →
     ∃ err w' tr,
       makeRegisterResouceSteps env e w = Ok ([], Some err) w'
       ∧ trace w' = trace w ++ tr
       ∧ CCheck pv (reg_urn env w e) (old_inputs env w e) (g_Properties (reg_Goal e)) ∈ tr
       ∧ creates (iter w') = creates (iter w) ∧ updates (iter w') = updates (iter w)
       ∧ sames (iter w') = sames (iter w) ∧ replaces (iter w') = replaces (iter w)
       ∧ (∀ a rest, analyzers (p (iter w)) = a :: rest → CHostAnalyzer a ∈ tr)
       ∧ (Forall (λ a, ∃ an fs, Host_Analyzer env a = (Some an, None)
                         ∧ Analyze env an (g_Type (reg_Goal e)) inputs = (fs, None))
                 (analyzers (p (iter w))) →
          err = validationError
          ∧ ∀ a, a ∈ analyzers (p (iter w)) →
              ∃ an, Host_Analyzer env a = (Some an, None)
                    ∧ CAnalyze an (g_Type (reg_Goal e)) inputs ∈ tr))
  ∧ (∀ old so diff inputs2 failures2 err2,
       passes_validation env w e →
       old_state env w e = Some (old, so) →
       DeepEquals env (st_Inputs so) (checked_inputs env w e) = false →
       provider_diff env w e so = (diff, None) → Replace diff = true →
       Check env pv (reg_urn env w e) None (g_Properties (reg_Goal e))
         = (inputs2, failures2, err2) →
       failures2 ≠ [] ∨ err2 ≠ None →
       ∃ err w' t1 ds,
         makeRegisterResouceSteps env e w = Ok ([], Some err) w'
         ∧ err = match err2 with Some e2 => e2 | None => validationError end
         ∧ trace w' = trace w ++ t1
                      ++ CCheck pv (reg_urn env w e) None (g_Properties (reg_Goal e))
                         :: map CDiag ds
         ∧ replaces (iter w') = <[reg_urn env w e := true]> (replaces (iter w))
         ∧ creates (iter w') = creates (iter w) ∧ updates (iter w') = updates (iter w)
         ∧ sames (iter w') = sames (iter w)).
Proof.
  intros Hcustom Hpv Hwf. split.
  - intros inputs failures Hcheck Hne.
    eapply first_check_failures_not_fatal; try done.
    intros old Hold. destruct (Hwf old Hold) as (so & Hso & _). by exists so.
  - intros old so diff inputs2 failures2 err2 Hv Hos Hde Hdiff Hrep Hcheck2 Hfail.
    eapply second_check_failures_fatal; try done.
    unfold resolved_provider. by rewrite Hcustom, Hpv.
Qed.

(** *** The decision of a registration that passes validation *)

Lemma makeRegisterResouceSteps_decides env w e :
  passes_validation env w e → old_well_formed env w e →
  ∃ w', makeRegisterResouceSteps env e w
        = Ok (match decision_error env w e with
              | Some err => ([], Some err)
              | None => (decision_steps e (length (heap w)) (decision env w e), None)
              end) w'
        ∧ match diff_error env w e with
          | Some _ => unclassified env w e (iter w')
          | None => recorded env w e (decision env w e) (iter w')
          end.
Proof.
  intros (Hfresh & Hprov & Han) Hwf.
  unfold_registration'. fold (reg_urn env w e). rewrite Hfresh. simpl.
  unfold decision_error, diff_error, second_check.
  destruct (g_Custom (reg_Goal e)) eqn:Hcustom.
  - destruct (Hprov eq_refl) as (pv & inputs & Hpv & Hcheck).
    assert (Hrp : resolved_provider env e = Some pv).
    { unfold resolved_provider. by rewrite Hcustom, Hpv. }
    assert (Hinputs : checked_inputs env w e = inputs).
    { unfold checked_inputs. by rewrite Hrp, Hcheck. }
    rewrite Hinputs in Han.
    destruct (Olds (p (iter w)) !! reg_urn env w e) as [old|] eqn:Hold.
    + destruct (old_state_Some env w e old Hwf Hold) as (so & Hso & Hty & Hos).
      assert (Hoi : old_inputs env w e = Some (st_Inputs so)).
      { unfold old_inputs. by rewrite Hos. }
      simpl. rewrite (lookup_alloc_old _ _ _ _ Hso). simpl.
      rewrite Hpv. simpl. rewrite lookup_alloc. simpl.
      rewrite Hoi in Hcheck. rewrite Hcheck. simpl.
      rewrite lookup_alloc. simpl. rewrite insert_alloc.
      run_analyzers Han. simpl.
      rewrite (lookup_alloc_old _ _ _ _ Hso). simpl. rewrite lookup_alloc. simpl.
      rewrite bool_decide_eq_true_2 by done. simpl.
      unfold decision, provider_diff. rewrite Hos, Hinputs, Hrp. simpl.
      destruct (DeepEquals env (st_Inputs so) inputs) eqn:Hde; simpl.
      { eexists. split; [reflexivity|]. done. }
      destruct (Diff env pv _ _ _ _) as [diff [err|]]; simpl.
      { eexists. split; [reflexivity|]. done. }
      destruct (Replace diff) eqn:Hrep; simpl.
      * destruct (Check env pv (reg_urn env w e) None (g_Properties (reg_Goal e)))
          as [[inputs2 failures2] [err2|]]; simpl.
        { eexists. split; [reflexivity|]. done. }
        destruct failures2 as [|f fs].
        { simpl. rewrite lookup_alloc. simpl. rewrite insert_alloc.
          eexists. split; [reflexivity|]. done. }
        erewrite issueCheckErrors_failures by (apply lookup_alloc || done). simpl.
        eexists. split; [reflexivity|]. done.
      * eexists. split; [reflexivity|]. done.
    + rewrite Hpv. simpl. rewrite lookup_alloc. simpl.
      assert (Hoi : old_inputs env w e = None).
      { unfold old_inputs. by rewrite old_state_None. }
      rewrite Hoi in Hcheck. rewrite Hcheck. simpl.
      rewrite lookup_alloc. simpl. rewrite insert_alloc.
      run_analyzers Han. simpl.
      unfold decision. rewrite old_state_None by done. simpl.
      eexists. split; [reflexivity|]. done.
  - assert (Hrp : resolved_provider env e = None).
    { unfold resolved_provider. by rewrite Hcustom. }
    assert (Hinputs : checked_inputs env w e = g_Properties (reg_Goal e)).
    { unfold checked_inputs. by rewrite Hrp. }
    rewrite Hinputs in Han.
    destruct (Olds (p (iter w)) !! reg_urn env w e) as [old|] eqn:Hold.
    + destruct (old_state_Some env w e old Hwf Hold) as (so & Hso & Hty & Hos).
      simpl. rewrite (lookup_alloc_old _ _ _ _ Hso). simpl.
      rewrite lookup_alloc. simpl.
      run_analyzers Han. simpl.
      rewrite (lookup_alloc_old _ _ _ _ Hso). simpl. rewrite lookup_alloc. simpl.
      rewrite bool_decide_eq_true_2 by done. simpl.
      unfold decision, provider_diff. rewrite Hos, Hinputs, Hrp. simpl.
      destruct (DeepEquals env (st_Inputs so) _) eqn:Hde; simpl.
      * eexists. split; [reflexivity|]. done.
      * eexists. split; [reflexivity|]. done.
    + simpl. rewrite lookup_alloc. simpl.
      run_analyzers Han. simpl.
      unfold decision. rewrite old_state_None by done. simpl.
      eexists. split; [reflexivity|]. done.
Qed.

Lemma logical_decision_error env w e :
  g_Custom (reg_Goal e) = false → decision_error env w e = None.
Proof.
  intros Hcustom. unfold decision_error, diff_error, second_check, decision, provider_diff,
    resolved_provider.
  rewrite Hcustom. destruct (old_state env w e) as [[old so]|]; [|done].
  by destruct (DeepEquals _ _ _).
Qed.

(** C1 (as the code has it).  A registration that passes validation, and
    whose old state, if there is one, is live and of the type of the goal,
    always returns, and is classified by the decision tree: no old state
    for the URN, [[Create]] and the URN in [creates]; an old state whose
    inputs [DeepEquals] the checked inputs, [[Same]] and the URN in
    [sames]; different inputs and a provider diff that says replace, the
    URN in [replaces] and [[CreateReplacement; Replace]]; otherwise
    [[Update]] and the URN in [updates].  The provider calls of the
    decision itself can still end it in an error and no step: when the
    diff answers with an error, that error is returned and nothing is
    classified; when the diff says replace and the check that is re-run
    without the old inputs answers with an error or reports failures,
    that error, or the validation error, is returned, and the URN stays in
    [replaces].  A logical resource meets neither error and is never
    replaced. *)
Theorem makeRegisterResouceSteps_decision env w e :
  passes_validation env w e → old_well_formed env w e →
  (∃ r w',
     makeRegisterResouceSteps env e w = Ok r w'
     ∧ r = match decision_error env w e with
           | Some err => ([], Some err)
           | None => (decision_steps e (length (heap w)) (decision env w e), None)
           end
     ∧ match diff_error env w e with
       | Some _ => unclassified env w e (iter w')
       | None => recorded env w e (decision env w e) (iter w')
       end)
  ∧ (g_Custom (reg_Goal e) = false →
     decision_error env w e = None
     ∧ ∀ old keys, decision env w e ≠ DecReplace old keys).
Proof.
  intros Hv Hwf. split.
  - destruct (makeRegisterResouceSteps_decides env w e Hv Hwf) as (w' & Hrun & Hrec).
    by eexists _, w'.
  - intros Hcustom. split; [by apply logical_decision_error|by apply logical_never_replaces].
Qed.

Lemma makeRegisterResouceSteps_decision_witness :
  decision ex_env_replace (ex_world_a None) ex_reg_a_zone = DecReplace 0 ["zone"]
  ∧ ∃ w', makeRegisterResouceSteps ex_env_replace ex_reg_a_zone (ex_world_a None)
          = Ok ([NewCreateReplacementStep ex_reg_a_zone 0 1 ["zone"];
                 NewReplaceStep 0 1 ["zone"]], None) w'
          ∧ recorded ex_env_replace (ex_world_a None) ex_reg_a_zone
              (DecReplace 0 ["zone"]) (iter w').
Proof.
  split; [vm_compute; reflexivity|].
  destruct (makeRegisterResouceSteps_decision ex_env_replace (ex_world_a None)
              ex_reg_a_zone) as [(r & w' & Hrun & Hr & Hrec) _].
  - split; [vm_compute; reflexivity|]. split.
    + intros _. eexists _, _. split; reflexivity.
    + repeat constructor. eexists. split; reflexivity.
  - intros old Hold.
    change (Olds (p (iter (ex_world_a None)))) with ({[ex_urn "a" := 0]} : gmap URN ptr)
      in Hold.
    apply lookup_singleton_Some in Hold as [_ <-].
    eexists. split; reflexivity.
  - exists w'. split; [rewrite Hrun, Hr; vm_compute; reflexivity|exact Hrec].
Defined.

(** C1, as stated, fails: the registration passes validation, its inputs
    differ from the old ones and the provider's diff says replace; the
    check that is re-run without the old inputs reports a failure, and the
    registration returns the validation error and no step, with the URN
    left in [replaces]. *)
Lemma makeRegisterResouceSteps_replacement_rejected :
  passes_validation ex_env_needs_olds (ex_world_a None) ex_reg_a_zone
  ∧ old_well_formed ex_env_needs_olds (ex_world_a None) ex_reg_a_zone
  ∧ decision ex_env_needs_olds (ex_world_a None) ex_reg_a_zone = DecReplace 0 ["zone"]
  ∧ ∃ w', makeRegisterResouceSteps ex_env_needs_olds ex_reg_a_zone (ex_world_a None)
          = Ok ([], Some validationError) w'
          ∧ has (replaces (iter w')) (ex_urn "a") = true.
Proof.
  split; [|split; [|split]].
  - split; [vm_compute; reflexivity|]. split.
    + intros _. eexists _, _. split; reflexivity.
    + repeat constructor. eexists. split; reflexivity.
  - intros old Hold.
    change (Olds (p (iter (ex_world_a None)))) with ({[ex_urn "a" := 0]} : gmap URN ptr)
      in Hold.
    apply lookup_singleton_Some in Hold as [_ <-].
    eexists. split; reflexivity.
  - vm_compute. reflexivity.
  - eexists. split; [vm_compute; reflexivity|]. vm_compute. reflexivity.
Qed.


(** ** The snapshot as a topological sort *)

(** The element at an index of a filtered list sits in the original list
    behind a prefix whose filtered image is the part before the index. *)
Lemma filter_lookup_inv {A} (P : A → Prop) `{∀ x, Decision (P x)} (l : list A) k c :
  filter P l !! k = Some c →
  ∃ i, l !! i = Some c ∧ P c ∧ length (filter P (take i l)) = k.
Proof.
  revert k. induction l as [|x l IH]; intros k; [done|].
  rewrite filter_cons. case_decide as HP.
  - destruct k as [|k]; simpl.
    + intros [= ->]. exists 0. done.
    + intros (i & Hi & Hc & Hlen)%IH. exists (S i). simpl.
      rewrite filter_cons, decide_True by done. simpl. by rewrite Hlen.
  - intros (i & Hi & Hc & Hlen)%IH. exists (S i). simpl.
    rewrite filter_cons, decide_False by done. done.
Qed.

Lemma filter_take_lookup {A} (P : A → Prop) `{∀ x, Decision (P x)} (l : list A) i j b :
  l !! j = Some b → P b → j < i →
  ∃ k, k < length (filter P (take i l)) ∧ filter P l !! k = Some b.
Proof.
  intros Hj Hb Hlt.
  assert (Hin : b ∈ filter P (take i l)).
  { apply list_elem_of_filter. split; [done|].
    apply list_elem_of_lookup. exists j. by rewrite lookup_take_lt. }
  apply list_elem_of_lookup in Hin as [k Hk]. exists k.
  split; [by eapply lookup_lt_Some|].
  rewrite <-(take_drop i l) at 1. rewrite filter_app. by apply lookup_app_l_Some.
Qed.

Lemma Snap_resources_topological h it :
  topological h (resources it) →
  (done it = false → topological h (prior it)) →
  (done it = false → superseded_parents h it) →
  topological h (Snap_resources it).
Proof.
  intros Hcur Hprior Hsup. rewrite Snap_resources_eq.
  destruct (done it) eqn:Hdone.
  { by rewrite app_nil_r. }
  specialize (Hprior eq_refl). specialize (Hsup eq_refl).
  set (keep := λ res : ptr, has_ptr (dones it) res = false).
  intros i c sc Hi Hc Hpar.
  destruct (decide (i < length (resources it))) as [Hlt|Hge].
  - rewrite lookup_app_l in Hi by done.
    destruct (Hcur i c sc Hi Hc Hpar) as (j & b & t & Hj & Hb & Ht & Hurn).
    exists j, b, t. split; [done|]. split; [|done].
    rewrite lookup_app_l by lia. done.
  - rewrite lookup_app_r in Hi by lia.
    destruct (filter_lookup_inv keep _ _ _ Hi) as (i0 & Hi0 & Hkeep & Hlen).
    destruct (Hprior i0 c sc Hi0 Hc Hpar) as (j0 & b & t & Hj0 & Hb & Ht & Hurn).
    destruct (has_ptr (dones it) b) eqn:Hdb.
    + destruct (Hsup b t c sc) as (b' & t' & Hb' & Ht' & Hurn'); try done.
      { apply list_elem_of_lookup. by exists j0. }
      { apply list_elem_of_lookup. by exists i0. }
      apply list_elem_of_lookup in Hb' as [j Hj].
      exists j, b', t'. split; [apply lookup_lt_Some in Hj; lia|].
      split; [by apply lookup_app_l_Some|]. split; [done|congruence].
    + destruct (filter_take_lookup keep (prior it) i0 j0 b Hb Hdb Hj0) as (k & Hk & Hkb).
      exists (length (resources it) + k), b, t.
      split; [lia|]. split; [|done].
      rewrite lookup_app_r by lia.
      replace (length (resources it) + k - length (resources it)) with k by lia. done.
Qed.

(** C2 (as the code has it).  [Snap] does not sort: its list is
    parent-before-child when the lists it is made of are.  If the list of
    the current plan is a topological sort, and, while the plan is not
    done, the previous snapshot is a topological sort and every prior
    resource that is marked done and is the parent of an unmarked prior
    resource has a resource of its URN in the current list, then [Snap]
    returns a snapshot in which every resource with a parent comes after
    a resource whose URN is that parent. *)
Theorem Snap_topological env w :
  topological (heap w) (resources (iter w)) →
  (done (iter w) = false → topological (heap w) (prior (iter w))) →
  (done (iter w) = false → superseded_parents (heap w) (iter w)) →
  ∃ snap w',
    Snap env w = Ok snap w' ∧ heap w' = heap w
    ∧ topological (heap w) (snap_Resources snap).
Proof.
  intros Hcur Hprior Hsup. eexists _, _. split; [apply Snap_eq|].
  split; [done|]. by apply Snap_resources_topological.
Qed.

Lemma Snap_topological_witness :
  ∃ snap w',
    Snap (ex_env [] ex_check_ok ex_apply) ex_world_ac_mid = Ok snap w'
    ∧ snap_Resources snap = [2; 1]
    ∧ topological (heap ex_world_ac_mid) (snap_Resources snap).
Proof.
  destruct (Snap_topological (ex_env [] ex_check_ok ex_apply) ex_world_ac_mid)
    as (snap & w' & Hsnap & _ & Htopo).
  - intros i a s Hi Ha Hpar. destruct i as [|i]; [|done].
    injection Hi as <-. injection Ha as <-. by destruct Hpar.
  - intros _ i a s Hi Ha Hpar. destruct i as [|[|i]]; [| |done].
    + injection Hi as <-. injection Ha as <-. by destruct Hpar.
    + injection Hi as <-. injection Ha as <-.
      exists 0, 0, (ex_state "a" (ex_k 1) ""). split; [lia|]. done.
  - intros _ a s c sc Ha Hda Hs Hc Hdc Hsc Hpar Hurn.
    exists 2, (ex_state "a" (ex_k 3) ""). split; [apply list_elem_of_here|].
    split; [reflexivity|]. rewrite <-Hurn.
    apply elem_of_cons in Hc as [->|Hc].
    { exfalso. revert Hdc. vm_compute. discriminate. }
    apply list_elem_of_singleton in Hc as ->. injection Hsc as <-. reflexivity.
  - exists snap, w'. split; [exact Hsnap|]. split; [|exact Htopo].
    rewrite Snap_eq in Hsnap. injection Hsnap as <- _. vm_compute. reflexivity.
Defined.

(** C2, as stated, fails: the program registers a resource under a parent
    that no resource has, the creation is applied, and the snapshot holds a
    resource with a parent and nothing in front of it. *)
Lemma Snap_orphan_not_topological :
  ∃ w snap w',
    run ex_env_orphan [ActNext; ActApply (NewCreateStep ex_reg_orphan 0) false]
        ex_world_empty = Ok tt w
    ∧ Snap ex_env_orphan w = Ok snap w'
    ∧ snap_Resources snap = [0]
    ∧ (∃ s, heap w !! 0 = Some s ∧ st_Parent s = ex_urn "ghost")
    ∧ ¬ topological (heap w) (snap_Resources snap).
Proof.
  eexists _, _, _. split; [vm_compute; reflexivity|].
  split; [vm_compute; reflexivity|]. split; [reflexivity|].
  split; [eexists; split; reflexivity|].
  intros Htopo.
  destruct (Htopo 0 0 _ eq_refl eq_refl) as (j & _ & _ & Hj & _); [done|lia].
Qed.


(** ** What each operation leaves alone *)

Lemma src_answers_app t1 t2 : src_answers (t1 ++ t2) = src_answers t1 ++ src_answers t2.
Proof. apply omap_app. Qed.

Lemma src_answers_quiet tr :
  Forall (λ c, is_src_call c = false) tr → src_answers tr = [].
Proof.
  induction 1 as [|c tr Hc _ IH]; [done|]. unfold src_answers in *. simpl.
  destruct c; try done.
Qed.

Lemma idents_insert (h : Heap) a s s' :
  h !! a = Some s → ident s' = ident s → idents (<[a := s']> h) = idents h.
Proof.
  intros Hs Hid. unfold idents. change map with (@fmap list _) in *.
  rewrite list_fmap_insert, Hid. apply list_insert_id. by rewrite list_lookup_fmap, Hs.
Qed.

Lemma idents_alloc (h : Heap) s : idents (h ++ [s]) = idents h ++ [ident s].
Proof. unfold idents. by rewrite map_app. Qed.

Lemma quiet_refl w : quiet w w.
Proof. by repeat split. Qed.

Lemma quiet_trans w1 w2 w3 : quiet w1 w2 → quiet w2 w3 → quiet w1 w3.
Proof.
  unfold quiet. intros H1 H2. destruct_and!. repeat split; congruence.
Qed.

Ltac norm_frames :=
  simpl in *;
  repeat match goal with
  | H : context [src_answers (_ ++ _)] |- _ =>
    rewrite src_answers_app in H; simpl in H; rewrite ?app_nil_r in H
  | H : context [idents (_ ++ [_])] |- _ => rewrite idents_alloc in H
  | H : context [idents (<[?a := ?s']> ?h)], Hs : ?h !! ?a = Some ?s |- _ =>
    rewrite (idents_insert h a s s' Hs eq_refl) in H
  end;
  rewrite ?src_answers_app, ?idents_alloc; simpl; rewrite ?app_nil_r;
  repeat match goal with
  | Hs : ?h !! ?a = Some ?s |- context [idents (<[?a := ?s']> ?h)] =>
    rewrite (idents_insert h a s s' Hs eq_refl)
  end.

Ltac solve_quiet :=
  unfold quiet in *; simpl in *; destruct_and?; norm_frames;
  repeat split; try congruence.

Lemma run_effect_quiet eff w r w' : run_effect eff w = Ok r w' → quiet w w'.
Proof.
  destruct eff; simpl; unfold MarkStateSnapshot, AppendStateSnapshot; intros H; minv;
    solve_quiet.
Qed.

Lemma call_step_Apply_quiet env step preview w r w' :
  call_step_Apply env step preview w = Ok r w' → quiet w w'.
Proof.
  unfold call_step_Apply. intros H. minv.
  match goal with Hf : forEach _ _ _ = Ok _ _ |- _ =>
    pose proof (forEach_frame quiet _ _ quiet_refl quiet_trans run_effect_quiet _ _ _ Hf)
  end.
  solve_quiet.
Qed.

Lemma Apply_quiet env step preview w r w' :
  Apply env step preview w = Ok r w' → quiet w w'.
Proof.
  unfold Apply, Step_URN. intros H. minv;
    repeat match goal with
    | Hc : call_step_Apply _ _ _ _ = Ok _ _ |- _ => apply call_step_Apply_quiet in Hc
    end; solve_quiet.
Qed.

Lemma registerResourceOutputs_quiet e w r w' :
  registerResourceOutputs e w = Ok r w' → quiet w w'.
Proof.
  unfold registerResourceOutputs. intros H. minv; unfold AddOutputs in *; solve_quiet.
Qed.

Lemma MarkStateSnapshot_quiet a w r w' : MarkStateSnapshot a w = Ok r w' → quiet w w'.
Proof. unfold MarkStateSnapshot. intros H. minv. solve_quiet. Qed.

Lemma AppendStateSnapshot_quiet a w r w' : AppendStateSnapshot a w = Ok r w' → quiet w w'.
Proof. unfold AppendStateSnapshot. intros H. minv. solve_quiet. Qed.

Lemma silent_refl w : silent w w.
Proof. by repeat split. Qed.

Lemma silent_trans w1 w2 w3 : silent w1 w2 → silent w2 w3 → silent w1 w3.
Proof. unfold silent. intros H1 H2. destruct_and!. repeat split; congruence. Qed.

Ltac solve_silent :=
  unfold silent in *; simpl in *; destruct_and?; norm_frames;
  repeat split; try congruence.

Lemma diag_silent d w r w' : diag d w = Ok r w' → silent w w'.
Proof. intros H. minv. solve_silent. Qed.

Lemma issueCheckErrors_silent env new urn failures w r w' :
  issueCheckErrors env new urn failures w = Ok r w' → silent w w'.
Proof.
  unfold issueCheckErrors. intros H. destruct failures as [|f fs]; [minv; solve_silent|].
  apply bind_inv in H as (s & w1 & Hd & H). apply bind_inv in H as ([] & w2 & Hf & H).
  apply ret_inv in H as [_ <-].
  eapply silent_trans; [unfold deref in Hd; minv; apply silent_refl|].
  refine (forEach_frame silent _ _ silent_refl silent_trans _ _ _ _ Hf).
  intros failure w0 r0 w0' H0. case_decide; by eapply diag_silent.
Qed.

Lemma analyzeAll_silent env names new urn inputs : ∀ invalid w r w',
  analyzeAll env names new urn inputs invalid w = Ok r w' →
  silent w w' ∧ (r = inr false → invalid = false).
Proof.
  induction names as [|a names IH]; intros invalid w r w' H; simpl in H.
  - minv. split; [apply silent_refl|congruence].
  - apply bind_inv in H as ([] & w1 & Hl & H).
    assert (silent w w1) as Hw1 by (unfold log in Hl; minv; solve_silent).
    cut (silent w1 w' ∧ (r = inr false → invalid = false)).
    { intros [? ?]. split; [by eapply silent_trans|done]. }
    clear Hl Hw1.
    destruct (Host_Analyzer env a) as [[an|] [err|]];
      try (apply ret_inv in H as [<- <-]; split; [apply silent_refl|done]).
    apply bind_inv in H as (s & w2 & Hd & H).
    assert (w2 = w1) as -> by (unfold deref in Hd; minv; done).
    apply bind_inv in H as ([] & w3 & Hl & H).
    assert (silent w1 w3) as Hw3 by (unfold log in Hl; minv; solve_silent).
    cut (silent w3 w' ∧ (r = inr false → invalid = false)).
    { intros [? ?]. split; [by eapply silent_trans|done]. }
    clear Hl Hw3.
    destruct (Analyze env an (st_Type s) inputs) as [failures [err|]];
      try (apply ret_inv in H as [<- <-]; split; [apply silent_refl|done]).
    apply bind_inv in H as ([] & w4 & Hf & H).
    apply IH in H as [Hs Hinv]. split.
    + eapply silent_trans; [|exact Hs].
      refine (forEach_frame silent _ _ silent_refl silent_trans _ _ _ _ Hf).
      intros failure w0 r0 w0' H0. by eapply diag_silent.
    + intros Hr. specialize (Hinv Hr). by destruct failures.
Qed.

Ltac use_silent :=
  repeat match goal with
  | H : issueCheckErrors _ _ _ _ _ = Ok _ _ |- _ => apply issueCheckErrors_silent in H
  | H : analyzeAll _ _ _ _ _ _ _ = Ok _ _ |- _ =>
    apply analyzeAll_silent in H as [H ?]
  end.

Lemma calm_refl w : calm w w.
Proof. by repeat split. Qed.

Lemma calm_trans w1 w2 w3 : calm w1 w2 → calm w2 w3 → calm w1 w3.
Proof. unfold calm. intros H1 H2. destruct_and!. repeat split; congruence. Qed.

Lemma silent_calm w w' : silent w w' → calm w w'.
Proof. unfold silent, calm. intros H. destruct_and!. repeat split; congruence. Qed.

Ltac solve_calm :=
  unfold calm, silent in *; simpl in *; destruct_and?; norm_frames;
  repeat split; try congruence.

(** One phase of a function body: the first action of a bind satisfies the
    relation [R], shown by [tac] with the rest of the body out of sight. *)
Ltac phase R tac :=
  cbv beta zeta in *;
  match goal with
  | H : @mbind M _ _ _ ?f ?m ?w = Ok ?b ?w' |- _ =>
    let Hs := fresh "Hs" in let Hm := fresh "Hm" in let Hk := fresh "Hk" in
    let a := fresh "a" in let w1 := fresh "w" in
    assert (Hs : ∀ a w1, m w = Ok a w1 → R w a w1)
      by (clear H; intros ? ? ?; tac);
    destruct (bind_inv m f w b w' H) as (a & w1 & Hm & Hk); clear H;
    apply Hs in Hm; clear Hs; cbv beta zeta in Hm, Hk; revert a w1 Hm Hk
  | H : orReturn ?m ?f ?w = Ok ?b ?w' |- _ =>
    let Hs := fresh "Hs" in let Hm := fresh "Hm" in let Hk := fresh "Hk" in
    let a := fresh "a" in let w1 := fresh "w" in
    assert (Hs : ∀ a w1, m w = Ok a w1 → R w a w1)
      by (clear H; intros ? ? ?; tac);
    destruct (orReturn_inv m f w b w' H) as [Hm|(a & w1 & Hm & Hk)]; clear H;
    apply Hs in Hm; clear Hs; cbv beta zeta in Hm;
    [revert Hm | cbv beta zeta in Hk; revert a w1 Hm Hk]
  end.

Lemma has_insert (m : gmap URN bool) u v :
  has (<[u := true]> m) v = if decide (u = v) then true else has m v.
Proof. unfold has. rewrite lookup_insert. by case_decide. Qed.

Lemma pending_calm env e w s w1 w2 :
  pending env e w s w1 → calm w1 w2 → pending env e w s w2.
Proof. unfold pending, calm. intros H1 H2. destruct_and!. repeat split; congruence. Qed.

Lemma pending_registered env e w s w' :
  pending env e w s w' → registered env e w w'.
Proof.
  unfold pending, registered, classified. intros (Hit & Hid & Hpos & Hsrc).
  rewrite Hit. simpl. repeat split; try done; [by left|by exists s].
Qed.

(** The end of a registration: one classification set gets the URN, and
    the rest of the world moves calmly. *)
Lemma pending_classified env e w s w1 w' (f : PlanIterator → PlanIterator) :
  pending env e w s w1 →
  iter w' = f (iter w1) →
  idents (heap w') = idents (heap w1) → srcpos w' = srcpos w1 →
  src_answers (trace w') = src_answers (trace w1) →
  (∀ it, p (f it) = p it ∧ opts (f it) = opts it ∧ urns (f it) = urns it
         ∧ deletes (f it) = deletes it ∧ delqueue (f it) = delqueue it
         ∧ srcdone (f it) = srcdone it ∧ done (f it) = done it
         ∧ regs (f it) = regs it ∧ stepqueue (f it) = stepqueue it
         ∧ resources (f it) = resources it) →
  classified (p (iter w)) (reg_urn env w e) (iter w) (f (iter w1)) →
  registered env e w w'.
Proof.
  unfold pending, registered. intros (Hit & Hid & Hpos & Hsrc) Hit' Hid' Hpos' Hsrc' Hf Hcl.
  rewrite Hit'. destruct (Hf (iter w1)) as (-> & -> & -> & -> & -> & -> & -> & -> & -> & ->).
  rewrite Hit. simpl. repeat split; try congruence. exists s. congruence.
Qed.

Lemma makeRegisterResouceSteps_registered env e w r w' :
  makeRegisterResouceSteps env e w = Ok r w' → registered env e w w'.
Proof.
  unfold makeRegisterResouceSteps. fold (reg_urn env w e). intros H.
  set (u := reg_urn env w e) in *.
  apply bind_inv in H as (it & w0 & Hit & H). unfold get_iter in Hit.
  injection Hit as <- <-. cbv beta zeta in H. fold (reg_urn env w e) in H. fold u in H.
  (* the duplicate test *)
  phase (λ (wa : World) (a : bool) w1,
           silent wa w1 ∧ (a = false → has (urns (iter wa)) u = false))
        ltac:(minv; split; solve_silent).
  intros dup w0 [Hsil0 Hdup] H.
  (* recording the URN and allocating the new state *)
  phase (λ (wa : World) (a : unit) w1,
           w1 = with_iter wa (set_urns (<[u := true]> (urns (iter wa))) (iter wa)))
        ltac:(minv; done).
  intros _ ? -> H.
  phase (λ (wa : World) (a : ptr) w1,
           a = length (heap wa)
           ∧ ∃ s, w1 = mkWorld (iter wa) (heap wa ++ [s]) (srcpos wa) (trace wa))
        ltac:(minv; eauto).
  intros new wp [Hnew [s0 Hwp]] H.
  assert (Hpend : pending env e w s0 wp).
  { destruct Hsil0 as (Hi & Hh & Hp & Ht). subst wp. unfold pending. simpl.
    by rewrite Hi, Hh, Hp, Ht, idents_alloc. }
  assert (Hlive : heap wp !! new = Some s0) by (subst wp new; apply lookup_alloc).
  clear Hwp Hnew Hsil0 w0.
  (* the old state *)
  phase (λ (wa : World) (a : option (ptr * PropertyMap)) w1,
           w1 = wa ∧ ∀ old oi, a = Some (old, oi) → Olds (p (iter w)) !! u = Some old)
        ltac:(minv; split; naive_solver).
  intros hasold ? [-> Hold] H.
  (* the provider *)
  phase (λ (wa : World) (a : list Step * option error + option string) w1, silent wa w1)
        ltac:(unfold Provider in *; minv; solve_silent).
  { intros Hs. eapply pending_registered, pending_calm; [done|by apply silent_calm]. }
  intros prov w1 Hs%silent_calm H.
  pose proof (pending_calm _ _ _ _ _ _ Hpend Hs) as Hpend1. clear Hs Hpend Hlive wp.
  (* the event's inputs *)
  phase (λ (wa : World) (a : PropertyMap) w1, w1 = wa) ltac:(minv; done).
  intros news ? -> H.
  (* the first check *)
  phase (λ (wa : World) (a : list Step * option error + PropertyMap * bool) w1,
           calm wa w1 ∧ ∀ i, a = inr (i, false) → dup = false)
        ltac:(minv; use_silent;
              (split; [solve_calm|intros ? [=]; subst; try done; by destruct dup])).
  { intros [Hc _]. by eapply pending_registered, pending_calm. }
  intros [inputs invalid] w2 [Hc Hinv] H.
  pose proof (pending_calm _ _ _ _ _ _ Hpend1 Hc) as Hpend2. clear Hc Hpend1 w1.
  (* the analyzers *)
  phase (λ (wa : World) (a : list Step * option error + bool) w1,
           silent wa w1 ∧ (a = inr false → invalid = false))
        ltac:(minv; use_silent; (split; [solve_silent|intros [=]; subst; auto])).
  { intros [Hs%silent_calm _]. by eapply pending_registered, pending_calm. }
  intros invalid' w3 [Hs%silent_calm Hinv'] H.
  pose proof (pending_calm _ _ _ _ _ _ Hpend2 Hs) as Hpend3. clear Hs Hpend2 w2.
  destruct invalid'.
  { apply ret_inv in H as [_ <-]. by eapply pending_registered. }
  assert (Hfresh : has (urns (iter w)) u = false).
  { apply Hdup. eapply Hinv. by rewrite (Hinv' eq_refl). }
  clear Hdup Hinv Hinv' dup invalid.
  assert (Hcl : ∀ wq wz (f : PlanIterator → PlanIterator),
    pending env e w s0 wq → calm (with_iter wq (f (iter wq))) wz →
    (∀ it, p (f it) = p it ∧ opts (f it) = opts it ∧ urns (f it) = urns it
           ∧ deletes (f it) = deletes it ∧ delqueue (f it) = delqueue it
           ∧ srcdone (f it) = srcdone it ∧ done (f it) = done it
           ∧ regs (f it) = regs it ∧ stepqueue (f it) = stepqueue it
           ∧ resources (f it) = resources it) →
    classified (p (iter w)) u (iter w) (f (iter wq)) →
    registered env e w wz).
  { intros wq wz f Hq (Hi & Hid & Hp & Hsrc) Hf Hc.
    by eapply (pending_classified env e w s0 wq wz f). }
  assert (Hsets : iter w3 = set_urns (<[u := true]> (urns (iter w))) (iter w))
    by apply Hpend3.
  destruct hasold as [[old oi]|].
  - specialize (Hold old oi eq_refl).
    phase (λ (wa : World) (a : State) w1, w1 = wa) ltac:(minv; done).
    intros so ? -> H.
    phase (λ (wa : World) (a : State) w1, w1 = wa) ltac:(minv; done).
    intros sn ? -> H.
    phase (λ (wa : World) (a : unit) w1, w1 = wa) ltac:(minv; done).
    intros _ ? -> H.
    destruct (negb (DeepEquals env oi inputs)).
    + phase (λ (wa : World) (a : list Step * option error + DiffResult) w1, silent wa w1)
            ltac:(minv; solve_silent).
      { intros Hs%silent_calm. by eapply pending_registered, pending_calm. }
      intros diff w4 Hs%silent_calm H.
      pose proof (pending_calm _ _ _ _ _ _ Hpend3 Hs) as Hpend4.
      assert (Hsets4 : iter w4 = set_urns (<[u := true]> (urns (iter w))) (iter w))
        by apply Hpend4.
      destruct (Replace diff).
      * phase (λ (wa : World) (a : unit) w1,
                 w1 = with_iter wa (set_replaces (<[u := true]> (replaces (iter wa)))
                                      (iter wa)))
              ltac:(minv; done).
        intros _ ? -> H.
        phase (λ (wa : World) (a : list Step * option error + unit) w1, calm wa w1)
              ltac:(minv; use_silent; solve_calm).
        { intros Hc.
          eapply (Hcl w4 w' (λ it, set_replaces (<[u := true]> (replaces it)) it));
            [done|done|done|].
          rewrite Hsets4. unfold classified. simpl. do 4 right. by rewrite Hold. }
        intros _ w5 Hc H. apply ret_inv in H as [_ <-].
        eapply (Hcl w4 w5 (λ it, set_replaces (<[u := true]> (replaces it)) it));
          [done|done|done|].
        rewrite Hsets4. unfold classified. simpl. do 4 right. by rewrite Hold.
      * minv.
        eapply (Hcl w4 _ (λ it, set_updates (<[u := true]> (updates it)) it));
          [done|apply calm_refl|done|].
        rewrite Hsets4. unfold classified. simpl. right; right; left. done.
    + minv.
      eapply (Hcl w3 _ (λ it, set_sames (<[u := true]> (sames it)) it));
        [done|apply calm_refl|done|].
      rewrite Hsets. unfold classified. simpl. right; right; right; left. done.
  - minv.
    eapply (Hcl w3 _ (λ it, set_creates (<[u := true]> (creates it)) it));
      [done|apply calm_refl|done|].
    rewrite Hsets. unfold classified. simpl. right; left. done.
Qed.


(** ** The invariant of a run *)

Lemma has_insert_true (m : gmap URN bool) u v :
  has (<[u := true]> m) v = true ↔ u = v ∨ has m v = true.
Proof.
  rewrite has_insert. case_decide as Huv; split; auto.
  intros [?|?]; [done|assumption].
Qed.

Lemma idents_lookup (h : Heap) a s : h !! a = Some s → idents h !! a = Some (ident s).
Proof. intros H. unfold idents. change map with (@fmap list _). by rewrite list_lookup_fmap, H. Qed.

Lemma idents_prefix_lookup (h0 h : Heap) a s0 :
  idents h0 `prefix_of` idents h → h0 !! a = Some s0 →
  ∃ s, h !! a = Some s ∧ st_URN s = st_URN s0.
Proof.
  intros Hpre Hs0. apply idents_lookup in Hs0.
  eapply prefix_lookup_Some in Hs0; [|exact Hpre].
  unfold idents in Hs0. change map with (@fmap list _) in Hs0.
  rewrite list_lookup_fmap in Hs0.
  destruct (h !! a) as [s|]; [|done]. exists s. split; [done|].
  injection Hs0. unfold ident. congruence.
Qed.

Lemma initial_invariant pl o h0 : invariant pl h0 (initial pl o h0).
Proof.
  unfold invariant, initial, classified_apart, replaces_accounted, source_ended_once,
    subset_sets, disjoint_sets. simpl.
  repeat split; try done.
  - by intros u [? ?].
  - by intros u [? ?].
  - by intros u [? ?].
  - intros t1 t2 Heq. by destruct t1.
  - intros _. by intros ?%elem_of_nil.
Qed.

Lemma invariant_quiet pl h0 w w' : invariant pl h0 w → quiet w w' → invariant pl h0 w'.
Proof.
  unfold invariant, quiet, classified_apart, replaces_accounted, source_ended_once.
  intros (Hp & Hh & Hcl & Hrep & Hdone & Hsrc) Hq. destruct_and!.
  repeat match goal with H : _ (iter w') = _ |- _ => rewrite H; clear H end.
  repeat match goal with H : _ w' = _ |- _ => rewrite H; clear H end.
  repeat match goal with H : _ (_ w') = _ |- _ => rewrite H; clear H end.
  done.
Qed.

Lemma classified_apart_step pl u it it' :
  classified_apart it → urns it' = <[u := true]> (urns it) →
  classified pl u it it' → classified_apart it'.
Proof.
  unfold classified_apart, classified, subset_sets, disjoint_sets.
  intros (Hc & Hu & Hs & Hcu & Hcs & Hus) Hurns Hclass. rewrite Hurns.
  assert (Hfresh : has (urns it) u = false →
            has (creates it) u = false ∧ has (updates it) u = false
            ∧ has (sames it) u = false).
  { intros Hf. repeat split.
    - destruct (has (creates it) u) eqn:E; [|done]. apply Hc in E. congruence.
    - destruct (has (updates it) u) eqn:E; [|done]. apply Hu in E. congruence.
    - destruct (has (sames it) u) eqn:E; [|done]. apply Hs in E. congruence. }
  assert (Hin : ∀ m, (∀ v, has m v = true → has (urns it) v = true) →
            ∀ v, has m v = true → has (<[u := true]> (urns it)) v = true).
  { intros m Hm v Hv. apply has_insert_true. right. by apply Hm. }
  assert (Hin' : ∀ m, (∀ v, has m v = true → has (urns it) v = true) →
            ∀ v, has (<[u := true]> m) v = true →
                 has (<[u := true]> (urns it)) v = true).
  { intros m Hm v [<-|Hv]%has_insert_true; apply has_insert_true; [by left|].
    right. by apply Hm. }
  destruct Hclass as [(-> & -> & -> & _)|[(Hf & -> & -> & -> & _)|[(Hf & -> & -> & -> & _)
                    |[(Hf & -> & -> & -> & _)|(_ & -> & -> & -> & _)]]]];
    try destruct (Hfresh Hf) as (Hfc & Hfu & Hfs);
    (split; [by (apply Hin' || apply Hin)|]);
    (split; [by (apply Hin' || apply Hin)|]);
    (split; [by (apply Hin' || apply Hin)|]);
    (split; [|split]);
    intros v [H1 H2];
    try (apply has_insert_true in H1 as [<-|H1]; [congruence|]);
    try (apply has_insert_true in H2 as [<-|H2]; [congruence|]);
    first [by eapply Hcu | by eapply Hcs | by eapply Hus].
Qed.

Lemma invariant_registered env e pl h0 w w' :
  invariant pl h0 w → srcdone (iter w) = false → registered env e w w' →
  invariant pl h0 w'.
Proof.
  unfold invariant, registered, replaces_accounted, source_ended_once.
  intros (Hp & Hh & Hcl & Hrep & Hdone & Hsrc) Hsd Hr.
  destruct Hr as (Hp' & _ & Hurns & Hclass & Hdel & Hdq & Hsd' & Hd' & _ & _ & _ & _
                  & [s Hid] & Hans).
  rewrite Hp', Hsd', Hd', Hdq, Hans, Hid. rewrite Hsd in *. rewrite Hp in *.
  split; [done|]. split; [by apply prefix_app_r|].
  split; [by eapply classified_apart_step|].
  split; [|done].
  intros Holds. specialize (Hrep Holds).
  destruct Hclass as [(_ & _ & _ & ->)|[(_ & _ & _ & _ & ->)|[(_ & _ & _ & _ & ->)
                    |[(_ & _ & _ & _ & ->)|(Hold & _ & _ & _ & ->)]]]]; try done.
  intros v [<-|?]%has_insert_true; [done|by apply Hrep].
Qed.

Lemma src_answers_snoc tr a : src_answers (tr ++ [CSrcNext a]) = src_answers tr ++ [a].
Proof. by rewrite src_answers_app. Qed.

Lemma last_end_marker {A} (l t1 t2 : list A) (x y : A) :
  x ∉ l → l ++ [y] = t1 ++ x :: t2 → t2 = [].
Proof.
  intros Hnin Heq. destruct t2 as [|z t2 _] using rev_ind; [done|].
  exfalso. apply Hnin.
  change (t1 ++ x :: t2 ++ [z]) with (t1 ++ (x :: t2) ++ [z]) in Heq.
  rewrite app_assoc in Heq. apply app_inj_tail in Heq as [-> _].
  apply elem_of_app. right. by left.
Qed.

(** An answer of the source that is not the end of the stream. *)
Lemma invariant_src_answer pl h0 w a :
  invariant pl h0 w → srcdone (iter w) = false → a ≠ (None, None) →
  invariant pl h0 (mkWorld (iter w) (heap w) (S (srcpos w)) (trace w ++ [CSrcNext a])).
Proof.
  unfold invariant, source_ended_once. cbn -[src_answers].
  intros (Hp & Hh & Hcl & Hrep & Hdone & Hsrc1 & Hsrc2) Hsd Ha.
  do 5 (split; [assumption|]). split.
  - intros t1 t2. rewrite src_answers_snoc. apply last_end_marker. by apply Hsrc2.
  - intros _. rewrite src_answers_snoc. intros [?|?%list_elem_of_singleton]%elem_of_app.
    + by apply Hsrc2.
    + done.
Qed.

Lemma computeDeletes_from_inv rs : ∀ n acc w r w',
  computeDeletes_from rs n acc w = Ok r w' →
  w' = w
  ∧ r = acc ++ filter (λ res, enqueued (iter w) (heap w) res = true) (reverse (take n rs)).
Proof.
  induction n as [|i IH]; intros acc w r w' H; simpl in H.
  - apply ret_inv in H as [<- <-]. by rewrite take_0, app_nil_r.
  - destruct (rs !! i) as [res|] eqn:Hres; [|done].
    apply bind_inv in H as (s & w1 & Hd & H). unfold deref in Hd.
    destruct (heap w !! res) as [s'|] eqn:Hs; [|done]. injection Hd as <- <-.
    apply bind_inv in H as (it & w1 & Hit & H). injection Hit as <- <-.
    apply bind_inv in H as ([] & w1 & Ha & H). unfold Assert in Ha.
    destruct (negb _ || _); [|done]. apply ret_inv in Ha as [_ <-].
    rewrite (take_S_r _ _ _ Hres), reverse_snoc, filter_cons.
    assert (Henq : enqueued (iter w) (heap w) res
                   = st_Delete s'
                     || negb (has (sames (iter w)) (st_URN s'))
                        && negb (has (updates (iter w)) (st_URN s'))
                     || has (replaces (iter w)) (st_URN s'))
      by (unfold enqueued; by rewrite Hs).
    rewrite <-Henq in H. destruct (enqueued (iter w) (heap w) res).
    + rewrite decide_True by done. apply IH in H as [-> ->].
      by rewrite <-app_assoc.
    + rewrite decide_False by done. by apply IH in H.
Qed.

Lemma computeDeletes_inv w r w' :
  computeDeletes w = Ok r w' →
  w' = w
  ∧ r = filter (λ res, enqueued (iter w) (heap w) res = true) (reverse (prior (iter w))).
Proof.
  unfold computeDeletes, prior. intros H.
  apply bind_inv in H as (it & w1 & Hit & H). injection Hit as <- <-.
  destruct (prev (p (iter w))) as [pv|].
  - apply computeDeletes_from_inv in H. by rewrite firstn_all in H.
  - by apply ret_inv in H as [<- <-].
Qed.

(** The end of the source: every replaced URN has its old state in the
    queue of deletions. *)
Lemma invariant_source_end pl h0 w :
  invariant pl h0 w → srcdone (iter w) = false →
  invariant pl h0
    (mkWorld
       (set_delqueue
          (filter (λ res, enqueued (iter w) (heap w) res = true) (reverse (prior (iter w))))
          (set_srcdone true (iter w)))
       (heap w) (S (srcpos w)) (trace w ++ [CSrcNext (None, None)])).
Proof.
  unfold invariant, source_ended_once, replaces_accounted. cbn -[src_answers].
  intros (Hp & Hh & Hcl & Hrep & Hdone & Hsrc1 & Hsrc2) Hsd.
  rewrite Hsd in Hrep.
  do 3 (split; [assumption|]). split; [|split; [|split]].
  - intros Holds u Hu. right.
    destruct (Hrep Holds u Hu) as [old Hold].
    destruct (Holds u old Hold) as (pv & s0 & Hpv & Hin & Hs0 & Hurn).
    destruct (idents_prefix_lookup h0 (heap w) old s0 Hh Hs0) as (s & Hs & Hurn').
    exists old, s0. split; [|done].
    apply list_elem_of_filter. split.
    + unfold enqueued. rewrite Hs, Hurn', Hurn, Hu. apply orb_true_r.
    + apply elem_of_reverse. unfold prior. by rewrite Hp, Hpv.
  - intros Hd. destruct (Hdone Hd) as [? _]. congruence.
  - intros t1 t2. rewrite src_answers_snoc. apply last_end_marker. by apply Hsrc2.
  - done.
Qed.

Lemma nextDeleteStep_inv w r w' :
  nextDeleteStep w = Ok r w' →
  (delqueue (iter w) = [] ∧ r = None ∧ w' = w)
  ∨ ∃ d q s, delqueue (iter w) = d :: q ∧ heap w !! d = Some s
             ∧ r = Some (NewDeleteStep d (has (replaces (iter w)) (st_URN s)))
             ∧ w' = with_iter w (set_deletes (<[st_URN s := true]> (deletes (iter w)))
                                   (set_delqueue q (iter w))).
Proof.
  unfold nextDeleteStep. intros H.
  apply bind_inv in H as (it & w1 & Hit & H). injection Hit as <- <-.
  destruct (delqueue (iter w)) as [|d q] eqn:Hq.
  - apply ret_inv in H as [<- <-]. by left.
  - right. minv. by eexists _, _, _.
Qed.

Lemma invariant_delete pl h0 w d q s :
  invariant pl h0 w → srcdone (iter w) = true →
  delqueue (iter w) = d :: q → heap w !! d = Some s →
  invariant pl h0
    (with_iter w (set_deletes (<[st_URN s := true]> (deletes (iter w)))
                    (set_delqueue q (iter w)))).
Proof.
  unfold invariant, source_ended_once, replaces_accounted. simpl.
  intros (Hp & Hh & Hcl & Hrep & Hdone & Hsrc1 & Hsrc2) Hsd Hq Hs.
  rewrite Hsd in *. rewrite Hq in *.
  do 3 (split; [assumption|]). split; [|split; [|by split]].
  - intros Holds u Hu.
    destruct (Hrep Holds u Hu) as [Hdel|(d' & s' & Hin & Hs' & Hurn)].
    + left. apply has_insert_true. by right.
    + apply elem_of_cons in Hin as [->|Hin].
      * left. apply has_insert_true. left.
        destruct (idents_prefix_lookup h0 (heap w) d s' Hh Hs') as (s'' & Hs'' & Hurn').
        rewrite Hs in Hs''. injection Hs'' as <-. congruence.
      * right. by exists d', s'.
  - intros Hd. by destruct (Hdone Hd).
Qed.

Lemma invariant_done pl h0 w :
  invariant pl h0 w → srcdone (iter w) = true → delqueue (iter w) = [] →
  invariant pl h0 (with_iter w (set_done true (iter w))).
Proof.
  unfold invariant, source_ended_once, replaces_accounted. simpl.
  intros (Hp & Hh & Hcl & Hrep & Hdone & Hsrc1 & Hsrc2) Hsd Hq.
  do 4 (split; [assumption|]). split; [done|]. by split.
Qed.

Lemma quiet_stepqueue w q : quiet w (with_iter w (set_stepqueue q (iter w))).
Proof. by repeat split. Qed.

(** One call of [Next] keeps the invariant, whatever the fuel. *)
Lemma Next_loop_invariant env pl h0 :
  ∀ fuel w r w', invariant pl h0 w → Next_loop env fuel w = Ok r w' → invariant pl h0 w'.
Proof.
  induction fuel as [|fuel IH]; intros w r w' Hinv H; [done|].
  simpl in H. apply bind_inv in H as (it & w1 & Hit & H). injection Hit as <- <-.
  destruct (done (iter w)) eqn:Hdone.
  { by apply ret_inv in H as [_ <-]. }
  destruct (stepqueue (iter w)) as [|step rest] eqn:Hq.
  - destruct (srcdone (iter w)) eqn:Hsd; simpl in H.
    + (* draining the deletions *)
      apply bind_inv in H as (st & w1 & Hn & H).
      apply nextDeleteStep_inv in Hn as [(Hdq & -> & ->)|(d & q & s & Hdq & Hs & -> & ->)].
      * minv. by apply invariant_done.
      * apply ret_inv in H as [_ <-]. by apply (invariant_delete pl h0 w d q s).
    + (* pulling from the source *)
      apply bind_inv in H as (a & w1 & Hsrc & H). unfold call_src_Next in Hsrc.
      injection Hsrc as <- <-.
      destruct (src_Next env (srcpos w)) as [[event|] [err|]] eqn:Hans.
      * apply ret_inv in H as [_ <-]. by apply invariant_src_answer.
      * pose proof (invariant_src_answer pl h0 w (Some event, None) Hinv Hsd
                      ltac:(done)) as Hinv1.
        destruct event as [e|e|kind]; [| |done].
        -- apply bind_inv in H as ([steps steperr] & w2 & Hreg & H).
           apply makeRegisterResouceSteps_registered in Hreg.
           eapply invariant_registered in Hreg; [|exact Hinv1|done].
           destruct steperr; [by apply ret_inv in H as [_ <-]|].
           destruct steps as [|s1 rest]; [done|].
           apply bind_inv in H as ([] & w3 & Hset & H). apply ret_inv in H as [_ <-].
           destruct rest; [by apply ret_inv in Hset as [_ <-]|].
           unfold set_iter in Hset. injection Hset as <-.
           eapply invariant_quiet; [exact Hreg|]. apply quiet_stepqueue.
        -- apply bind_inv in H as (err & w2 & Hout & H).
           apply registerResourceOutputs_quiet in Hout.
           eapply invariant_quiet in Hout; [|exact Hinv1].
           destruct err; [by apply ret_inv in H as [_ <-]|]. by eapply IH.
      * apply ret_inv in H as [_ <-]. by apply invariant_src_answer.
      * apply bind_inv in H as ([] & w2 & Hset & H). unfold set_iter in Hset.
        injection Hset as <-.
        apply bind_inv in H as (dels & w3 & Hcd & H).
        apply computeDeletes_inv in Hcd as [-> ->]. simpl in H.
        apply bind_inv in H as ([] & w3 & Hset & H). unfold set_iter in Hset.
        injection Hset as <-. simpl in H.
        eapply IH; [|exact H].
        by apply (invariant_source_end pl h0 w).
  - apply bind_inv in H as ([] & w2 & Hset & H). apply ret_inv in H as [_ <-].
    unfold set_iter in Hset. injection Hset as <-.
    eapply invariant_quiet; [exact Hinv|]. apply quiet_stepqueue.
Qed.

Lemma exec_invariant env pl h0 a w r w' :
  invariant pl h0 w → exec env a w = Ok r w' → invariant pl h0 w'.
Proof.
  intros Hinv H. destruct a; simpl in H.
  - apply bind_inv in H as (x & w1 & Hn & H). apply ret_inv in H as [_ <-].
    by eapply Next_loop_invariant.
  - apply bind_inv in H as (x & w1 & Hn & H). apply ret_inv in H as [_ <-].
    eapply invariant_quiet; [done|]. by eapply Apply_quiet.
  - eapply invariant_quiet; [done|]. by eapply MarkStateSnapshot_quiet.
  - eapply invariant_quiet; [done|]. by eapply AppendStateSnapshot_quiet.
Qed.

Lemma run_invariant env pl h0 acts : ∀ w r w',
  invariant pl h0 w → run env acts w = Ok r w' → invariant pl h0 w'.
Proof.
  induction acts as [|a acts IH]; intros w r w' Hinv H; simpl in H.
  - by apply ret_inv in H as [_ <-].
  - apply bind_inv in H as (x & w1 & Ha & H).
    eapply IH; [|exact H]. by eapply exec_invariant.
Qed.


(** ** The classification of a finished plan *)

(** C7.  Let the map of old states be the URN map of the previous
    snapshot.  After any sequence of calls of [Next], [Apply],
    [MarkStateSnapshot] and [AppendStateSnapshot] on a fresh iterator, once
    the iterator is done, no URN is in two of [creates], [updates] and
    [sames], and every URN in [replaces] is in [deletes]. *)
Theorem classification_partition env pl o h0 acts w :
  olds_of_prev pl h0 →
  run env acts (initial pl o h0) = Ok tt w →
  done (iter w) = true →
  disjoint_sets (creates (iter w)) (updates (iter w))
  ∧ disjoint_sets (creates (iter w)) (sames (iter w))
  ∧ disjoint_sets (updates (iter w)) (sames (iter w))
  ∧ subset_sets (replaces (iter w)) (deletes (iter w)).
Proof.
  intros Holds Hrun Hdone.
  pose proof (run_invariant env pl h0 acts _ _ _ (initial_invariant pl o h0) Hrun)
    as (_ & _ & Hcl & Hrep & Hd & _).
  destruct Hcl as (_ & _ & _ & Hcu & Hcs & Hus).
  destruct (Hd Hdone) as [Hsd Hdq].
  specialize (Hrep Holds). unfold replaces_accounted in Hrep.
  rewrite Hsd, Hdq in Hrep.
  repeat split; try done.
  intros u Hu. destruct (Hrep u Hu) as [?|(d & s & Hin & _)]; [done|].
  by apply elem_of_nil in Hin.
Qed.

(** ** After the end *)

Lemma Next_done env w : done (iter w) = true → Next env w = Ok (None, None) w.
Proof.
  intros Hd. rewrite Next_unfold. simpl. unfold get_iter. munfold. by rewrite Hd.
Qed.

Lemma exec_done env a w r w' :
  done (iter w) = true → exec env a w = Ok r w' → done (iter w') = true.
Proof.
  intros Hd H. destruct a; simpl in H.
  - unfold mbind, M_bind in H. rewrite Next_done in H by done.
    by apply ret_inv in H as [_ <-].
  - apply bind_inv in H as (x & w1 & Hn & H). apply ret_inv in H as [_ <-].
    apply Apply_quiet in Hn. unfold quiet in Hn. destruct_and!. congruence.
  - apply MarkStateSnapshot_quiet in H. unfold quiet in H. destruct_and!. congruence.
  - apply AppendStateSnapshot_quiet in H. unfold quiet in H. destruct_and!. congruence.
Qed.

Lemma run_done env acts : ∀ w r w',
  done (iter w) = true → run env acts w = Ok r w' → done (iter w') = true.
Proof.
  induction acts as [|a acts IH]; intros w r w' Hd H; simpl in H.
  - by apply ret_inv in H as [_ <-].
  - apply bind_inv in H as (x & w1 & Ha & H).
    eapply IH; [|exact H]. by eapply exec_done.
Qed.

Lemma src_answers_nil_quiet tr :
  src_answers tr = [] → Forall (λ c, is_src_call c = false) tr.
Proof.
  induction tr as [|c tr IH]; intros H; [constructor|].
  destruct c; constructor; by try apply IH.
Qed.

Lemma ended_once_left_alone tr :
  (∀ t1 t2, src_answers tr = t1 ++ (None, None) :: t2 → t2 = []) →
  source_left_alone tr.
Proof.
  intros H t1 t2 ->. apply src_answers_nil_quiet.
  apply (H (src_answers t1)). by rewrite src_answers_app.
Qed.

(** C10.  In a run on a fresh iterator, nothing is pulled from the source
    after the source has answered with no event and no error; and once the
    iterator is done, every later call of [Next], whatever is called in
    between, returns no step and no error and changes nothing: not the
    position of the source, not the trace of calls, not the queues. *)
Theorem Next_after_done env pl o h0 acts w :
  run env acts (initial pl o h0) = Ok tt w →
  source_left_alone (trace w)
  ∧ (done (iter w) = true →
     ∀ acts' w', run env acts' w = Ok tt w' → Next env w' = Ok (None, None) w').
Proof.
  intros Hrun. split.
  - pose proof (run_invariant env pl h0 acts _ _ _ (initial_invariant pl o h0) Hrun)
      as (_ & _ & _ & _ & _ & Hsrc & _).
    by apply ended_once_left_alone.
  - intros Hd acts' w' Hrun'. apply Next_done. by eapply run_done.
Qed.

(** ** The theorems on concrete plans *)

Lemma ex_plan_a_olds : olds_of_prev ex_plan_a [ex_state "a" (ex_k 1) ""].
Proof.
  intros u old H.
  change (Olds ex_plan_a) with ({[ex_urn "a" := 0]} : gmap URN ptr) in H.
  apply lookup_singleton_Some in H as [<- <-].
  eexists _, (ex_state "a" (ex_k 1) ""). split; [reflexivity|].
  split; [apply list_elem_of_here|]. split; reflexivity.
Qed.

Lemma ex_world_a_done_run :
  run ex_env_replace [ActNext; ActNext; ActNext; ActNext] (ex_world_a None)
  = Ok tt ex_world_a_done.
Proof. vm_compute. reflexivity. Qed.

Lemma classification_partition_witness :
  has (replaces (iter ex_world_a_done)) (ex_urn "a") = true
  ∧ disjoint_sets (creates (iter ex_world_a_done)) (updates (iter ex_world_a_done))
  ∧ disjoint_sets (creates (iter ex_world_a_done)) (sames (iter ex_world_a_done))
  ∧ disjoint_sets (updates (iter ex_world_a_done)) (sames (iter ex_world_a_done))
  ∧ subset_sets (replaces (iter ex_world_a_done)) (deletes (iter ex_world_a_done)).
Proof.
  split; [vm_compute; reflexivity|].
  apply (classification_partition ex_env_replace ex_plan_a (mkOptions None 1)
           [ex_state "a" (ex_k 1) ""] [ActNext; ActNext; ActNext; ActNext]).
  - exact ex_plan_a_olds.
  - exact ex_world_a_done_run.
  - vm_compute. reflexivity.
Defined.

Lemma Next_after_done_witness :
  source_left_alone (trace ex_world_a_done)
  ∧ Next ex_env_replace ex_world_a_done = Ok (None, None) ex_world_a_done.
Proof.
  destruct (Next_after_done ex_env_replace ex_plan_a (mkOptions None 1)
              [ex_state "a" (ex_k 1) ""] [ActNext; ActNext; ActNext; ActNext]
              ex_world_a_done ex_world_a_done_run) as [H1 H2].
  split; [exact H1|].
  apply (H2 ltac:(vm_compute; reflexivity) [ActNext; ActNext]).
  vm_compute. reflexivity.
Defined.

Lemma computeDeletes_reverse_order_witness :
  computeDeletes ex_world_ac = Ok [1; 0] ex_world_ac
  ∧ ∃ w', NextN (ex_env [] ex_check_ok ex_apply) 2 ex_world_ac
          = Ok [(Some (NewDeleteStep 1 false), None); (Some (NewDeleteStep 0 false), None)] w'.
Proof.
  destruct (computeDeletes_reverse_order (ex_env [] ex_check_ok ex_apply) ex_world_ac)
    as (H1 & _ & H3).
  { repeat constructor; eexists; (split; [reflexivity|]); left; vm_compute; reflexivity. }
  split; [exact H1|].
  destruct (H3 eq_refl eq_refl eq_refl eq_refl) as (w' & HN & _).
  exists w'. exact HN.
Defined.

Lemma check_failures_first_and_second_pass_witness :
  ∃ w' t1 ds,
    makeRegisterResouceSteps (ex_env [] ex_check_needs_olds ex_apply) ex_reg_a_zone
        (ex_world_a None) = Ok ([], Some validationError) w'
    ∧ trace w' = t1 ++ CCheck "aws" (ex_urn "a") None {["zone" := PString "eu"]}
                       :: map CDiag ds
    ∧ has (replaces (iter w')) (ex_urn "a") = true.
Proof.
  destruct (check_failures_first_and_second_pass (ex_env [] ex_check_needs_olds ex_apply)
              (ex_world_a None) ex_reg_a_zone "aws" eq_refl eq_refl) as [_ H2].
  { intros old Hold.
    change (Olds (p (iter (ex_world_a None)))) with ({[ex_urn "a" := 0]} : gmap URN ptr)
      in Hold.
    apply lookup_singleton_Some in Hold as [_ <-].
    eexists. split; reflexivity. }
  destruct (H2 0 (ex_state "a" (ex_k 1) "") (mkDiff true ["zone"] [])
              {["zone" := PString "eu"]} [mkCheckFailure "" "no default for zone"] None)
    as (err & w' & t1 & ds & Hrun & -> & Htr & Hrep & _).
  - split; [vm_compute; reflexivity|]. split.
    + intros _. eexists _, _. split; reflexivity.
    + repeat constructor. eexists. split; reflexivity.
  - vm_compute. reflexivity.
  - vm_compute. reflexivity.
  - reflexivity.
  - reflexivity.
  - reflexivity.
  - by left.
  - exists w', t1, ds. split; [exact Hrun|]. split; [exact Htr|].
    rewrite Hrep. apply has_insert_true. by left.
Defined.


(** * Beyond the claims *)

(** ** [Next] ends *)

Lemma fueled_ret {A} (a : A) : fueled (mret a).
Proof. by intros w. Qed.

Lemma fueled_bind {A B} (m : M A) (f : A → M B) :
  fueled m → (∀ a, fueled (f a)) → fueled (m ≫= f).
Proof.
  intros Hm Hf w. unfold mbind, M_bind. specialize (Hm w).
  destruct (m w); [apply Hf|done|done].
Qed.

Lemma fueled_orReturn {R A} (c : M (R + A)) (k : A → M R) :
  fueled c → (∀ a, fueled (k a)) → fueled (orReturn c k).
Proof.
  intros Hc Hk. unfold orReturn. apply fueled_bind; [done|].
  intros [r|a]; [apply fueled_ret|apply Hk].
Qed.

Lemma fueled_panic {A} msg : fueled (@panic A msg).
Proof. by intros w. Qed.

Lemma fueled_get_iter : fueled get_iter.
Proof. by intros w. Qed.

Lemma fueled_get_heap : fueled get_heap.
Proof. by intros w. Qed.

Lemma fueled_set_iter f : fueled (set_iter f).
Proof. by intros w. Qed.

Lemma fueled_set_heap f : fueled (set_heap f).
Proof. by intros w. Qed.

Lemma fueled_log c : fueled (log c).
Proof. by intros w. Qed.

Lemma fueled_Assert b msg : fueled (Assert b msg).
Proof. by destruct b. Qed.

Lemma fueled_deref a : fueled (deref a).
Proof. intros w. unfold deref. by destruct (heap w !! a). Qed.

Lemma fueled_alloc s : fueled (alloc s).
Proof. by intros w. Qed.

Lemma fueled_update a f : fueled (update a f).
Proof.
  unfold update. apply fueled_bind; [apply fueled_deref|]. intros s. apply fueled_set_heap.
Qed.

Lemma fueled_forEach {A} (l : list A) body :
  (∀ x, fueled (body x)) → fueled (forEach l body).
Proof.
  intros Hb. induction l as [|x l IH]; simpl; [apply fueled_ret|].
  apply fueled_bind; [apply Hb|]. by intros _.
Qed.

Create HintDb fueled.

Ltac fuel_step :=
  first
    [ solve [auto 2 with nocore fueled]
    | apply fueled_ret | apply fueled_panic | apply fueled_get_iter
    | apply fueled_get_heap | apply fueled_set_iter | apply fueled_set_heap
    | apply fueled_log | apply fueled_Assert | apply fueled_deref
    | apply fueled_alloc | apply fueled_update
    | apply fueled_forEach; intros ?
    | apply fueled_bind; [|intros ?]
    | apply fueled_orReturn; [|intros ?]
    | progress cbv beta zeta
    | match goal with
      | |- fueled (match ?x with _ => _ end) => destruct x
      end ].

Ltac fuel := repeat fuel_step.

Lemma fueled_MarkStateSnapshot a : fueled (MarkStateSnapshot a).
Proof. unfold MarkStateSnapshot. fuel. Qed.

Lemma fueled_AppendStateSnapshot a : fueled (AppendStateSnapshot a).
Proof. unfold AppendStateSnapshot. fuel. Qed.

#[export] Hint Resolve fueled_MarkStateSnapshot fueled_AppendStateSnapshot : fueled.

Lemma fueled_run_effect eff : fueled (run_effect eff).
Proof. destruct eff; simpl; fuel. Qed.

#[export] Hint Resolve fueled_run_effect : fueled.

Lemma fueled_call_step_Apply env step preview : fueled (call_step_Apply env step preview).
Proof. unfold call_step_Apply. fuel. Qed.

#[export] Hint Resolve fueled_call_step_Apply : fueled.

Lemma fueled_Apply env step preview : fueled (Apply env step preview).
Proof. unfold Apply, Step_URN. fuel. Qed.

Lemma fueled_Provider env t : fueled (Provider env t).
Proof. unfold Provider. fuel. Qed.

Lemma fueled_issueCheckErrors env new urn failures :
  fueled (issueCheckErrors env new urn failures).
Proof. unfold issueCheckErrors, diag. fuel. Qed.

Lemma fueled_analyzeAll env names new urn inputs : ∀ invalid,
  fueled (analyzeAll env names new urn inputs invalid).
Proof.
  induction names as [|a names IH]; intros invalid; simpl; [apply fueled_ret|].
  unfold diag. fuel.
Qed.

#[export] Hint Resolve fueled_Apply fueled_Provider fueled_issueCheckErrors
  fueled_analyzeAll : fueled.

Lemma fueled_makeRegisterResouceSteps env e : fueled (makeRegisterResouceSteps env e).
Proof. unfold makeRegisterResouceSteps, diag. fuel. Qed.

Lemma fueled_registerResourceOutputs e : fueled (registerResourceOutputs e).
Proof. unfold registerResourceOutputs. fuel. Qed.

Lemma fueled_computeDeletes_from rs n : ∀ dels, fueled (computeDeletes_from rs n dels).
Proof.
  induction n as [|i IH]; intros dels; simpl; [apply fueled_ret|].
  fuel.
Qed.

#[export] Hint Resolve fueled_computeDeletes_from : fueled.

Lemma fueled_computeDeletes : fueled computeDeletes.
Proof. unfold computeDeletes. fuel. Qed.

Lemma fueled_nextDeleteStep : fueled nextDeleteStep.
Proof. unfold nextDeleteStep. fuel. Qed.

#[export] Hint Resolve fueled_makeRegisterResouceSteps fueled_registerResourceOutputs
  fueled_computeDeletes fueled_nextDeleteStep : fueled.

Lemma registerResourceOutputs_inv e w r w' :
  registerResourceOutputs e w = Ok r w' →
  ∃ reg, regs (iter w) !! out_URN e = Some reg
         ∧ regs (iter w') = delete (out_URN e) (regs (iter w))
         ∧ srcpos w' = srcpos w.
Proof.
  unfold registerResourceOutputs. intros H.
  apply bind_inv in H as (it & w1 & Hit & H). injection Hit as <- <-.
  destruct (regs (iter w) !! out_URN e) as [reg|] eqn:Hreg; [|done].
  exists reg. split; [done|].
  apply bind_inv in H as ([] & w1 & Hset & H). injection Hset as <-.
  apply bind_inv in H as ([] & w2 & Hout & H).
  assert (Hw2 : regs (iter w2) = delete (out_URN e) (regs (iter w))
                ∧ srcpos w2 = srcpos w).
  { destruct (out_Outputs e); [|by apply ret_inv in Hout as [_ <-]].
    destruct (New reg); [|done]. unfold update in Hout. mprim. by minv. }
  destruct Hw2 as [<- <-].
  destruct (opt_Events (opts (iter w))); mprim; by minv.
Qed.

Lemma size_delete_pending (m : gmap URN Step) i x :
  m !! i = Some x → size m = S (size (delete i m)).
Proof.
  intros H. rewrite <-(insert_delete_id m i x H) at 1.
  apply map_size_insert_None, lookup_delete_eq.
Qed.

Lemma Next_loop_ends env : ∀ fuel w,
  (size (regs (iter w)) + 2 ≤ fuel)%nat → Next_loop env fuel w ≠ OutOfFuel.
Proof.
  induction fuel as [|fuel IH]; intros w Hfuel; [lia|].
  simpl. unfold get_iter, call_src_Next, set_iter. munfold.
  destruct (done (iter w)) eqn:Hd; [done|].
  destruct (stepqueue (iter w)) as [|step rest] eqn:Hq; [|done].
  destruct (srcdone (iter w)) eqn:Hsd; simpl.
  - pose proof (fueled_nextDeleteStep w).
    destruct (nextDeleteStep w) as [[st|] w1|msg|]; done.
  - destruct (src_Next env (srcpos w)) as [[event|] [err|]]; try done.
    + destruct event as [e|e|kind]; [| |done].
      * match goal with |- context [makeRegisterResouceSteps env e ?w1] =>
          pose proof (fueled_makeRegisterResouceSteps env e w1);
          destruct (makeRegisterResouceSteps env e w1) as [[steps [err|]] w2|msg|]
        end; try done.
        destruct steps as [|s1 [|s2 rest]]; done.
      * match goal with |- context [registerResourceOutputs e ?w1] =>
          pose proof (fueled_registerResourceOutputs e w1);
          destruct (registerResourceOutputs e w1) as [[err|] w2|msg|] eqn:Hout
        end; try done.
        apply registerResourceOutputs_inv in Hout as (reg & Hreg & Hregs & _).
        simpl in Hreg, Hregs. apply IH. rewrite Hregs.
        apply size_delete_pending in Hreg. lia.
    + match goal with |- context [computeDeletes ?w1] =>
        pose proof (fueled_computeDeletes w1);
        destruct (computeDeletes w1) as [dels w2|msg|] eqn:Hcd
      end; try done.
      apply computeDeletes_inv in Hcd as [-> _].
      destruct fuel as [|fuel]; [lia|].
      simpl. unfold get_iter. munfold. simpl. rewrite Hd, Hq. simpl.
      match goal with |- context [nextDeleteStep ?w1] =>
        pose proof (fueled_nextDeleteStep w1);
        destruct (nextDeleteStep w1) as [[st|] w2|msg|]
      end; done.
Qed.


(** ** What a registration does, path by path *)

Lemma inputs_set_refl new h : inputs_set new h h.
Proof. by left. Qed.

Lemma inputs_set_update new h h' s inputs :
  inputs_set new h h' → h' !! new = Some s →
  inputs_set new h (<[new := with_Inputs s inputs]> h').
Proof.
  intros [->|(s0 & i0 & Hs0 & ->)] Hs; right.
  - by exists s, inputs.
  - exists s0, inputs. split; [done|].
    rewrite list_lookup_insert_eq in Hs by (by eapply lookup_lt_Some).
    injection Hs as <-. by rewrite list_insert_insert_eq.
Qed.

Lemma inputs_set_trans new h1 h2 h3 :
  inputs_set new h1 h2 → inputs_set new h2 h3 → inputs_set new h1 h3.
Proof.
  intros H12 [->|(s & i & Hs & ->)]; [done|]. by apply inputs_set_update.
Qed.

Lemma extends_refl custom tr : extends custom tr tr.
Proof. exists []. by rewrite app_nil_r. Qed.

Lemma extends_trans custom t1 t2 t3 :
  extends custom t1 t2 → extends custom t2 t3 → extends custom t1 t3.
Proof.
  intros (a & -> & Ha) (b & -> & Hb). exists (a ++ b).
  by rewrite app_assoc, forallb_app, Ha, Hb.
Qed.

Lemma extends_snoc custom t1 t2 c :
  extends custom t1 t2 → planning_call custom c = true → extends custom t1 (t2 ++ [c]).
Proof.
  intros H Hc. eapply extends_trans; [exact H|]. exists [c]. simpl. by rewrite Hc.
Qed.

Ltac solve_extends :=
  repeat first
    [ apply extends_refl
    | assumption
    | match goal with
      | |- extends _ _ (_ ++ [_]) => apply extends_snoc; [|reflexivity]
      | H : extends _ ?t2 ?t3 |- extends _ _ ?t3 =>
        apply (extends_trans _ _ t2 t3); [|exact H]
      end ].

Lemma planning_refl custom new w : planning custom new w w.
Proof.
  repeat split; [|apply inputs_set_refl]. exists []. by rewrite app_nil_r.
Qed.

Lemma planning_trans custom new w1 w2 w3 :
  planning custom new w1 w2 → planning custom new w2 w3 → planning custom new w1 w3.
Proof.
  intros (Hi1 & Hp1 & (t1 & Ht1 & Hf1) & Hh1) (Hi2 & Hp2 & (t2 & Ht2 & Hf2) & Hh2).
  split; [congruence|]. split; [congruence|]. split; [|by eapply inputs_set_trans].
  exists (t1 ++ t2). split; [by rewrite Ht2, Ht1, app_assoc|].
  by rewrite forallb_app, Hf1, Hf2.
Qed.

Lemma planning_log custom new w c :
  planning_call custom c = true → planning custom new w (add_trace w [c]).
Proof.
  intros Hc. repeat split; [|apply inputs_set_refl]. exists [c]. split; [done|].
  simpl. by rewrite Hc.
Qed.

Lemma planning_update custom new w s inputs :
  heap w !! new = Some s →
  planning custom new w
    (mkWorld (iter w) (<[new := with_Inputs s inputs]> (heap w)) (srcpos w) (trace w)).
Proof.
  intros Hs. repeat split; simpl.
  - exists []. by rewrite app_nil_r.
  - right. by exists s, inputs.
Qed.

Lemma planning_custom new w w' : planning false new w w' → ∀ c, planning c new w w'.
Proof.
  intros (Hi & Hp & (tr & Ht & Hf) & Hh) c. repeat split; try done.
  exists tr. split; [done|]. rewrite forallb_forall in *. intros x Hx.
  specialize (Hf x Hx). destruct x; simpl in *; try done.
Qed.

Lemma diag_planning custom new d w r w' : diag d w = Ok r w' → planning custom new w w'.
Proof. intros H. minv. by apply (planning_log custom new w (CDiag d)). Qed.

Lemma deref_inv a w s w' : deref a w = Ok s w' → w' = w ∧ heap w !! a = Some s.
Proof. unfold deref. destruct (heap w !! a); by intros [= -> ->]. Qed.

Lemma issueCheckErrors_planning env custom new' new urn failures w r w' :
  issueCheckErrors env new urn failures w = Ok r w' → planning custom new' w w'.
Proof.
  unfold issueCheckErrors. intros H.
  destruct failures as [|f fs]; [apply ret_inv in H as [_ <-]; apply planning_refl|].
  apply bind_inv in H as (s & w1 & Hd & H). apply deref_inv in Hd as [-> _].
  apply bind_inv in H as ([] & w2 & Hf & H). apply ret_inv in H as [_ <-].
  refine (forEach_frame (planning custom new') _ _ (planning_refl _ _)
            (planning_trans _ _) _ _ _ _ Hf).
  intros failure w0 r0 w0' H0. case_decide; by eapply diag_planning.
Qed.

Lemma analyzeAll_planning custom new' env names new urn inputs : ∀ invalid w r w',
  analyzeAll env names new urn inputs invalid w = Ok r w' →
  planning custom new' w w' ∧ (r = inr false → invalid = false).
Proof.
  induction names as [|a names IH]; intros invalid w r w' H; simpl in H.
  - apply ret_inv in H as [<- <-]. split; [apply planning_refl|congruence].
  - apply bind_inv in H as ([] & w1 & Hl & H).
    assert (planning custom new' w w1) as Hw1.
    { unfold log in Hl. injection Hl as <-.
      by apply (planning_log custom new' w (CHostAnalyzer a)). }
    cut (planning custom new' w1 w' ∧ (r = inr false → invalid = false)).
    { intros [? ?]. split; [by eapply planning_trans|done]. }
    clear Hl Hw1.
    destruct (Host_Analyzer env a) as [[an|] [err|]];
      try (apply ret_inv in H as [<- <-]; split; [apply planning_refl|done]).
    apply bind_inv in H as (s & w2 & Hd & H). apply deref_inv in Hd as [-> _].
    apply bind_inv in H as ([] & w3 & Hl & H).
    assert (planning custom new' w1 w3) as Hw3.
    { unfold log in Hl. injection Hl as <-.
      by apply (planning_log custom new' w1 (CAnalyze an (st_Type s) inputs)). }
    cut (planning custom new' w3 w' ∧ (r = inr false → invalid = false)).
    { intros [? ?]. split; [by eapply planning_trans|done]. }
    clear Hl Hw3.
    destruct (Analyze env an (st_Type s) inputs) as [failures [err|]];
      try (apply ret_inv in H as [<- <-]; split; [apply planning_refl|done]).
    apply bind_inv in H as ([] & w4 & Hf & H).
    apply IH in H as [Hs Hinv]. split.
    + eapply planning_trans; [|exact Hs].
      refine (forEach_frame (planning custom new') _ _ (planning_refl _ _)
                (planning_trans _ _) _ _ _ _ Hf).
      intros failure w0 r0 w0' H0. by eapply diag_planning.
    + intros Hr. specialize (Hinv Hr). by destruct failures.
Qed.

Ltac solve_inputs_set :=
  repeat first
    [ apply inputs_set_refl
    | assumption
    | match goal with
      | |- inputs_set _ _ (<[_ := with_Inputs _ _]> _) =>
        eapply inputs_set_update; [|eassumption]
      | H : inputs_set _ ?h2 ?h3 |- inputs_set _ _ ?h3 =>
        apply (inputs_set_trans _ _ h2 h3); [|exact H]
      end ].

Ltac solve_planning :=
  lazymatch goal with
  | |- planning ?c ?n _ _ =>
    repeat match goal with
    | H : issueCheckErrors _ _ _ _ _ = Ok _ _ |- _ =>
      apply (issueCheckErrors_planning _ c n) in H
    | H : analyzeAll _ _ _ _ _ _ _ = Ok _ _ |- _ =>
      apply (analyzeAll_planning c n) in H as [H ?]
    end;
    repeat match goal with
    | H : planning _ _ _ _ |- _ => destruct H as (? & ? & ? & ?)
    end;
    unfold planning; simpl in *;
    split; [congruence|]; split; [congruence|]; split;
    [solve_extends|solve_inputs_set]
  end.

Lemma registered_as_intro env e w r w' wp wk (f : PlanIterator → PlanIterator) :
  iter wp = set_urns (<[reg_urn env w e := true]> (urns (iter w))) (iter w) →
  heap wp = heap w ++ [fresh_state env w e (g_Properties (reg_Goal e))] →
  srcpos wp = srcpos w →
  trace wp = trace w ++ (if has (urns (iter w)) (reg_urn env w e)
                         then [CDiag (ErrorDuplicateResourceURN (reg_urn env w e))]
                         else []) →
  planning (g_Custom (reg_Goal e)) (length (heap w)) wp wk →
  planning (g_Custom (reg_Goal e)) (length (heap w)) (with_iter wk (f (iter wk))) w' →
  filed env e w r (f (iter wp)) →
  registered_as env e w r w'.
Proof.
  intros Hit Hh Hp Ht (Hi1 & Hp1 & (t1 & Ht1 & Hf1) & Hh1)
    (Hi2 & Hp2 & (t2 & Ht2 & Hf2) & Hh2) Hfiled.
  simpl in *. unfold registered_as. split; [congruence|]. split; [|split].
  - exists (t1 ++ t2). split; [|by rewrite forallb_app, Hf1, Hf2].
    by rewrite Ht2, Ht1, Ht, <-!app_assoc.
  - pose proof (inputs_set_trans _ _ _ _ Hh1 Hh2) as [->|(s & i & Hs & ->)].
    + by exists (g_Properties (reg_Goal e)).
    + rewrite Hh in *. rewrite lookup_alloc in Hs. injection Hs as <-.
      exists i. by rewrite insert_alloc.
  - by rewrite Hi2, Hi1.
Qed.

Lemma planning_with_iter custom new w : planning custom new (with_iter w (iter w)) w.
Proof.
  repeat split; [|apply inputs_set_refl]. exists []. simpl. by rewrite app_nil_r.
Qed.

Lemma registered_as_error env e w r w' wp :
  iter wp = set_urns (<[reg_urn env w e := true]> (urns (iter w))) (iter w) →
  heap wp = heap w ++ [fresh_state env w e (g_Properties (reg_Goal e))] →
  srcpos wp = srcpos w →
  trace wp = trace w ++ (if has (urns (iter w)) (reg_urn env w e)
                         then [CDiag (ErrorDuplicateResourceURN (reg_urn env w e))]
                         else []) →
  planning (g_Custom (reg_Goal e)) (length (heap w)) wp w' →
  r.1 = [] → is_Some r.2 →
  registered_as env e w r w'.
Proof.
  intros Hit Hh Hp Ht Hpl Hr1 [err Hr2].
  eapply (registered_as_intro env e w r w' wp w' (λ it, it)); try done.
  - apply planning_with_iter.
  - unfold filed. rewrite Hr2. split; [done|]. by left.
Qed.

Lemma makeRegisterResouceSteps_registered_as env e w r w' :
  makeRegisterResouceSteps env e w = Ok r w' → registered_as env e w r w'.
Proof.
  unfold makeRegisterResouceSteps. fold (reg_urn env w e). intros H.
  set (u := reg_urn env w e) in *.
  set (new := length (heap w)).
  apply bind_inv in H as (it & w0 & Hit & H). unfold get_iter in Hit.
  injection Hit as <- <-. cbv beta zeta in H. fold (reg_urn env w e) in H. fold u in H.
  (* the duplicate test *)
  phase (λ (wa : World) (a : bool) w1,
           a = has (urns (iter wa)) u
           ∧ iter w1 = iter wa ∧ heap w1 = heap wa ∧ srcpos w1 = srcpos wa
           ∧ trace w1 = trace wa ++ (if has (urns (iter wa)) u
                                     then [CDiag (ErrorDuplicateResourceURN u)] else []))
        ltac:(destruct (has _ _); minv; simpl; rewrite ?app_nil_r; done).
  intros dup w0 (Hdup & Hi0 & Hh0 & Hp0 & Ht0) H.
  (* recording the URN and allocating the new state *)
  phase (λ (wa : World) (a : unit) w1,
           w1 = with_iter wa (set_urns (<[u := true]> (urns (iter wa))) (iter wa)))
        ltac:(minv; done).
  intros _ ? -> H.
  phase (λ (wa : World) (a : ptr) w1,
           a = length (heap wa)
           ∧ w1 = mkWorld (iter wa)
                    (heap wa ++ [fresh_state env w e (g_Properties (reg_Goal e))])
                    (srcpos wa) (trace wa))
        ltac:(minv; done).
  intros new' wp [Hnew Hwp] H. simpl in Hnew, Hwp. rewrite Hh0 in Hnew. fold new in Hnew.
  subst new'.
  assert (Hwp_it : iter wp = set_urns (<[u := true]> (urns (iter w))) (iter w))
    by (subst wp; simpl; by rewrite Hi0).
  assert (Hwp_h : heap wp = heap w ++ [fresh_state env w e (g_Properties (reg_Goal e))])
    by (subst wp; simpl; by rewrite Hh0).
  assert (Hwp_p : srcpos wp = srcpos w) by (by subst wp).
  assert (Hwp_t : trace wp = trace w ++ (if has (urns (iter w)) u
                                         then [CDiag (ErrorDuplicateResourceURN u)] else []))
    by (by subst wp).
  clear Hwp Hi0 Hh0 Hp0 Ht0 w0.
  assert (Hlive : heap wp !! new = Some (fresh_state env w e (g_Properties (reg_Goal e))))
    by (rewrite Hwp_h; apply lookup_alloc).
  (* the old state *)
  phase (λ (wa : World) (a : option (ptr * PropertyMap)) w1,
           w1 = wa ∧ fst <$> a = Olds (p (iter w)) !! u)
        ltac:(destruct (Olds _ !! _); minv; done).
  intros hasold ? [-> Hold] H.
  (* the provider *)
  phase (λ (wa : World) (a : list Step * option error + option string) w1,
           planning (g_Custom (reg_Goal e)) new wa w1
           ∧ match a with
             | inl r => r.1 = [] ∧ is_Some r.2
             | inr prov => is_Some prov → g_Custom (reg_Goal e) = true
             end)
        ltac:(unfold Provider in *; destruct (g_Custom (reg_Goal e)) eqn:Hcustom; minv;
              (split; [first [apply planning_refl
                             |by apply (planning_log true new _ (CHostProvider _))]
                      |simpl; eauto; by intros [? ?]])).
  { intros (Hpl & Hr1 & Hr2). by eapply registered_as_error. }
  intros prov w1 [Hpl1 Hprov] H.
  (* the event's inputs *)
  phase (λ (wa : World) (a : PropertyMap) w1, w1 = wa) ltac:(minv; done).
  intros news ? -> H.
  (* the first check *)
  assert (Hlive1 : is_Some (heap w1 !! new)).
  { destruct Hpl1 as (_ & _ & _ & [->|(s & i & Hs & ->)]); [by eexists|].
    apply lookup_lt_is_Some. rewrite length_insert. by eapply lookup_lt_Some. }
  phase (λ (wa : World) (a : list Step * option error + PropertyMap * bool) w1,
           planning (g_Custom (reg_Goal e)) new wa w1
           ∧ match a with
             | inl r => r.1 = [] ∧ is_Some r.2
             | inr (i, inv) => inv = false → dup = false
             end)
        ltac:(destruct prov as [pv|];
              [rewrite (Hprov ltac:(done)) in *|];
              minv; (split; [solve_planning|simpl; eauto; by destruct (has _ _)])).
  { intros (Hpl & Hr1 & Hr2). eapply registered_as_error; try done.
    by eapply planning_trans. }
  intros [inputs invalid] w2 [Hpl2 Hinv] H.
  pose proof (planning_trans _ _ _ _ _ Hpl1 Hpl2) as Hpl12. clear Hpl1 Hpl2 Hlive1 w1.
  (* the analyzers *)
  phase (λ (wa : World) (a : list Step * option error + bool) w1,
           planning (g_Custom (reg_Goal e)) new wa w1
           ∧ match a with
             | inl r => r.1 = [] ∧ is_Some r.2
             | inr inv => inv = false → invalid = false
             end)
        ltac:(minv;
              match goal with
              | H : analyzeAll _ _ _ _ _ _ _ = Ok _ _ |- _ =>
                apply (analyzeAll_planning (g_Custom (reg_Goal e)) new) in H as [H ?]
              end; (split; [done|simpl; eauto; intros ->; auto])).
  { intros (Hpl & Hr1 & Hr2). eapply registered_as_error; try done.
    by eapply planning_trans. }
  intros invalid' w3 [Hpl3 Hinv'] H.
  pose proof (planning_trans _ _ _ _ _ Hpl12 Hpl3) as Hpl13. clear Hpl12 Hpl3 w2.
  destruct invalid'.
  { apply ret_inv in H as [<- <-]. by eapply registered_as_error. }
  assert (Hfresh : has (urns (iter w)) u = false).
  { rewrite <-Hdup. apply Hinv, Hinv'. done. }
  clear Hdup Hinv Hinv' dup invalid.
  assert (Hfin : ∀ wk (i : Intent),
    planning (g_Custom (reg_Goal e)) new wp wk →
    planning (g_Custom (reg_Goal e)) new (with_iter wk (mark i u (iter wk))) w' →
    filed env e w r (mark i u (iter wp)) → registered_as env e w r w').
  { intros wk i ? ? ?. by eapply (registered_as_intro env e w r w' wp wk (mark i u)). }
  destruct hasold as [[old oi]|]; simpl in Hold; symmetry in Hold.
  - phase (λ (wa : World) (a : State) w1, w1 = wa) ltac:(minv; done).
    intros so ? -> H.
    phase (λ (wa : World) (a : State) w1, w1 = wa) ltac:(minv; done).
    intros sn ? -> H.
    phase (λ (wa : World) (a : unit) w1, w1 = wa) ltac:(minv; done).
    intros _ ? -> H.
    destruct (negb (DeepEquals env oi inputs)).
    + phase (λ (wa : World) (a : list Step * option error + DiffResult) w1,
               planning (g_Custom (reg_Goal e)) new wa w1
               ∧ match a with inl r => r.1 = [] ∧ is_Some r.2 | inr _ => True end)
            ltac:(destruct prov as [pv|];
                  [rewrite (Hprov ltac:(done)) in *|];
                  minv; (split; [solve_planning|simpl; eauto])).
      { intros (Hpl & Hr1 & Hr2). eapply registered_as_error; try done.
        by eapply planning_trans. }
      intros diff w4 [Hpl4 _] H.
      pose proof (planning_trans _ _ _ _ _ Hpl13 Hpl4) as Hpl14. clear Hpl13 Hpl4 w3.
      destruct (Replace diff).
      * phase (λ (wa : World) (a : unit) w1,
                 w1 = with_iter wa (mark IntentReplace u (iter wa)))
              ltac:(minv; done).
        intros _ ? -> H.
        phase (λ (wa : World) (a : list Step * option error + unit) w1,
                 planning (g_Custom (reg_Goal e)) new wa w1
                 ∧ match a with inl r => r.1 = [] ∧ is_Some r.2 | inr _ => True end)
              ltac:(destruct prov as [pv|];
                    [rewrite (Hprov ltac:(done)) in *|];
                    minv; (split; [solve_planning|simpl; eauto])).
        { intros (Hpl & Hr1 & [err Hr2]). eapply (Hfin w4 IntentReplace); [done|done|].
          unfold filed; fold u. rewrite Hr2. split; [done|]. right. rewrite Hwp_it.
          split; [done|]. split; [by rewrite Hold|done]. }
        intros _ w5 [Hpl5 _] H. apply ret_inv in H as [<- <-].
        eapply (Hfin w4 IntentReplace); [done|done|].
        unfold filed; fold u. simpl. split; [done|]. rewrite Hold. right; right.
        eexists. by rewrite Hwp_it.
      * minv. eapply (Hfin w4 IntentUpdate); [done|apply planning_refl|].
        unfold filed; fold u. simpl. split; [done|]. rewrite Hold. right; left.
        eexists. by rewrite Hwp_it.
    + minv. eapply (Hfin w3 IntentSame); [done|apply planning_refl|].
      unfold filed; fold u. simpl. split; [done|]. rewrite Hold. left. by rewrite Hwp_it.
  - minv. eapply (Hfin w3 IntentCreate); [done|apply planning_refl|].
    unfold filed; fold u. simpl. split; [done|]. rewrite Hold. by rewrite Hwp_it.
Qed.

(** ** Registrations: errors, steps, states and calls *)

Lemma has_true_insert (m : gmap URN bool) u : has m u = true → <[u := true]> m = m.
Proof.
  unfold has. intros H. apply insert_id. destruct (m !! u) as [[]|]; done.
Qed.

(** A registration that returns an error returns no step, and leaves the
    classification as it was but for [replaces]: when the check that a
    replacement re-runs fails, the URN stays marked there.  The URN is
    recorded as seen all the same. *)
Theorem registration_error env e w steps err w' :
  makeRegisterResouceSteps env e w = Ok (steps, Some err) w' →
  steps = []
  ∧ has (urns (iter w')) (reg_urn env w e) = true
  ∧ creates (iter w') = creates (iter w) ∧ updates (iter w') = updates (iter w)
  ∧ sames (iter w') = sames (iter w) ∧ deletes (iter w') = deletes (iter w)
  ∧ stepqueue (iter w') = stepqueue (iter w) ∧ regs (iter w') = regs (iter w)
  ∧ (replaces (iter w') = replaces (iter w)
     ∨ (is_Some (Olds (p (iter w)) !! reg_urn env w e)
        ∧ replaces (iter w') = <[reg_urn env w e := true]> (replaces (iter w)))).
Proof.
  intros H. apply makeRegisterResouceSteps_registered_as in H as (_ & _ & _ & Hf).
  unfold filed in Hf. simpl in Hf. destruct Hf as [-> [->|(_ & Hold & ->)]]; simpl;
    (split; [done|]); (split; [apply has_insert_true; by left|]);
    repeat (split; [done|]); [by left|by right].
Qed.

Lemma registration_error_witness :
  let w' := outcome_world (ex_world_a None)
              (makeRegisterResouceSteps (ex_env [] ex_check_needs_olds ex_apply)
                 ex_reg_a_zone (ex_world_a None)) in
  has (urns (iter w')) (ex_urn "a") = true
  ∧ has (replaces (iter w')) (ex_urn "a") = true
  ∧ creates (iter w') = ∅.
Proof.
  intros w'.
  destruct (registration_error (ex_env [] ex_check_needs_olds ex_apply) ex_reg_a_zone
              (ex_world_a None) [] validationError w')
    as (_ & H1 & H2 & _); [vm_compute; reflexivity|].
  split; [exact H1|]. split; [vm_compute; reflexivity|exact H2].
Defined.

(** A registration that returns no error returns the steps of one intent,
    on a URN it sees for the first time, and marks the URN in the set of
    that intent and in no other: one [Create] when the URN has no old
    state; otherwise one [Same], or one [Update], or a
    [CreateReplacement] followed by the [Replace] of the same old state,
    new state and keys.  The new state of the steps is the one just
    allocated, the old state the one filed under the URN. *)
Theorem registration_steps env e w steps w' :
  makeRegisterResouceSteps env e w = Ok (steps, None) w' →
  let u := reg_urn env w e in
  let new := length (heap w) in
  has (urns (iter w)) u = false
  ∧ ∃ i, iter w' = mark i u (set_urns (<[u := true]> (urns (iter w))) (iter w))
         ∧ match i with
           | IntentCreate => Olds (p (iter w)) !! u = None ∧ steps = [NewCreateStep e new]
           | IntentSame =>
             ∃ old, Olds (p (iter w)) !! u = Some old ∧ steps = [NewSameStep e old new]
           | IntentUpdate =>
             ∃ old stables, Olds (p (iter w)) !! u = Some old
                            ∧ steps = [NewUpdateStep e old new stables]
           | IntentReplace =>
             ∃ old keys, Olds (p (iter w)) !! u = Some old
                         ∧ steps = [NewCreateReplacementStep e old new keys;
                                    NewReplaceStep old new keys]
           end.
Proof.
  intros H u new. apply makeRegisterResouceSteps_registered_as in H as (_ & _ & _ & Hf).
  unfold filed in Hf. simpl in Hf. fold u new in Hf. destruct Hf as [Hfresh Hf].
  split; [done|].
  destruct (Olds (p (iter w)) !! u) as [old|].
  - destruct Hf as [[-> ->]|[(stables & -> & ->)|(keys & -> & ->)]].
    + exists IntentSame. eauto.
    + exists IntentUpdate. eauto.
    + exists IntentReplace. eauto.
  - destruct Hf as [-> ->]. by exists IntentCreate.
Qed.

Lemma registration_steps_witness :
  let w' := outcome_world (ex_world_a None)
              (makeRegisterResouceSteps ex_env_replace ex_reg_a_zone (ex_world_a None)) in
  has (urns (iter (ex_world_a None))) (ex_urn "a") = false
  ∧ ∃ i, iter w' = mark i (ex_urn "a")
                     (set_urns (<[ex_urn "a" := true]> ∅) (iter (ex_world_a None)))
         ∧ i = IntentReplace.
Proof.
  intros w'.
  destruct (registration_steps ex_env_replace ex_reg_a_zone (ex_world_a None)
              [NewCreateReplacementStep ex_reg_a_zone 0 1 ["zone"];
               NewReplaceStep 0 1 ["zone"]] w')
    as (H1 & i & H2 & H3); [vm_compute; reflexivity|].
  split; [exact H1|]. exists i. split; [exact H2|].
  destruct i; try reflexivity.
  - destruct H3 as [_ [=]].
  - destruct H3 as (? & ? & _ & [=]).
  - destruct H3 as (? & _ & [=]).
Defined.

(** Registering a URN that is already recorded always ends in an error:
    no step is returned, the first thing said is the diagnostic of the
    duplicate, and the iterator is left exactly as it was. *)
Theorem registration_duplicate env e w r w' :
  has (urns (iter w)) (reg_urn env w e) = true →
  makeRegisterResouceSteps env e w = Ok r w' →
  r.1 = [] ∧ is_Some r.2 ∧ iter w' = iter w
  ∧ ∃ tr, trace w' = trace w ++ CDiag (ErrorDuplicateResourceURN (reg_urn env w e)) :: tr.
Proof.
  intros Hdup H.
  apply makeRegisterResouceSteps_registered_as in H as (_ & (tr & Ht & _) & _ & Hf).
  rewrite Hdup in Ht. unfold filed in Hf. rewrite Hdup in Hf.
  assert (Hit : set_urns (<[reg_urn env w e := true]> (urns (iter w))) (iter w) = iter w).
  { rewrite has_true_insert by done. by destruct (iter w). }
  rewrite Hit in Hf.
  destruct r as [steps [err|]]; simpl in Hf.
  - destruct Hf as [-> [->|(? & _)]]; [|done]. simpl. eauto.
  - by destruct Hf.
Qed.

Lemma registration_duplicate_witness :
  let o := makeRegisterResouceSteps ex_env_replace ex_reg_a_same ex_world_a_seen in
  (outcome_value ([], None) o).1 = []
  ∧ is_Some (outcome_value ([], None) o).2
  ∧ iter (outcome_world ex_world_a_seen o) = iter ex_world_a_seen.
Proof.
  intros o.
  destruct (registration_duplicate ex_env_replace ex_reg_a_same ex_world_a_seen
              (outcome_value ([], None) o) (outcome_world ex_world_a_seen o))
    as (H1 & H2 & H3 & _); [vm_compute; reflexivity..|].
  split; [exact H1|]. split; [exact H2|exact H3].
Defined.

(** A registration that returns has allocated exactly one state and has
    written no state that was there before: the new state has the type,
    the custom flag and the parent of the goal and the URN of the
    registration, no ID, no outputs, and is not marked for deletion. *)
Theorem registration_heap env e w r w' :
  makeRegisterResouceSteps env e w = Ok r w' →
  length (heap w') = S (length (heap w))
  ∧ (∀ a s, heap w !! a = Some s → heap w' !! a = Some s)
  ∧ ∃ s, heap w' !! length (heap w) = Some s
         ∧ st_URN s = reg_urn env w e ∧ st_Type s = g_Type (reg_Goal e)
         ∧ st_Custom s = g_Custom (reg_Goal e) ∧ st_Parent s = g_Parent (reg_Goal e)
         ∧ st_ID s = "" ∧ st_Outputs s = ∅ ∧ st_Delete s = false.
Proof.
  intros H.
  apply makeRegisterResouceSteps_registered_as in H as (_ & _ & (inputs & ->) & _).
  split; [rewrite length_app; simpl; lia|]. split.
  - intros a s. apply lookup_alloc_old.
  - exists (fresh_state env w e inputs). split; [apply lookup_alloc|done].
Qed.

Lemma registration_heap_witness :
  let w' := outcome_world (ex_world_a None)
              (makeRegisterResouceSteps ex_env_replace ex_reg_a_zone (ex_world_a None)) in
  length (heap w') = 2
  ∧ heap w' !! 0 = Some (ex_state "a" (ex_k 1) "")
  ∧ ∃ s, heap w' !! 1 = Some s ∧ st_URN s = ex_urn "a" ∧ st_ID s = "".
Proof.
  intros w'.
  destruct (registration_heap ex_env_replace ex_reg_a_zone (ex_world_a None)
              (outcome_value ([], None)
                 (makeRegisterResouceSteps ex_env_replace ex_reg_a_zone (ex_world_a None)))
              w')
    as (H1 & H2 & s & H3 & H4 & _ & _ & _ & H5 & _); [vm_compute; reflexivity|].
  split; [exact H1|]. split; [apply H2; reflexivity|].
  exists s. split; [exact H3|]. split; [exact H4|exact H5].
Defined.

(** A registration leaves the source alone and talks only to the
    diagnostics sink, to the analyzers and, for a custom resource, to the
    host's provider table and the provider: it calls no hook and no step,
    and for a resource that is not custom it calls no provider. *)
Theorem registration_calls env e w r w' :
  makeRegisterResouceSteps env e w = Ok r w' →
  srcpos w' = srcpos w
  ∧ ∃ tr, trace w' = trace w ++ tr
          ∧ Forall (λ c, planning_call (g_Custom (reg_Goal e)) c = true) tr.
Proof.
  intros H.
  apply makeRegisterResouceSteps_registered_as in H as (Hp & (tr & Ht & Hf) & _ & _).
  split; [done|]. eexists. split; [exact Ht|].
  apply Forall_app. split.
  - destruct (has _ _); by repeat constructor.
  - apply Forall_forall. intros c Hc. rewrite forallb_forall in Hf. apply Hf.
    by apply list_elem_of_In.
Qed.

Lemma registration_calls_witness :
  let w' := outcome_world ex_world_empty
              (makeRegisterResouceSteps ex_env_replace ex_reg_logical ex_world_empty) in
  ∃ tr, trace w' = trace ex_world_empty ++ tr
        ∧ Forall (λ c, planning_call false c = true) tr.
Proof.
  intros w'.
  destruct (registration_calls ex_env_replace ex_reg_logical ex_world_empty
              (outcome_value ([], None)
                 (makeRegisterResouceSteps ex_env_replace ex_reg_logical ex_world_empty))
              w')
    as (_ & H); [vm_compute; reflexivity|].
  exact H.
Defined.


(** ** One call of [Next] *)

Lemma Next_loop_result env : ∀ fuel w r w',
  Next_loop env fuel w = Ok r w' → Next_result env w r w'.
Proof.
  induction fuel as [|fuel IH]; intros w r w' H; [discriminate H|].
  simpl in H. apply bind_inv in H as (it & w1 & Hit & H). injection Hit as <- <-.
  destruct (done (iter w)) eqn:Hdone.
  { apply ret_inv in H as [<- <-]. exact (Next_already_done env w Hdone). }
  destruct (stepqueue (iter w)) as [|step rest] eqn:Hq.
  - destruct (srcdone (iter w)) eqn:Hsd; simpl in H.
    + apply bind_inv in H as (st & w1 & Hn & H).
      destruct st as [step|].
      * apply ret_inv in H as [<- <-]. exact (Next_delete env w step w1 Hdone Hq Hsd Hn).
      * apply bind_inv in H as ([] & w2 & Hset & H). apply ret_inv in H as [<- <-].
        injection Hset as <-. exact (Next_finished env w w1 Hdone Hq Hsd Hn).
    + apply bind_inv in H as (a & w1 & Hsrc & H). unfold call_src_Next in Hsrc.
      injection Hsrc as <- <-.
      destruct (src_Next env (srcpos w)) as [[event|] [err|]] eqn:Hans.
      * apply ret_inv in H as [<- <-].
        exact (Next_source_error env w _ err Hdone Hq Hsd Hans).
      * destruct event as [e|e|kind]; [| |discriminate H].
        -- apply bind_inv in H as ([steps steperr] & w2 & Hreg & H).
           destruct steperr as [steperr|].
           { apply ret_inv in H as [<- <-].
             exact (Next_register_error env w e steps steperr w2 Hdone Hq Hsd Hans Hreg). }
           destruct steps as [|s1 rest]; [discriminate H|].
           apply bind_inv in H as ([] & w3 & Hset & H). apply ret_inv in H as [<- <-].
           pose proof (Next_register env w e s1 rest w2 Hdone Hq Hsd Hans Hreg) as HR.
           destruct rest.
           ++ apply ret_inv in Hset as [_ <-]. exact HR.
           ++ injection Hset as <-. exact HR.
        -- apply bind_inv in H as (err & w2 & Hout & H).
           destruct err as [err|].
           { apply ret_inv in H as [<- <-].
             exact (Next_outputs_error env w e err w2 Hdone Hq Hsd Hans Hout). }
           exact (Next_outputs env w e w2 r w' Hdone Hq Hsd Hans Hout (IH _ _ _ H)).
      * apply ret_inv in H as [<- <-].
        exact (Next_source_error env w _ err Hdone Hq Hsd Hans).
      * apply bind_inv in H as ([] & w2 & Hset & H). injection Hset as <-.
        apply bind_inv in H as (dels & w3 & Hcd & H).
        apply bind_inv in H as ([] & w4 & Hset & H). injection Hset as <-.
        exact (Next_source_end env w dels w3 r w' Hdone Hq Hsd Hans Hcd (IH _ _ _ H)).
  - apply bind_inv in H as ([] & w2 & Hset & H). apply ret_inv in H as [<- <-].
    injection Hset as <-. exact (Next_from_queue env w step rest Hdone Hq).
Qed.

Lemma Next_Next_result env w r w' : Next env w = Ok r w' → Next_result env w r w'.
Proof. intros H. exact (Next_loop_result env (Next_fuel w) w r w' H). Qed.

(** What each operation inside the loop does to the iterator. *)
Lemma makeRegisterResouceSteps_world env e w r w1 :
  makeRegisterResouceSteps env e w = Ok r w1 →
  (iter w1 = set_urns (<[reg_urn env w e := true]> (urns (iter w))) (iter w)
   ∨ ∃ i, iter w1 = mark i (reg_urn env w e)
                      (set_urns (<[reg_urn env w e := true]> (urns (iter w))) (iter w)))
  ∧ srcpos w1 = srcpos w ∧ (∃ s, heap w1 = heap w ++ [s]).
Proof.
  intros H. apply makeRegisterResouceSteps_registered_as in H as (Hp & _ & [i Hh] & Hf).
  split; [|split; [done|by eexists]].
  unfold filed in Hf. destruct (r.2).
  - destruct Hf as [_ [->|(_ & _ & ->)]]; [by left|right; by exists IntentReplace].
  - destruct Hf as [_ Hf]. right. destruct (Olds _ !! _).
    + destruct Hf as [[_ ->]|[(? & _ & ->)|(? & _ & ->)]];
        [by exists IntentSame|by exists IntentUpdate|by exists IntentReplace].
    + destruct Hf as [_ ->]. by exists IntentCreate.
Qed.

Lemma registerResourceOutputs_world e w r w1 :
  registerResourceOutputs e w = Ok r w1 →
  iter w1 = set_regs (delete (out_URN e) (regs (iter w))) (iter w)
  ∧ is_Some (regs (iter w) !! out_URN e)
  ∧ srcpos w1 = srcpos w ∧ length (heap w1) = length (heap w).
Proof.
  unfold registerResourceOutputs. intros H.
  apply bind_inv in H as (it & w0 & Hit & H). injection Hit as <- <-.
  destruct (regs (iter w) !! out_URN e) as [reg|] eqn:Hreg; [|done].
  apply bind_inv in H as ([] & w0 & Hset & H). injection Hset as <-.
  apply bind_inv in H as ([] & w2 & Hout & H).
  assert (Hw2 : iter w2 = set_regs (delete (out_URN e) (regs (iter w))) (iter w)
                ∧ srcpos w2 = srcpos w ∧ length (heap w2) = length (heap w)).
  { destruct (out_Outputs e); [|by apply ret_inv in Hout as [_ <-]].
    destruct (New reg); [|done]. unfold update in Hout. mprim.
    minv; repeat split; rewrite ?length_insert; done. }
  destruct Hw2 as (<- & <- & <-).
  split; [|split; [by eexists|]];
    destruct (opt_Events (opts (iter w))); mprim; by minv.
Qed.

Lemma nextDeleteStep_world w r w1 :
  nextDeleteStep w = Ok r w1 →
  srcpos w1 = srcpos w ∧ heap w1 = heap w ∧ trace w1 = trace w
  ∧ match r with
    | None => delqueue (iter w) = [] ∧ iter w1 = iter w
    | Some step =>
      ∃ d q s, delqueue (iter w) = d :: q ∧ heap w !! d = Some s
               ∧ step = NewDeleteStep d (has (replaces (iter w)) (st_URN s))
               ∧ iter w1 = set_deletes (<[st_URN s := true]> (deletes (iter w)))
                             (set_delqueue q (iter w))
    end.
Proof.
  intros H. apply nextDeleteStep_inv in H as [(Hq & -> & ->)|(d & q & s & Hq & Hs & -> & ->)].
  - done.
  - repeat split. by exists d, q, s.
Qed.

Ltac next_worlds :=
  repeat match goal with
  | H : makeRegisterResouceSteps _ _ _ = Ok _ _ |- _ =>
    apply makeRegisterResouceSteps_world in H as ([H|[[] H]] & ? & [? ?])
  | H : registerResourceOutputs _ _ = Ok _ _ |- _ =>
    apply registerResourceOutputs_world in H as (H & ? & ? & ?)
  | H : computeDeletes _ = Ok _ _ |- _ => apply computeDeletes_inv in H as [-> ->]
  | H : nextDeleteStep _ = Ok (Some _) _ |- _ =>
    apply nextDeleteStep_world in H as (? & ? & ? & ? & ? & ? & ? & ? & ? & H)
  | H : nextDeleteStep _ = Ok None _ |- _ =>
    apply nextDeleteStep_world in H as (? & ? & ? & ? & H)
  end.

(** The result of a call and the [done] flag. *)
Lemma Next_result_done env w r w' :
  Next_result env w r w' →
  (r.1 = None ∨ r.2 = None) ∧ (done (iter w') = true ↔ r = (None, None)).
Proof.
  induction 1 as [w Hd|w step rest Hd Hq|w ev err Hd Hq Hs Ha|w e steps err w1 Hd Hq Hs Ha Hr
                 |w e step rest w1 Hd Hq Hs Ha Hr|w e err w1 Hd Hq Hs Ha Ho
                 |w e w1 r w' Hd Hq Hs Ha Ho HN IH|w dels w1 r w' Hd Hq Hs Ha Hc HN IH
                 |w step w1 Hd Hq Hs Hn|w w1 Hd Hq Hs Hn]; try done; simpl;
    next_worlds; simpl in *.
  all: try (split; [by auto|]; split; [|done]).
  all: try (destruct rest; simpl).
  all: try (rewrite ?Hr, ?Ho, ?Hn; simpl; congruence).
  all: try (split; [by auto|]; by split).
Qed.

(** What a call leaves alone, and how far it moves the source. *)
Lemma Next_result_frame env w r w' :
  Next_result env w r w' →
  p (iter w') = p (iter w) ∧ opts (iter w') = opts (iter w)
  ∧ resources (iter w') = resources (iter w) ∧ dones (iter w') = dones (iter w)
  ∧ regs (iter w') ⊆ regs (iter w)
  ∧ (length (heap w) ≤ length (heap w'))%nat
  ∧ (srcpos w ≤ srcpos w')%nat
  ∧ (srcpos w' + (if srcdone (iter w') then 0 else size (regs (iter w')))
     ≤ srcpos w + (if srcdone (iter w) then 0 else size (regs (iter w)) + 1))%nat.
Proof.
  induction 1 as [w Hd|w step rest Hd Hq|w ev err Hd Hq Hs Ha|w e steps err w1 Hd Hq Hs Ha Hr
                 |w e step rest w1 Hd Hq Hs Ha Hr|w e err w1 Hd Hq Hs Ha Ho
                 |w e w1 r w' Hd Hq Hs Ha Ho HN IH|w dels w1 r w' Hd Hq Hs Ha Hc HN IH
                 |w step w1 Hd Hq Hs Hn|w w1 Hd Hq Hs Hn];
    next_worlds; simpl in *.
  all: try (destruct rest; simpl).
  all: repeat match goal with
       | H : is_Some (regs (iter ?w) !! ?k) |- _ =>
         destruct H as [? H]; pose proof (size_delete_pending _ _ _ H)
       end.
  all: try destruct IH as (-> & -> & -> & -> & IHr & IHh & IHp & IHq).
  all: rewrite ?Hr, ?Ho, ?Hn, ?Hs in *; simpl in *.
  all: repeat match goal with
       | H : heap _ = _ |- _ => rewrite H; clear H
       | H : srcpos _ = _ |- _ => rewrite H; clear H
       end; rewrite ?length_app; simpl.
  all: repeat split; try done; try lia.
  all: try (destruct (srcdone (iter w)); lia).
  all: try (etrans; [exact IHr|]); try apply delete_subseteq.
  all: try (destruct (srcdone (iter w')); lia).
Qed.

Lemma Next_from_queue_eq env w step rest :
  done (iter w) = false → stepqueue (iter w) = step :: rest →
  Next env w = Ok (Some step, None) (with_iter w (set_stepqueue rest (iter w))).
Proof.
  intros Hd Hq. rewrite Next_unfold. simpl. unfold get_iter, set_iter. munfold.
  by rewrite Hd, Hq.
Qed.

(** [Next] always comes back: the loop needs at most one turn for each
    pending registration and two more, so it ends in a result or in a
    panic.  When it returns it has asked the source at most once for each
    pending registration and once more, and not at all once the source is
    done. *)
Theorem Next_ends env w :
  Next env w ≠ OutOfFuel
  ∧ ∀ r w', Next env w = Ok r w' →
      (srcpos w ≤ srcpos w' ≤ srcpos w + size (regs (iter w)) + 1)%nat
      ∧ (srcdone (iter w) = true → srcpos w' = srcpos w).
Proof.
  split.
  - assert (Hfuel : (size (regs (iter w)) + 2 ≤ Next_fuel w)%nat)
      by (unfold Next_fuel; lia).
    exact (Next_loop_ends env (Next_fuel w) w Hfuel).
  - intros r w' H. apply Next_Next_result, Next_result_frame in H
      as (_ & _ & _ & _ & _ & _ & Hle & Hpot).
    split.
    + split; [done|]. destruct (srcdone (iter w)), (srcdone (iter w')); lia.
    + intros Hs. rewrite Hs in Hpot. destruct (srcdone (iter w')); lia.
Qed.

Lemma Next_ends_witness :
  let w' := outcome_world (ex_world_a None) (Next ex_env_replace (ex_world_a None)) in
  (0 ≤ srcpos w' ≤ 1)%nat.
Proof.
  intros w'.
  destruct (Next_ends ex_env_replace (ex_world_a None)) as [_ H].
  destruct (H (outcome_value (None, None) (Next ex_env_replace (ex_world_a None))) w')
    as [H1 _]; [vm_compute; reflexivity|].
  exact H1.
Defined.

(** [Next] returns a step, or an error, or neither, and never both; it
    returns neither exactly when it leaves the plan done. *)
Theorem Next_step_or_error env w step err w' :
  Next env w = Ok (step, err) w' →
  (step = None ∨ err = None)
  ∧ (done (iter w') = true ↔ step = None ∧ err = None).
Proof.
  intros H. apply Next_Next_result, Next_result_done in H as [H1 H2]. split; [done|].
  rewrite H2. split; [by intros [= -> ->]|by intros [-> ->]].
Qed.

Lemma Next_step_or_error_witness :
  let w' := outcome_world (ex_world_a None) (Next ex_env_replace (ex_world_a None)) in
  (Some (NewCreateReplacementStep ex_reg_a_zone 0 1 ["zone"]) = None
   ∨ @None error = None)
  ∧ (done (iter w') = true
     ↔ Some (NewCreateReplacementStep ex_reg_a_zone 0 1 ["zone"]) = None
       ∧ @None error = None).
Proof.
  intros w'.
  apply (Next_step_or_error ex_env_replace (ex_world_a None)). vm_compute. reflexivity.
Defined.

(** Planning alone does not touch the resources of the snapshot: between
    a snapshot and the next, a call of [Next] changes neither the list of
    committed states nor the marks on the old states, and as long as it
    does not leave the plan done, the snapshot taken after the call has
    the namespace and the resource list of the snapshot taken before it.
    (The manifest is another matter: every [Snap] reads the clock and the
    host's plugins anew.) *)
Theorem Next_keeps_snapshot env w before w1 r w2 :
  Snap env w = Ok before w1 →
  Next env w1 = Ok r w2 →
  resources (iter w2) = resources (iter w) ∧ dones (iter w2) = dones (iter w)
  ∧ (done (iter w2) = false →
     ∃ after w3,
       Snap env w2 = Ok after w3
       ∧ snap_Namespace after = snap_Namespace before
       ∧ snap_Resources after = snap_Resources before).
Proof.
  rewrite Snap_eq. intros [= <- <-] H.
  pose proof H as (Hp & _ & Hres & Hdones & _)%Next_Next_result%Next_result_frame.
  simpl in Hp, Hres, Hdones.
  split; [done|]. split; [done|]. intros Hd.
  destruct (done (iter w)) eqn:Hdw.
  { rewrite Next_done in H by done. injection H as _ <-. simpl in Hd. congruence. }
  eexists _, _. split; [apply Snap_eq|]. simpl.
  split; [by rewrite Hp|].
  rewrite !Snap_resources_eq, Hres, Hdones, Hd, Hdw.
  unfold prior. by rewrite Hp.
Qed.

Lemma Next_keeps_snapshot_witness :
  ∃ before w1 r w2 after w3,
    Snap ex_env_replace (ex_world_a None) = Ok before w1
    ∧ Next ex_env_replace w1 = Ok r w2
    ∧ Snap ex_env_replace w2 = Ok after w3
    ∧ snap_Resources before = [0] ∧ snap_Resources after = [0].
Proof.
  eexists _, _, _, _.
  assert (Hsnap : Snap ex_env_replace (ex_world_a None) = Ok _ _) by apply Snap_eq.
  assert (Hnext : Next ex_env_replace
                    (outcome_world (ex_world_a None)
                       (Snap ex_env_replace (ex_world_a None)))
                  = Ok (Some (NewCreateReplacementStep ex_reg_a_zone 0 1 ["zone"]), None)
                       (outcome_world (ex_world_a None)
                          (Next ex_env_replace
                             (outcome_world (ex_world_a None)
                                (Snap ex_env_replace (ex_world_a None))))))
    by (vm_compute; reflexivity).
  rewrite Snap_eq in Hnext at 1. simpl outcome_world in Hnext at 1.
  destruct (Next_keeps_snapshot _ _ _ _ _ _ Hsnap Hnext) as (_ & _ & H).
  destruct H as (after & w3 & H1 & _ & H2); [vm_compute; reflexivity|].
  exists after, w3. split; [exact Hsnap|]. split; [exact Hnext|]. split; [exact H1|].
  split; [vm_compute; reflexivity|]. rewrite H2. vm_compute. reflexivity.
Defined.

(** The manifest does change: the first registration makes the host load
    the provider and the analyzer, and a snapshot taken after it lists
    plugins that a snapshot taken before it does not. *)
Lemma Next_changes_manifest :
  let w' := outcome_world (ex_world_a None) (Next ex_env_replace (ex_world_a None)) in
  ∃ before w1 after w2,
    Snap ex_env_replace (ex_world_a None) = Ok before w1
    ∧ Snap ex_env_replace w' = Ok after w2
    ∧ m_Plugins (snap_Manifest before) = []
    ∧ m_Plugins (snap_Manifest after) = ["aws"; "policy"]
    ∧ m_Time (snap_Manifest before) ≠ m_Time (snap_Manifest after).
Proof.
  intros w'. eexists _, _, _, _. split; [apply Snap_eq|]. split; [apply Snap_eq|].
  split; [vm_compute; reflexivity|]. split; [vm_compute; reflexivity|].
  vm_compute. discriminate.
Qed.

Lemma Next_result_replacement env w r w' :
  Next_result env w r w' →
  ∀ e old new keys,
    stepqueue (iter w) = [] → r = (Some (NewCreateReplacementStep e old new keys), None) →
    stepqueue (iter w') = [NewReplaceStep old new keys] ∧ done (iter w') = false.
Proof.
  induction 1 as [w Hd|w step rest Hd Hq|w ev err Hd Hq Hs Ha|w e steps err w1 Hd Hq Hs Ha Hr
                 |w e step rest w1 Hd Hq Hs Ha Hr|w e err w1 Hd Hq Hs Ha Ho
                 |w e w1 r w' Hd Hq Hs Ha Ho HN IH|w dels w1 r w' Hd Hq Hs Ha Hc HN IH
                 |w step w1 Hd Hq Hs Hn|w w1 Hd Hq Hs Hn];
    intros e' old new keys Hq' Hr'; try done; try congruence.
  - injection Hr' as ->.
    pose proof Hr as (_ & _ & _ & Hf)%makeRegisterResouceSteps_registered_as.
    unfold filed in Hf. simpl in Hf. destruct Hf as [_ Hf].
    destruct (Olds _ !! _) as [old'|].
    + destruct Hf as [[Hst _]|[(? & Hst & _)|(keys' & Hst & Hit)]]; try done.
      injection Hst as -> -> -> -> ->. simpl. by rewrite Hit.
    + by destruct Hf as [Hst _].
  - apply (IH e' old new keys); [|done]. next_worlds. by rewrite Ho.
  - apply (IH e' old new keys); [|done]. by next_worlds.
  - next_worlds. congruence.
Qed.

(** A replacement comes out whole: when a call of [Next] on an empty step
    queue returns a [CreateReplacement], the next call returns the
    [Replace] of the same old state, new state and keys, straight from the
    queue: the source is not asked and nothing else changes. *)
Theorem Next_replacement_pair env w e old new keys w' :
  stepqueue (iter w) = [] →
  Next env w = Ok (Some (NewCreateReplacementStep e old new keys), None) w' →
  Next env w' = Ok (Some (NewReplaceStep old new keys), None)
                   (with_iter w' (set_stepqueue [] (iter w'))).
Proof.
  intros Hq H. apply Next_Next_result in H.
  destruct (Next_result_replacement env w _ w' H e old new keys Hq eq_refl) as [Hq' Hd'].
  by apply Next_from_queue_eq.
Qed.

Lemma Next_replacement_pair_witness :
  let w' := outcome_world (ex_world_a None) (Next ex_env_replace (ex_world_a None)) in
  Next ex_env_replace w'
  = Ok (Some (NewReplaceStep 0 1 ["zone"]), None) (with_iter w' (set_stepqueue [] (iter w'))).
Proof.
  intros w'.
  apply (Next_replacement_pair ex_env_replace (ex_world_a None) ex_reg_a_zone 0 1 ["zone"]).
  - reflexivity.
  - vm_compute. reflexivity.
Defined.

(** The failures of the source.  An error of the source is returned as it
    is, whatever event came with it; the iterator is as before, so the next
    call asks the source again.  An event that is neither a registration
    nor the completion of one is a panic. *)
Theorem Next_source_failures env w :
  done (iter w) = false → stepqueue (iter w) = [] → srcdone (iter w) = false →
  (∀ event err, src_Next env (srcpos w) = (event, Some err) →
     Next env w = Ok (None, Some err) (pulled w (event, Some err)))
  ∧ (∀ kind, src_Next env (srcpos w) = (Some (EvOther kind), None) →
       Next env w = Panic "Unrecognized intent from source iterator").
Proof.
  intros Hd Hq Hs. split.
  - intros event err Ha. rewrite Next_unfold. simpl.
    unfold get_iter, call_src_Next, pulled. munfold. rewrite Hd, Hq, Hs. simpl.
    rewrite Ha. by destruct event.
  - intros kind Ha. rewrite Next_unfold. simpl.
    unfold get_iter, call_src_Next, panic. munfold. rewrite Hd, Hq, Hs. simpl.
    by rewrite Ha.
Qed.

Lemma Next_source_failures_witness :
  Next ex_env_flaky (ex_world_b None)
  = Ok (None, Some (ErrExternal "program crashed"))
       (pulled (ex_world_b None) (None, Some (ErrExternal "program crashed")))
  ∧ Next ex_env_unknown (ex_world_b None) = Panic "Unrecognized intent from source iterator".
Proof.
  split.
  - destruct (Next_source_failures ex_env_flaky (ex_world_b None) eq_refl eq_refl eq_refl)
      as [H _].
    apply H. reflexivity.
  - destruct (Next_source_failures ex_env_unknown (ex_world_b None) eq_refl eq_refl eq_refl)
      as [_ H].
    apply (H "ReadResourceEvent"). reflexivity.
Defined.


(** ** What holds all along a run *)

Lemma exec_next_or_quiet env a w r w' :
  exec env a w = Ok r w' → (∃ r', Next_result env w r' w') ∨ quiet w w'.
Proof.
  intros H. destruct a; simpl in H.
  - apply bind_inv in H as (x & w1 & Hn & H). apply ret_inv in H as [_ <-].
    left. exists x. exact (Next_Next_result env w x w1 Hn).
  - apply bind_inv in H as (x & w1 & Hn & H). apply ret_inv in H as [_ <-].
    right. by eapply Apply_quiet.
  - right. by eapply MarkStateSnapshot_quiet.
  - right. by eapply AppendStateSnapshot_quiet.
Qed.

Lemma run_preserves env (P : World → Prop) :
  (∀ w w', quiet w w' → P w → P w') →
  (∀ w r w', Next_result env w r w' → P w → P w') →
  ∀ acts w r w', run env acts w = Ok r w' → P w → P w'.
Proof.
  intros Hq HN. induction acts as [|a acts IH]; intros w r w' H HP; simpl in H.
  - by apply ret_inv in H as [_ <-].
  - apply bind_inv in H as (x & w1 & Ha & H). eapply IH; [exact H|].
    apply exec_next_or_quiet in Ha as [[r' Ha]|Ha]; eauto.
Qed.

Lemma Next_result_idents env w r w' :
  Next_result env w r w' → idents (heap w) `prefix_of` idents (heap w').
Proof.
  induction 1 as [w Hd|w step rest Hd Hq|w ev err Hd Hq Hs Ha|w e steps err w1 Hd Hq Hs Ha Hr
                 |w e step rest w1 Hd Hq Hs Ha Hr|w e err w1 Hd Hq Hs Ha Ho
                 |w e w1 r w' Hd Hq Hs Ha Ho HN IH|w dels w1 r w' Hd Hq Hs Ha Hc HN IH
                 |w step w1 Hd Hq Hs Hn|w w1 Hd Hq Hs Hn].
  - done.
  - done.
  - done.
  - apply makeRegisterResouceSteps_world in Hr as (_ & _ & s & Hh). rewrite Hh. simpl.
    rewrite idents_alloc. by apply prefix_app_r.
  - apply makeRegisterResouceSteps_world in Hr as (_ & _ & s & Hh).
    assert (idents (heap w) `prefix_of` idents (heap w1))
      by (rewrite Hh; simpl; rewrite idents_alloc; by apply prefix_app_r).
    by destruct rest.
  - apply registerResourceOutputs_quiet in Ho. unfold quiet in Ho. destruct_and!.
    simpl in *. by match goal with H : idents _ = _ |- _ => rewrite H end.
  - apply registerResourceOutputs_quiet in Ho. unfold quiet in Ho. destruct_and!.
    simpl in *. etrans; [|exact IH]. by match goal with H : idents _ = _ |- _ => rewrite H end.
  - apply computeDeletes_inv in Hc as [-> _]. exact IH.
  - apply nextDeleteStep_world in Hn as (_ & Hh & _). by rewrite Hh.
  - apply nextDeleteStep_world in Hn as (_ & Hh & _). simpl. by rewrite Hh.
Qed.

(** *** One intent for each URN *)

Lemma mark_has i j u v it :
  has (intent_set j (mark i u it)) v = true
  ↔ (i = j ∧ u = v) ∨ has (intent_set j it) v = true.
Proof.
  destruct i, j; simpl; rewrite ?has_insert_true; naive_solver.
Qed.

Lemma one_intent_ext it it' :
  p it' = p it → urns it' = urns it → creates it' = creates it →
  updates it' = updates it → replaces it' = replaces it → sames it' = sames it →
  one_intent it → one_intent it'.
Proof.
  intros Hp Hu Hc Hup Hr Hs Hinv u i.
  assert (Hi : ∀ j, intent_set j it' = intent_set j it) by (by intros []).
  rewrite Hi, Hu, Hp. intros H. destruct (Hinv u i H) as (? & Huniq & ?).
  split; [done|]. split; [|done]. intros j. rewrite Hi. apply Huniq.
Qed.

Lemma one_intent_seen it u :
  one_intent it → one_intent (set_urns (<[u := true]> (urns it)) it).
Proof.
  intros Hinv v i H. destruct (Hinv v i) as (? & ? & ?); [by destruct i|].
  split; [apply has_insert_true; by right|]. split; [|done].
  intros j Hj. destruct j; auto.
Qed.

Lemma one_intent_mark it u i :
  has (urns it) u = false → (i = IntentCreate ↔ Olds (p it) !! u = None) →
  one_intent it → one_intent (mark i u (set_urns (<[u := true]> (urns it)) it)).
Proof.
  intros Hfresh Hold Hinv v j Hv.
  set (it1 := set_urns (<[u := true]> (urns it)) it) in *.
  assert (Hset : ∀ k, intent_set k it1 = intent_set k it) by (by intros []).
  assert (Hurns : urns (mark i u it1) = <[u := true]> (urns it)) by (by destruct i).
  assert (Hp : p (mark i u it1) = p it) by (by destruct i).
  rewrite Hurns, Hp.
  apply mark_has in Hv as [[<- <-]|Hv].
  - split; [apply has_insert_true; by left|]. split; [|done].
    intros k [[? _]|Hk]%mark_has; [done|]. rewrite Hset in Hk.
    destruct (Hinv u k Hk) as (Hseen & _). congruence.
  - rewrite Hset in Hv. destruct (Hinv v j Hv) as (Hseen & Huniq & Holds).
    split; [apply has_insert_true; by right|]. split; [|done].
    intros k [[_ <-]|Hk]%mark_has; [congruence|]. rewrite Hset in Hk. by apply Huniq.
Qed.

Lemma one_intent_filed env e w r it' :
  filed env e w r it' → one_intent (iter w) → one_intent it'.
Proof.
  unfold filed. intros Hf Hinv. destruct (r.2).
  - destruct Hf as [_ [->|(Hfresh & Hold & ->)]]; [by apply one_intent_seen|].
    apply one_intent_mark; [done| |done]. split; [done|]. intros Hn. rewrite Hn in Hold.
    by destruct Hold.
  - destruct Hf as [Hfresh Hf]. destruct (Olds _ !! _) as [old|] eqn:Hold.
    + destruct Hf as [[_ ->]|[(? & _ & ->)|(? & _ & ->)]];
        (apply one_intent_mark; [done| |done]); rewrite Hold; split; done.
    + destruct Hf as [_ ->]. apply one_intent_mark; [done| |done]. by rewrite Hold.
Qed.

Lemma one_intent_Next env w r w' :
  Next_result env w r w' → one_intent (iter w) → one_intent (iter w').
Proof.
  induction 1 as [w Hd|w step rest Hd Hq|w ev err Hd Hq Hs Ha|w e steps err w1 Hd Hq Hs Ha Hr
                 |w e step rest w1 Hd Hq Hs Ha Hr|w e err w1 Hd Hq Hs Ha Ho
                 |w e w1 r w' Hd Hq Hs Ha Ho HN IH|w dels w1 r w' Hd Hq Hs Ha Hc HN IH
                 |w step w1 Hd Hq Hs Hn|w w1 Hd Hq Hs Hn]; intros Hinv.
  - done.
  - eapply one_intent_ext; [..|exact Hinv]; done.
  - done.
  - apply makeRegisterResouceSteps_registered_as in Hr as (_ & _ & _ & Hf).
    by eapply one_intent_filed.
  - apply makeRegisterResouceSteps_registered_as in Hr as (_ & _ & _ & Hf).
    eapply one_intent_filed in Hf; [|done]. destruct rest; [done|].
    eapply one_intent_ext; [..|exact Hf]; done.
  - apply registerResourceOutputs_world in Ho as (Ho & _).
    eapply one_intent_ext; [..|exact Hinv]; by rewrite Ho.
  - apply IH. apply registerResourceOutputs_world in Ho as (Ho & _).
    eapply one_intent_ext; [..|exact Hinv]; by rewrite Ho.
  - apply IH. apply computeDeletes_inv in Hc as [-> _].
    eapply one_intent_ext; [..|exact Hinv]; done.
  - apply nextDeleteStep_world in Hn as (_ & _ & _ & d & q & s & _ & _ & _ & Hn).
    eapply one_intent_ext; [..|exact Hinv]; by rewrite Hn.
  - apply nextDeleteStep_world in Hn as (_ & _ & _ & _ & Hn).
    eapply one_intent_ext; [..|exact Hinv]; by rewrite Hn.
Qed.

Lemma one_intent_quiet w w' : quiet w w' → one_intent (iter w) → one_intent (iter w').
Proof.
  unfold quiet. intros H. destruct_and!. by apply one_intent_ext.
Qed.

(** At every point of every run, a URN that is in one of [creates],
    [updates], [replaces] and [sames] has been registered, is in no other
    of the four, and is in [creates] exactly when the plan has no old state
    for it. *)
Theorem run_one_intent env pl o h0 acts w :
  run env acts (initial pl o h0) = Ok tt w →
  ∀ u i, has (intent_set i (iter w)) u = true →
    has (urns (iter w)) u = true
    ∧ (∀ j, has (intent_set j (iter w)) u = true → j = i)
    ∧ (i = IntentCreate ↔ Olds pl !! u = None).
Proof.
  intros Hrun.
  assert (Hinv : one_intent (iter w) ∧ p (iter w) = pl).
  { refine (run_preserves env (λ w, one_intent (iter w) ∧ p (iter w) = pl) _ _
              acts _ _ _ Hrun _).
    - intros w1 w2 Hq [H1 H2]. split; [by eapply one_intent_quiet|].
      unfold quiet in Hq. destruct_and!. congruence.
    - intros w1 r w2 HN [H1 H2]. split; [by eapply one_intent_Next|].
      apply Next_result_frame in HN as (Hp & _). congruence.
    - split; [|done]. intros u i. by destruct i. }
  destruct Hinv as [Hinv <-]. exact Hinv.
Qed.

Lemma run_one_intent_witness :
  has (urns (iter ex_world_a_done)) (ex_urn "a") = true
  ∧ (∀ j, has (intent_set j (iter ex_world_a_done)) (ex_urn "a") = true → j = IntentReplace)
  ∧ (IntentReplace = IntentCreate ↔ Olds ex_plan_a !! ex_urn "a" = None).
Proof.
  apply (run_one_intent ex_env_replace ex_plan_a (mkOptions None 1)
           [ex_state "a" (ex_k 1) ""] [ActNext; ActNext; ActNext; ActNext]).
  - exact ex_world_a_done_run.
  - vm_compute. reflexivity.
Defined.

(** *** Deletions wait for the end of the source *)

Lemma no_early_delete_ext it it' :
  srcdone it' = srcdone it → deletes it' = deletes it → delqueue it' = delqueue it →
  done it' = done it → no_early_delete it → no_early_delete it'.
Proof. unfold no_early_delete. by intros -> -> -> ->. Qed.

Lemma no_early_delete_Next env w r w' :
  Next_result env w r w' → no_early_delete (iter w) → no_early_delete (iter w').
Proof.
  induction 1 as [w Hd|w step rest Hd Hq|w ev err Hd Hq Hs Ha|w e steps err w1 Hd Hq Hs Ha Hr
                 |w e step rest w1 Hd Hq Hs Ha Hr|w e err w1 Hd Hq Hs Ha Ho
                 |w e w1 r w' Hd Hq Hs Ha Ho HN IH|w dels w1 r w' Hd Hq Hs Ha Hc HN IH
                 |w step w1 Hd Hq Hs Hn|w w1 Hd Hq Hs Hn]; intros Hinv.
  - done.
  - eapply no_early_delete_ext; [..|exact Hinv]; done.
  - done.
  - apply makeRegisterResouceSteps_world in Hr as ([Hr|[[] Hr]] & _);
      (eapply no_early_delete_ext; [..|exact Hinv]; by rewrite Hr).
  - apply makeRegisterResouceSteps_world in Hr as ([Hr|[[] Hr]] & _); destruct rest;
      (eapply no_early_delete_ext; [..|exact Hinv]; simpl; by rewrite Hr).
  - apply registerResourceOutputs_world in Ho as (Ho & _).
    eapply no_early_delete_ext; [..|exact Hinv]; by rewrite Ho.
  - apply IH. apply registerResourceOutputs_world in Ho as (Ho & _).
    eapply no_early_delete_ext; [..|exact Hinv]; by rewrite Ho.
  - apply IH. apply computeDeletes_inv in Hc as [-> _]. by intros ?.
  - apply nextDeleteStep_world in Hn as (_ & _ & _ & d & q & s & _ & _ & _ & Hn).
    intros Hs'. rewrite Hn in Hs'. simpl in Hs'. congruence.
  - apply nextDeleteStep_world in Hn as (_ & _ & _ & _ & Hn).
    intros Hs'. simpl in Hs'. rewrite Hn in Hs'. congruence.
Qed.

(** Nothing is deleted while the program runs: at every point of every run
    at which the source has not ended, no URN is in [deletes], no deletion
    waits in the queue, and the plan is not done. *)
Theorem run_no_early_delete env pl o h0 acts w :
  run env acts (initial pl o h0) = Ok tt w →
  srcdone (iter w) = false →
  deletes (iter w) = ∅ ∧ delqueue (iter w) = [] ∧ done (iter w) = false.
Proof.
  intros Hrun.
  refine (run_preserves env (λ w, no_early_delete (iter w)) _ _ acts _ _ _ Hrun _).
  - intros w1 w2 Hq. unfold quiet in Hq. destruct_and!. by apply no_early_delete_ext.
  - intros w1 r w2. apply no_early_delete_Next.
  - by intros _.
Qed.

Lemma run_no_early_delete_witness :
  deletes (iter ex_world_a_planned) = ∅ ∧ delqueue (iter ex_world_a_planned) = []
  ∧ done (iter ex_world_a_planned) = false.
Proof.
  apply (run_no_early_delete ex_env_replace ex_plan_a (mkOptions None 1)
           [ex_state "a" (ex_k 1) ""] [ActNext]).
  - vm_compute. reflexivity.
  - vm_compute. reflexivity.
Defined.

(** *** Only what the previous snapshot holds is deleted *)

Lemma deletes_prior_ext w w' :
  p (iter w') = p (iter w) → delqueue (iter w') = delqueue (iter w) →
  deletes (iter w') = deletes (iter w) →
  idents (heap w) `prefix_of` idents (heap w') →
  deletes_prior w → deletes_prior w'.
Proof.
  unfold deletes_prior, prior. intros -> -> -> Hpre [H1 H2]. split; [done|].
  intros u Hu. destruct (H2 u Hu) as (d & s & Hd & Hs & Hurn).
  destruct (idents_prefix_lookup _ _ d s Hpre Hs) as (s' & Hs' & Hurn').
  exists d, s'. split; [done|]. split; [done|congruence].
Qed.

Lemma deletes_prior_Next env w r w' :
  Next_result env w r w' → deletes_prior w → deletes_prior w'.
Proof.
  intros HN. pose proof HN as Hall. revert Hall.
  induction HN as [w Hd|w step rest Hd Hq|w ev err Hd Hq Hs Ha|w e steps err w1 Hd Hq Hs Ha Hr
                 |w e step rest w1 Hd Hq Hs Ha Hr|w e err w1 Hd Hq Hs Ha Ho
                 |w e w1 r w' Hd Hq Hs Ha Ho HN IH|w dels w1 r w' Hd Hq Hs Ha Hc HN IH
                 |w step w1 Hd Hq Hs Hn|w w1 Hd Hq Hs Hn]; intros Hall Hinv.
  - done.
  - eapply deletes_prior_ext; [..|exact Hinv]; done.
  - eapply deletes_prior_ext; [..|exact Hinv]; done.
  - apply Next_result_idents in Hall.
    apply makeRegisterResouceSteps_world in Hr as ([Hr|[[] Hr]] & _);
      (eapply deletes_prior_ext; [..|exact Hinv]; [by rewrite Hr..|done]).
  - apply Next_result_idents in Hall.
    apply makeRegisterResouceSteps_world in Hr as ([Hr|[[] Hr]] & _); destruct rest;
      (eapply deletes_prior_ext; [..|exact Hinv]; [simpl; by rewrite Hr..|done]).
  - apply Next_result_idents in Hall.
    apply registerResourceOutputs_world in Ho as (Ho & _).
    eapply deletes_prior_ext; [..|exact Hinv]; [by rewrite Ho..|done].
  - apply IH; [done|].
    pose proof (registerResourceOutputs_quiet _ _ _ _ Ho) as Hq'.
    apply registerResourceOutputs_world in Ho as (Ho & _).
    eapply deletes_prior_ext; [..|exact Hinv]; [by rewrite Ho..|].
    unfold quiet in Hq'. destruct_and!. simpl in *.
    by match goal with H : idents _ = _ |- _ => rewrite H end.
  - apply IH; [done|]. apply computeDeletes_inv in Hc as [-> ->].
    destruct Hinv as [H1 H2]. split; [|done].
    simpl. intros d [_ Hd']%list_elem_of_filter. rewrite elem_of_reverse in Hd'. exact Hd'.
  - apply nextDeleteStep_world in Hn as (_ & Hh & _ & d & q & s & Hdq & Hs' & _ & Hn).
    destruct Hinv as [H1 H2]. unfold deletes_prior, prior. rewrite Hn, Hh. simpl.
    rewrite Hdq in H1. split.
    + intros d' Hd'. apply H1. by right.
    + intros u [<-|Hu]%has_insert_true; [|by apply H2].
      exists d, s. split; [apply H1; by left|done].
  - apply nextDeleteStep_world in Hn as (_ & Hh & _ & _ & Hn).
    eapply deletes_prior_ext; [..|exact Hinv]; simpl; by rewrite ?Hn, ?Hh.
Qed.

(** Only what the previous snapshot holds is ever deleted: at every point
    of every run, a URN in [deletes] is the URN of a resource of the
    previous snapshot.  Without a previous snapshot nothing is deleted. *)
Theorem run_deletes_prior env pl o h0 acts w :
  run env acts (initial pl o h0) = Ok tt w →
  ∀ u, has (deletes (iter w)) u = true →
    ∃ pv d s, prev pl = Some pv ∧ d ∈ snap_Resources pv
              ∧ heap w !! d = Some s ∧ st_URN s = u.
Proof.
  intros Hrun.
  assert (Hinv : deletes_prior w ∧ p (iter w) = pl).
  { refine (run_preserves env (λ w, deletes_prior w ∧ p (iter w) = pl) _ _
              acts _ _ _ Hrun _).
    - intros w1 w2 Hq [H1 H2]. unfold quiet in Hq. destruct_and!.
      split; [|congruence]. eapply deletes_prior_ext; [..|exact H1]; try done.
      by match goal with H : idents _ = _ |- _ => rewrite H end.
    - intros w1 r w2 HN [H1 H2]. split; [by eapply deletes_prior_Next|].
      apply Next_result_frame in HN as (Hp & _). congruence.
    - split; [|done]. split; [by intros d ?%elem_of_nil|done]. }
  destruct Hinv as [[_ Hinv] Hp]. intros u Hu.
  destruct (Hinv u Hu) as (d & s & Hd & Hs & Hurn). unfold prior in Hd. rewrite Hp in Hd.
  destruct (prev pl) as [pv|]; [|by apply elem_of_nil in Hd]. by exists pv, d, s.
Qed.

Lemma run_deletes_prior_witness :
  ∃ pv d s, prev ex_plan_a = Some pv ∧ d ∈ snap_Resources pv
            ∧ heap ex_world_a_done !! d = Some s ∧ st_URN s = ex_urn "a".
Proof.
  apply (run_deletes_prior ex_env_replace ex_plan_a (mkOptions None 1)
           [ex_state "a" (ex_k 1) ""] [ActNext; ActNext; ActNext; ActNext]).
  - exact ex_world_a_done_run.
  - vm_compute. reflexivity.
Defined.

(** *** The count of steps *)

Lemma size_mark (m : gmap URN bool) u :
  (size m ≤ size (<[u := true]> m) ≤ S (size m))%nat.
Proof. rewrite map_size_insert. destruct (m !! u); simpl; lia. Qed.

Lemma Next_result_Steps env w r w' :
  Next_result env w r w' →
  (Steps (iter w) ≤ Steps (iter w') ≤ S (Steps (iter w)))%nat.
Proof.
  induction 1 as [w Hd|w step rest Hd Hq|w ev err Hd Hq Hs Ha|w e steps err w1 Hd Hq Hs Ha Hr
                 |w e step rest w1 Hd Hq Hs Ha Hr|w e err w1 Hd Hq Hs Ha Ho
                 |w e w1 r w' Hd Hq Hs Ha Ho HN IH|w dels w1 r w' Hd Hq Hs Ha Hc HN IH
                 |w step w1 Hd Hq Hs Hn|w w1 Hd Hq Hs Hn]; unfold Steps in *.
  - lia.
  - simpl. lia.
  - simpl. lia.
  - apply makeRegisterResouceSteps_world in Hr as ([Hr|[[] Hr]] & _); rewrite Hr; simpl;
      try lia.
    + pose proof (size_mark (creates (iter w)) (reg_urn env (pulled w (Some (EvRegister e), None)) e)).
      lia.
    + pose proof (size_mark (updates (iter w)) (reg_urn env (pulled w (Some (EvRegister e), None)) e)).
      lia.
    + pose proof (size_mark (replaces (iter w)) (reg_urn env (pulled w (Some (EvRegister e), None)) e)).
      lia.
  - apply makeRegisterResouceSteps_world in Hr as ([Hr|[[] Hr]] & _); destruct rest; simpl;
      rewrite Hr; simpl; try lia.
    all: try (pose proof (size_mark (creates (iter w)) (reg_urn env (pulled w (Some (EvRegister e), None)) e)); lia).
    all: try (pose proof (size_mark (updates (iter w)) (reg_urn env (pulled w (Some (EvRegister e), None)) e)); lia).
    all: try (pose proof (size_mark (replaces (iter w)) (reg_urn env (pulled w (Some (EvRegister e), None)) e)); lia).
  - apply registerResourceOutputs_world in Ho as (Ho & _). rewrite Ho. simpl. lia.
  - apply registerResourceOutputs_world in Ho as (Ho & _). rewrite Ho in IH. simpl in IH. lia.
  - apply computeDeletes_inv in Hc as [-> _]. simpl in IH. lia.
  - apply nextDeleteStep_world in Hn as (_ & _ & _ & d & q & s & _ & _ & _ & Hn).
    rewrite Hn. simpl. pose proof (size_mark (deletes (iter w)) (st_URN s)). lia.
  - apply nextDeleteStep_world in Hn as (_ & _ & _ & _ & Hn). simpl. rewrite Hn. lia.
Qed.

(** The count of steps only grows: a call of [Next] adds at most one to
    [Steps()], however many events it takes from the source, and applying a
    step or recording a snapshot state adds nothing. *)
Theorem exec_Steps env a w r w' :
  exec env a w = Ok r w' →
  (Steps (iter w) ≤ Steps (iter w') ≤ S (Steps (iter w)))%nat
  ∧ (a ≠ ActNext → Steps (iter w') = Steps (iter w)).
Proof.
  intros H. pose proof H as [[r' HN]|Hq]%exec_next_or_quiet.
  - split; [by eapply Next_result_Steps|].
    intros Ha. destruct a; try done; simpl in H.
    + apply bind_inv in H as (x & w1 & Hn & H). apply ret_inv in H as [_ <-].
      apply Apply_quiet in Hn. unfold quiet, Steps in *. destruct_and!. congruence.
    + apply MarkStateSnapshot_quiet in H. unfold quiet, Steps in *. destruct_and!. congruence.
    + apply AppendStateSnapshot_quiet in H. unfold quiet, Steps in *. destruct_and!. congruence.
  - assert (Steps (iter w') = Steps (iter w))
      by (unfold quiet, Steps in *; destruct_and!; congruence).
    split; [lia|done].
Qed.

Lemma exec_Steps_witness :
  (Steps (iter (ex_world_a None)) ≤ Steps (iter ex_world_a_planned)
   ≤ S (Steps (iter (ex_world_a None))))%nat.
Proof.
  destruct (exec_Steps ex_env_replace ActNext (ex_world_a None) tt ex_world_a_planned)
    as [H _]; [vm_compute; reflexivity|].
  exact H.
Defined.


(** ** Applying steps *)

Lemma same_plan_refl it : same_plan it it.
Proof. by repeat split. Qed.

Lemma same_plan_trans it1 it2 it3 :
  same_plan it1 it2 → same_plan it2 it3 → same_plan it1 it3.
Proof. unfold same_plan. intros H1 H2. destruct_and!. repeat split; congruence. Qed.

Lemma run_effect_same_plan eff w r w' :
  run_effect eff w = Ok r w' →
  same_plan (iter w) (iter w') ∧ regs (iter w') = regs (iter w)
  ∧ length (heap w') = length (heap w).
Proof.
  destruct eff; simpl; unfold MarkStateSnapshot, AppendStateSnapshot; intros H; minv;
    rewrite ?length_insert; by repeat split.
Qed.

Lemma call_step_Apply_same_plan env step preview w r w' :
  call_step_Apply env step preview w = Ok r w' →
  same_plan (iter w) (iter w') ∧ regs (iter w') = regs (iter w)
  ∧ length (heap w') = length (heap w).
Proof.
  unfold call_step_Apply. intros H. minv.
  match goal with Hf : forEach _ _ _ = Ok _ _ |- _ =>
    refine (forEach_frame
      (λ w w', same_plan (iter w) (iter w') ∧ regs (iter w') = regs (iter w)
               ∧ length (heap w') = length (heap w))
      _ _ _ _ _ _ _ _ Hf) end.
  - intros w0. split; [apply same_plan_refl|done].
  - intros w1 w2 w3 (? & ? & ?) (? & ? & ?).
    split; [by eapply same_plan_trans|]. split; congruence.
  - intros eff w0 r0 w0'. apply run_effect_same_plan.
Qed.

Lemma Apply_inv env step preview w status err w' :
  Apply env step preview w = Ok (status, err) w' →
  ∃ s, heap w !! step_state step = Some s
       ∧ same_plan (iter w) (iter w')
       ∧ length (heap w') = length (heap w)
       ∧ (regs (iter w') = regs (iter w)
          ∨ (Logical step = true ∧ regs (iter w) !! st_URN s = None
             ∧ regs (iter w') = <[st_URN s := step]> (regs (iter w))))
       ∧ (err = None → Logical step = true →
          regs (iter w) !! st_URN s = None
          ∧ regs (iter w') = <[st_URN s := step]> (regs (iter w))).
Proof.
  unfold Apply, Step_URN. intros H.
  apply bind_inv in H as (urn & w0 & Hurn & H).
  apply bind_inv in Hurn as (s & w00 & Hs & Hurn). apply deref_inv in Hs as [-> Hs].
  apply ret_inv in Hurn as [<- <-]. exists s. split; [done|].
  minv;
    repeat match goal with
    | Hc : call_step_Apply _ _ _ _ = Ok _ _ |- _ =>
      apply call_step_Apply_same_plan in Hc as (? & ? & ?)
    end; simplify_eq/=.
  all: try (split; [by repeat split|]; split; [done|]; split; [by left|done]).
  all: try (split; [done|]; split; [done|]; split;
            [first [by left|right; split; [done|]; split; congruence]
            |first [done|intros _ _; split; congruence|idtac]]).
  all: try (split; [done|]; split; [congruence|]; split;
            [first [left; congruence|right; split; [done|]; split; congruence]
            |first [done|intros _ _; split; congruence|intros ? ?; congruence|idtac]]).
Qed.

(** [Apply] decides nothing about the plan: it leaves the plan, the
    options, the URNs seen, the five classification sets, the two queues
    and the two flags as they were, it does not ask the source, and it
    allocates no state and changes the identity of none.  What it can
    change is the pending registrations and, through the step's own
    [Apply], the snapshot fields and the states the step writes. *)
Theorem Apply_leaves_plan env step preview w r w' :
  Apply env step preview w = Ok r w' →
  same_plan (iter w) (iter w') ∧ srcpos w' = srcpos w
  ∧ idents (heap w') = idents (heap w)
  ∧ src_answers (trace w') = src_answers (trace w).
Proof.
  intros H. pose proof H as Hq%Apply_quiet. destruct r as [status err].
  apply Apply_inv in H as (s & _ & Hsame & _). unfold quiet in Hq. destruct_and!. done.
Qed.

Lemma Apply_leaves_plan_witness :
  let w' := outcome_world (ex_world_b None)
              (Apply (ex_env [] ex_check_ok ex_apply) ex_create_b false (ex_world_b None)) in
  same_plan (iter (ex_world_b None)) (iter w') ∧ srcpos w' = 0
  ∧ idents (heap w') = idents (heap (ex_world_b None))
  ∧ src_answers (trace w') = [].
Proof.
  intros w'.
  apply (Apply_leaves_plan (ex_env [] ex_check_ok ex_apply) ex_create_b false
           (ex_world_b None) (StatusOK, None)).
  vm_compute. reflexivity.
Defined.

(** The pending registrations after [Apply].  A step that is not logical
    (a [Replace], a [Delete]) never changes them.  A logical step is
    recorded under the URN its state had when [Apply] was called, and
    only if that URN was not pending; whenever [Apply] returns no error
    for a logical step, the step is pending under that URN. *)
Theorem Apply_pending env step preview w status err w' s :
  heap w !! step_state step = Some s →
  Apply env step preview w = Ok (status, err) w' →
  (Logical step = false → regs (iter w') = regs (iter w))
  ∧ (regs (iter w') = regs (iter w)
     ∨ (regs (iter w) !! st_URN s = None
        ∧ regs (iter w') = <[st_URN s := step]> (regs (iter w))))
  ∧ (err = None → Logical step = true → regs (iter w') !! st_URN s = Some step).
Proof.
  intros Hs H. apply Apply_inv in H as (s' & Hs' & _ & _ & Hregs & Hok).
  rewrite Hs in Hs'. injection Hs' as <-. split; [|split].
  - intros Hl. destruct Hregs as [?|(Hl' & _)]; [done|congruence].
  - destruct Hregs as [?|(_ & ? & ?)]; [by left|by right].
  - intros He Hl. destruct (Hok He Hl) as [_ ->]. apply lookup_insert_eq.
Qed.

Lemma Apply_pending_witness :
  let w' := outcome_world (ex_world_b None)
              (Apply (ex_env [] ex_check_ok ex_apply) ex_create_b false (ex_world_b None)) in
  regs (iter w') !! ex_urn "b" = Some ex_create_b.
Proof.
  intros w'.
  destruct (Apply_pending (ex_env [] ex_check_ok ex_apply) ex_create_b false
              (ex_world_b None) StatusOK None w' (ex_state "b" (ex_k 1) ""))
    as (_ & _ & H); [reflexivity|vm_compute; reflexivity|].
  by apply H.
Defined.

(** A resource registered twice is found out only after its step has
    run.  When a logical step whose URN is already pending succeeds,
    [Apply] returns [StatusOK], whatever the status of the step, with the
    error of the double registration; the post-step hook is not called,
    the pending registration is not replaced, and what the step itself
    did stays done. *)
Theorem Apply_registered_twice env step preview w s status w2 :
  heap w !! step_state step = Some s →
  Logical step = true →
  is_Some (regs (iter w) !! st_URN s) →
  (∀ ev, opt_Events (opts (iter w)) = Some ev →
         (OnResourceStepPre ev (heap w) step).2 = None) →
  call_step_Apply env step preview
    (match opt_Events (opts (iter w)) with
     | Some _ => add_trace w [CStepPre step]
     | None => w
     end) = Ok (status, None) w2 →
  Apply env step preview w
  = Ok (StatusOK, Some (ErrNew ("resource '" +:+ st_URN s +:+ "' registered twice"))) w2
  ∧ regs (iter w2) = regs (iter w).
Proof.
  intros Hs Hl [reg Hreg] Hpre Hstep.
  destruct (call_step_Apply_opts _ _ _ _ _ _ Hstep) as [_ Hregs].
  assert (Hregs' : regs (iter w2) = regs (iter w))
    by (rewrite Hregs; by destruct (opt_Events _)).
  split; [|done].
  unfold Apply, Step_URN, deref, get_iter, get_heap, log. munfold.
  rewrite Hs. simpl.
  destruct (opt_Events (opts (iter w))) as [ev|] eqn:Hev; simpl.
  - specialize (Hpre ev eq_refl).
    destruct (OnResourceStepPre ev (heap w) step) as [ctx preerr]. simpl in Hpre.
    subst preerr. unfold add_trace in Hstep. rewrite Hstep.
    rewrite Hl, Hregs', Hreg. done.
  - rewrite Hstep. rewrite Hl, Hregs', Hreg. done.
Qed.

Lemma Apply_registered_twice_witness :
  let w2 := outcome_world (ex_world_b_pending None)
              (call_step_Apply (ex_env [] ex_check_ok ex_apply) ex_create_b false
                 (ex_world_b_pending None)) in
  Apply (ex_env [] ex_check_ok ex_apply) ex_create_b false (ex_world_b_pending None)
  = Ok (StatusOK, Some (ErrNew ("resource '" +:+ ex_urn "b" +:+ "' registered twice"))) w2
  ∧ regs (iter w2) = regs (iter (ex_world_b_pending None)).
Proof.
  intros w2.
  apply (Apply_registered_twice (ex_env [] ex_check_ok ex_apply) ex_create_b false
           (ex_world_b_pending None) (ex_state "b" (ex_k 1) "") StatusOK w2).
  - reflexivity.
  - reflexivity.
  - vm_compute. eauto.
  - intros ev [=].
  - vm_compute. reflexivity.
Defined.

(** Applying a logical step and then completing its registration is a
    round trip on the pending registrations.  After [Apply] has returned
    no error for a logical step, the completion event for the step's URN
    does not panic: [registerResourceOutputs] returns, the pending
    registrations are what they were before [Apply], and the outputs of
    the event are among the outputs of the step's new state. *)
Theorem Apply_then_outputs env step preview w status w1 s e :
  heap w !! step_state step = Some s →
  Logical step = true →
  Apply env step preview w = Ok (status, None) w1 →
  out_URN e = st_URN s →
  ∃ r w2, registerResourceOutputs e w1 = Ok r w2
          ∧ regs (iter w2) = regs (iter w)
          ∧ ∀ outs, out_Outputs e = Some outs →
              ∃ s2, heap w2 !! step_state step = Some s2 ∧ outs ⊆ st_Outputs s2.
Proof.
  intros Hs Hl H Hurn.
  apply Apply_inv in H as (s' & Hs' & _ & Hlen & _ & Hok).
  rewrite Hs in Hs'. injection Hs' as <-.
  destruct (Hok eq_refl Hl) as [Hfresh Hregs].
  assert (Hnew : New step = Some (step_state step)) by (by destruct step).
  destruct (lookup_lt_is_Some_2 (heap w1) (step_state step)) as [s1 Hs1].
  { rewrite Hlen. by eapply lookup_lt_Some. }
  assert (Hreg : regs (iter w1) !! out_URN e = Some step)
    by (rewrite Hurn, Hregs; apply lookup_insert_eq).
  pose proof (registerResourceOutputs_pending e w1 step (step_state step) s1 Hreg Hnew Hs1)
    as Heq. simpl in Heq.
  assert (Hdel : delete (out_URN e) (regs (iter w1)) = regs (iter w)).
  { rewrite Hurn, Hregs. rewrite delete_insert_eq. by apply delete_id. }
  assert (Houts : ∀ outs, out_Outputs e = Some outs →
            ∃ s2, match out_Outputs e with
                  | Some outs => <[step_state step := AddOutputs s1 outs]> (heap w1)
                  | None => heap w1
                  end !! step_state step = Some s2 ∧ outs ⊆ st_Outputs s2).
  { intros outs ->. exists (AddOutputs s1 outs). split.
    - apply list_lookup_insert_eq. by eapply lookup_lt_Some.
    - simpl. apply map_union_subseteq_l. }
  rewrite Heq.
  destruct (opt_Events (opts (iter w1))) as [ev|];
    [destruct (OnResourceOutputs ev _ step)|]; eexists _, _; (split; [reflexivity|]);
    simpl; (split; [exact Hdel|exact Houts]).
Qed.

Lemma Apply_then_outputs_witness :
  let w1 := outcome_world (ex_world_b None)
              (Apply (ex_env [] ex_check_ok ex_apply) ex_create_b false (ex_world_b None)) in
  ∃ r w2, registerResourceOutputs ex_outputs_b w1 = Ok r w2
          ∧ regs (iter w2) = regs (iter (ex_world_b None))
          ∧ ∀ outs, out_Outputs ex_outputs_b = Some outs →
              ∃ s2, heap w2 !! step_state ex_create_b = Some s2 ∧ outs ⊆ st_Outputs s2.
Proof.
  intros w1.
  apply (Apply_then_outputs (ex_env [] ex_check_ok ex_apply) ex_create_b false
           (ex_world_b None) StatusOK w1 (ex_state "b" (ex_k 1) "")).
  - reflexivity.
  - reflexivity.
  - vm_compute. reflexivity.
  - reflexivity.
Defined.

(** ** [Provider], [issueCheckErrors], [computeDeletes] *)

(** [Provider] asks the host once for the provider of the package of the
    type, and returns a provider or an error, never both and never
    neither: the host's error if there is one (whatever provider comes
    with it), its own "could not load" error, which names the package,
    when the host has neither a provider nor an error, and otherwise the
    host's provider. *)
Theorem Provider_result env t w :
  ∃ prov err,
    Provider env t w = Ok (prov, err) (add_trace w [CHostProvider (Type_Package env t)])
    ∧ (prov = None ↔ is_Some err)
    ∧ match Host_Provider env (Type_Package env t) with
      | (_, Some herr) => prov = None ∧ err = Some herr
      | (None, None) =>
        prov = None ∧ err = Some (provider_not_loaded (Type_Package env t))
      | (Some pv, None) => prov = Some pv ∧ err = None
      end.
Proof.
  unfold Provider, log, add_trace. munfold.
  destruct (Host_Provider env (Type_Package env t)) as [[pv|] [herr|]];
    eexists _, _; (split; [reflexivity|]); (split; [|done]);
    (split; [done || by intros [? [=]]|done || by eexists]).
Qed.

(** [issueCheckErrors] says one diagnostic for each failure, in order,
    about the property when the failure names one and about the resource
    otherwise, each for the name of the URN, and returns whether there
    was a failure; it changes nothing else.  Without failures it does not even look at the state; with
    failures and no state it panics. *)
Theorem issueCheckErrors_spec env new urn failures w :
  issueCheckErrors env new urn [] w = Ok false w
  ∧ (∀ s, heap w !! new = Some s →
       issueCheckErrors env new urn failures w
       = Ok (bool_decide (failures ≠ []))
            (add_trace w (map (check_diagnostic s (URN_Name env urn)) failures)))
  ∧ (heap w !! new = None → failures ≠ [] →
     issueCheckErrors env new urn failures w = Panic "nil pointer dereference").
Proof.
  split; [done|]. split.
  - intros s Hs. destruct failures as [|f fs].
    + simpl. unfold add_trace. simpl. rewrite app_nil_r. by destruct w.
    + rewrite (issueCheckErrors_failures env new urn (f :: fs) w s Hs) by done. done.
  - intros Hs Hne. destruct failures as [|f fs]; [done|].
    unfold issueCheckErrors, deref. munfold. by rewrite Hs.
Qed.

Lemma issueCheckErrors_spec_witness :
  issueCheckErrors (ex_env [] ex_check_ok ex_apply) 0 (ex_urn "b")
    [mkCheckFailure "k" "out of range"; mkCheckFailure "" "bad"] (ex_world_b None)
  = Ok true
       (add_trace (ex_world_b None)
          [CDiag (ErrorResourcePropertyInvalidValue "aws:s3:Bucket" "b" "k"
                    (Some (PNumber 1)) "out of range");
           CDiag (ErrorResourceInvalid "aws:s3:Bucket" "b" "bad")]).
Proof.
  destruct (issueCheckErrors_spec (ex_env [] ex_check_ok ex_apply) 0 (ex_urn "b")
              [mkCheckFailure "k" "out of range"; mkCheckFailure "" "bad"]
              (ex_world_b None)) as (_ & H & _).
  apply (H (ex_state "b" (ex_k 1) "")). reflexivity.
Defined.

Lemma computeDeletes_from_ok rs : ∀ n acc w r w',
  computeDeletes_from rs n acc w = Ok r w' →
  Forall (delete_assertion (iter w) (heap w)) (take n rs).
Proof.
  induction n as [|i IH]; intros acc w r w' H; simpl in H.
  - by rewrite take_0.
  - destruct (rs !! i) as [res|] eqn:Hres; [|done].
    rewrite (take_S_r _ _ _ Hres).
    apply bind_inv in H as (s & w1 & Hs & H). apply deref_inv in Hs as [-> Hs].
    apply bind_inv in H as (it & w1 & Hit & H). injection Hit as <- <-.
    apply bind_inv in H as ([] & w1 & Ha & H).
    destruct (negb (has (creates (iter w)) (st_URN s)) || st_Delete s) eqn:Hassert;
      [|done].
    apply ret_inv in Ha as [_ <-].
    apply Forall_app. split.
    + destruct (_ || _ || _); by eapply IH.
    + apply Forall_singleton. exists s. split; [done|].
      apply orb_true_iff in Hassert as [Hc|Hd]; [left|by right].
      by destruct (has (creates (iter w)) (st_URN s)).
Qed.

(** [computeDeletes] returns exactly when its assertion holds of every
    resource of the previous snapshot: each is a live state that is
    marked for deletion or whose URN is not in [creates]; otherwise it
    panics.  It changes nothing. *)
Theorem computeDeletes_asserts w :
  (∃ dels w', computeDeletes w = Ok dels w')
  ↔ Forall (delete_assertion (iter w) (heap w)) (prior (iter w)).
Proof.
  split.
  - intros (dels & w' & H). unfold computeDeletes, prior in *.
    apply bind_inv in H as (it & w1 & Hit & H). injection Hit as <- <-.
    destruct (prev (p (iter w))) as [pv|]; [|done].
    apply computeDeletes_from_ok in H. by rewrite firstn_all in H.
  - intros H. eexists _, _. by apply computeDeletes_eq.
Qed.

Lemma computeDeletes_asserts_witness :
  (∃ dels w', computeDeletes ex_world_ac = Ok dels w')
  ∧ ¬ (∃ dels w', computeDeletes ex_world_a_created = Ok dels w').
Proof.
  split.
  - apply (computeDeletes_asserts ex_world_ac).
    repeat constructor; eexists; (split; [reflexivity|]); left; vm_compute; reflexivity.
  - intros H. apply (computeDeletes_asserts ex_world_a_created) in H.
    apply Forall_cons in H as [(s & Hs & [Hc|Hd]) _]; injection Hs as <-;
      [vm_compute in Hc|vm_compute in Hd]; discriminate.
Defined.

(** ** Recording the snapshot *)

(** Committing a new state and marking the old one puts the new in the
    place of the old in the snapshot: for two live states, after
    [MarkStateSnapshot old] and [AppendStateSnapshot new] the list of
    [Snap] is the committed list with [new] at its end, followed, while
    the plan is not done, by the resources of the previous snapshot that
    are neither [old] nor marked before.  A state that is not live makes
    either operation panic. *)
Theorem Mark_Append_Snap env w old new :
  (old < length (heap w) → new < length (heap w) →
   ∃ w' snap w'',
     run env [ActMark old; ActAppend new] w = Ok tt w'
     ∧ Snap env w' = Ok snap w''
     ∧ snap_Resources snap
       = resources (iter w) ++ [new]
         ++ (if done (iter w) then []
             else filter (λ res, res ≠ old ∧ has_ptr (dones (iter w)) res = false)
                         (prior (iter w))))
  ∧ ((length (heap w) ≤ old)%nat → ∃ msg, MarkStateSnapshot old w = Panic msg)
  ∧ ((length (heap w) ≤ new)%nat → ∃ msg, AppendStateSnapshot new w = Panic msg).
Proof.
  split; [|split].
  - intros Hold Hnew. eexists _, _, _. split; [|split; [apply Snap_eq|]].
    + simpl. unfold mbind, M_bind. rewrite MarkStateSnapshot_eq by done.
      rewrite AppendStateSnapshot_eq by done. reflexivity.
    + simpl. rewrite Snap_resources_eq. simpl. rewrite <-app_assoc.
      f_equal. f_equal. destruct (done (iter w)); [done|].
      apply list_filter_iff. intros res. unfold has_ptr.
      destruct (decide (old = res)) as [->|Hne].
      * rewrite lookup_insert_eq. simpl. naive_solver.
      * rewrite lookup_insert_ne by done. naive_solver.
  - intros H. eexists. unfold MarkStateSnapshot, get_heap, Assert, panic. munfold.
    rewrite bool_decide_eq_false_2 by lia. reflexivity.
  - intros H. eexists. unfold AppendStateSnapshot, get_heap, Assert, panic. munfold.
    rewrite bool_decide_eq_false_2 by lia. reflexivity.
Qed.

Lemma Mark_Append_Snap_witness :
  ∃ w' snap w'',
    run (ex_env [] ex_check_ok ex_apply) [ActMark 0; ActAppend 1] ex_world_ac = Ok tt w'
    ∧ Snap (ex_env [] ex_check_ok ex_apply) w' = Ok snap w''
    ∧ snap_Resources snap = [1; 1].
Proof.
  destruct (Mark_Append_Snap (ex_env [] ex_check_ok ex_apply) ex_world_ac 0 1)
    as [H _].
  destruct H as (w' & snap & w'' & H1 & H2 & H3); [simpl; lia..|].
  exists w', snap, w''. split; [exact H1|]. split; [exact H2|].
  rewrite H3. vm_compute. reflexivity.
Defined.


(** ** [Start] and [configure] *)

(** The order of [sort.Strings] is a total order. *)
Lemma string_leb_trans a : ∀ b c,
  String.leb a b = true → String.leb b c = true → String.leb a c = true.
Proof.
  unfold String.leb. induction a as [|x a IH]; intros [|y b] [|z c]; simpl; try done.
  unfold Ascii.compare.
  destruct (N.compare_spec (Ascii.N_of_ascii x) (Ascii.N_of_ascii y)) as [Hxy|Hxy|Hxy],
           (N.compare_spec (Ascii.N_of_ascii y) (Ascii.N_of_ascii z)) as [Hyz|Hyz|Hyz],
           (N.compare_spec (Ascii.N_of_ascii x) (Ascii.N_of_ascii z)) as [Hxz|Hxz|Hxz];
    try done; try lia.
  apply IH.
Qed.

#[export] Instance string_le_trans : Transitive string_le.
Proof. intros a b c. apply string_leb_trans. Qed.

#[export] Instance string_le_total : Total string_le.
Proof. intros a b. apply String.leb_total. Qed.

#[export] Instance string_le_antisym : AntiSymm (=) string_le.
Proof. intros a b. apply String.leb_antisym. Qed.

Section ConfigureProofs.

Context {V : Type}.
Variable cenv : ConfigEnv V.

Lemma config_collect_ok entries :
  Forall (decrypts cenv) entries →
  ∀ pkgs cfgs tr,
    config_collect cenv entries pkgs cfgs tr
    = (inr (pkgs ++ map (λ e, Key_Package cenv e.1) entries,
            foldl (config_add cenv) cfgs entries),
       tr ++ map (λ e, CValue e.1) entries).
Proof.
  induction 1 as [|[k c] entries Hok _ IH]; intros pkgs cfgs tr; simpl.
  - by rewrite !app_nil_r.
  - unfold decrypts in Hok. simpl in Hok.
    destruct (Value cenv c) as [v err] eqn:Hv. simpl in Hok. subst err.
    rewrite IH, <-!app_assoc. simpl.
    replace (config_add cenv cfgs (k, c))
      with (<[Key_Package cenv k := <[k := v]> (default ∅ (cfgs !! Key_Package cenv k))]>
              cfgs); [done|].
    unfold config_add. simpl. by rewrite Hv.
Qed.

Lemma config_collect_error l1 k c l2 err :
  Forall (decrypts cenv) l1 → (Value cenv c).2 = Some err →
  ∀ pkgs cfgs tr,
    config_collect cenv (l1 ++ (k, c) :: l2) pkgs cfgs tr
    = (inl err, tr ++ map (λ e, CValue e.1) l1 ++ [CValue k]).
Proof.
  intros Hok Herr. induction Hok as [|[k1 c1] l1 Hok _ IH]; intros pkgs cfgs tr; simpl.
  - destruct (Value cenv c) as [v e]. simpl in Herr. by subst e.
  - unfold decrypts in Hok. simpl in Hok.
    destruct (Value cenv c1) as [v e]. simpl in Hok. subst e.
    by rewrite IH, <-!app_assoc.
Qed.

Lemma config_providers_app pkgs cfgs : ∀ init tr,
  config_providers cenv pkgs cfgs init tr
  = ((config_providers cenv pkgs cfgs init []).1,
     tr ++ (config_providers cenv pkgs cfgs init []).2).
Proof.
  induction pkgs as [|pkg pkgs IH]; intros init tr; simpl.
  - by rewrite app_nil_r.
  - case_decide; [apply IH|].
    destruct (Plan_Provider cenv pkg) as [[prov|] [err|]]; simpl; try done.
    + destruct (prov_Configure cenv prov _); simpl; [done|].
      rewrite (IH _ (tr ++ _)), (IH _ [_; _]). simpl. by rewrite <-app_assoc.
    + rewrite (IH _ (tr ++ _)), (IH _ [_]). simpl. by rewrite <-app_assoc.
Qed.

Lemma asked_app t1 t2 : asked (t1 ++ t2) = asked t1 ++ asked t2.
Proof. apply omap_app. Qed.

Lemma config_providers_calls cfgs pkgs :
  StronglySorted string_le pkgs →
  ∀ init,
    let r := config_providers cenv pkgs cfgs init [] in
    StronglySorted string_lt (asked r.2)
    ∧ Forall (λ x, x ∈ pkgs ∧ init !! x = None) (asked r.2)
    ∧ r.2 = asked r.2 ≫= package_calls cenv cfgs
    ∧ match r.1 with
      | None =>
        (∀ x, x ∈ pkgs → is_Some (init !! x) ∨ x ∈ asked r.2)
        ∧ Forall (config_passes cenv cfgs) (asked r.2)
      | Some err => ∃ pkg, last (asked r.2) = Some pkg ∧ config_failure cenv cfgs pkg err
      end.
Proof.
  induction 1 as [|pkg pkgs Hsorted IH Hle]; intros init; simpl.
  { split; [constructor|]. split; [constructor|]. split; [done|]. split; [|constructor].
    intros x Hx. by apply elem_of_nil in Hx. }
  case_decide as Hinit.
  { destruct (IH init) as (H1 & H2 & H3 & H4). split; [done|]. split; [|split; [done|]].
    - eapply Forall_impl; [exact H2|]. intros x [? ?]. split; [by right|done].
    - destruct (config_providers cenv pkgs cfgs init []).1; [done|].
      destruct H4 as [H4 H5]. split; [|done].
      intros x [->|Hx]%elem_of_cons; [by left|by apply H4]. }
  assert (Hnone : init !! pkg = None).
  { destruct (init !! pkg) eqn:E; [|done]. destruct Hinit. by eexists. }
  assert (Hstep : ∀ calls,
    (package_calls cenv cfgs pkg = calls) → config_passes cenv cfgs pkg →
    let r := (config_providers cenv pkgs cfgs (<[pkg := true]> init) calls) in
    StronglySorted string_lt (asked calls ++ asked (config_providers cenv pkgs cfgs (<[pkg := true]> init) []).2)
    → asked calls = [pkg] →
    StronglySorted string_lt (asked r.2)
    ∧ Forall (λ x, x ∈ pkg :: pkgs ∧ init !! x = None) (asked r.2)
    ∧ r.2 = asked r.2 ≫= package_calls cenv cfgs
    ∧ match r.1 with
      | None =>
        (∀ x, x ∈ pkg :: pkgs → is_Some (init !! x) ∨ x ∈ asked r.2)
        ∧ Forall (config_passes cenv cfgs) (asked r.2)
      | Some err => ∃ pkg, last (asked r.2) = Some pkg ∧ config_failure cenv cfgs pkg err
      end).
  { intros calls Hcalls Hpass r Hs Hasked. subst r.
    rewrite config_providers_app. simpl. rewrite asked_app, Hasked.
    destruct (IH (<[pkg := true]> init)) as (H1 & H2 & H3 & H4).
    split; [by rewrite Hasked in Hs|]. split; [|split].
    - constructor; [split; [by left|done]|].
      eapply Forall_impl; [exact H2|]. intros x [Hx Hix]. split; [by right|].
      destruct (decide (pkg = x)) as [->|Hne]; [by rewrite lookup_insert_eq in Hix|].
      by rewrite lookup_insert_ne in Hix.
    - rewrite <-Hcalls. apply (f_equal (app (package_calls cenv cfgs pkg))) in H3.
      exact H3.
    - destruct (config_providers cenv pkgs cfgs (<[pkg:=true]> init) []).1 as [err|].
      + destruct H4 as (pkg' & Hlast & Hfail). exists pkg'. split; [|done].
        clear -Hlast.
        set (a' := asked (config_providers cenv pkgs cfgs (<[pkg:=true]> init) []).2) in *.
        destruct a' as [|y a']; [done|]. exact Hlast.
      + destruct H4 as [H4 H5]. split; [|by constructor].
        intros x [->|Hx]%elem_of_cons; [right; by left|].
        destruct (H4 x Hx) as [Hi|Hi]; [|right; by right].
        destruct (decide (pkg = x)) as [->|Hne]; [right; by left|].
        left. by rewrite lookup_insert_ne in Hi. }
  assert (Hlt : StronglySorted string_lt
                  (pkg :: asked (config_providers cenv pkgs cfgs (<[pkg := true]> init) []).2)).
  { destruct (IH (<[pkg := true]> init)) as (H1 & H2 & _). constructor; [done|].
    rewrite Forall_forall in Hle, H2. apply Forall_forall. intros x Hx.
    destruct (H2 x Hx) as [Hin Hix]. split; [by apply Hle|].
    intros <-. by rewrite lookup_insert_eq in Hix. }
  unfold package_calls, config_passes in Hstep.
  destruct (Plan_Provider cenv pkg) as [[prov|] [err|]] eqn:Hprov; simpl.
  - repeat split; try (repeat constructor; done).
    + unfold package_calls. by rewrite Hprov.
    + exists pkg. split; [done|]. left. by eexists _, _.
  - destruct (prov_Configure cenv prov _) as [err|] eqn:Hconf; simpl.
    + repeat split; try (repeat constructor; done).
      * unfold package_calls. by rewrite Hprov.
      * exists pkg. split; [done|]. right. by eexists _, _.
    + by apply Hstep.
  - repeat split; try (repeat constructor; done).
    + unfold package_calls. by rewrite Hprov.
    + exists pkg. split; [done|]. left. by eexists _, _.
  - by apply Hstep.
Qed.

Lemma collect_cases (entries : list (string * V)) :
  Forall (decrypts cenv) entries
  ∨ ∃ l1 k c l2 err, entries = l1 ++ (k, c) :: l2 ∧ Forall (decrypts cenv) l1
                     ∧ (Value cenv c).2 = Some err.
Proof.
  induction entries as [|[k c] entries IH]; [by left|].
  destruct ((Value cenv c).2) as [err|] eqn:Hv.
  - right. by exists [], k, c, entries, err.
  - destruct IH as [IH|(l1 & k' & c' & l2 & err & -> & Hok & Herr)].
    + left. by constructor.
    + right. exists ((k, c) :: l1), k', c', l2, err. split; [done|]. split; [|done].
      by constructor.
Qed.

Lemma config_add_lookup cfgs (e : string * V) pkg k :
  default ∅ (config_add cenv cfgs e !! pkg) !! k
  = if decide (Key_Package cenv e.1 = pkg ∧ e.1 = k) then Some (Value cenv e.2).1
    else default ∅ (cfgs !! pkg) !! k.
Proof.
  unfold config_add. destruct (decide (Key_Package cenv e.1 = pkg)) as [<-|Hne].
  - rewrite lookup_insert_eq. simpl. destruct (decide (e.1 = k)) as [<-|Hk].
    + rewrite lookup_insert_eq. by rewrite decide_True.
    + rewrite lookup_insert_ne by done. rewrite decide_False by naive_solver. done.
  - rewrite lookup_insert_ne by done. by rewrite decide_False by naive_solver.
Qed.

Lemma collected_lookup (entries : list (string * V)) :
  NoDup entries.*1 →
  ∀ pkg k v,
    default ∅ (foldl (config_add cenv) ∅ entries !! pkg) !! k = Some v
    ↔ ∃ c, (k, c) ∈ entries ∧ Key_Package cenv k = pkg ∧ (Value cenv c).1 = v.
Proof.
  induction entries as [|[k0 c0] entries IH] using rev_ind; intros Hnd pkg k v.
  - simpl. rewrite lookup_empty. simpl. rewrite lookup_empty. split; [done|].
    by intros (c & ?%elem_of_nil & _).
  - rewrite fmap_app in Hnd. apply NoDup_app in Hnd as (Hnd & Hfresh & _).
    rewrite foldl_snoc, config_add_lookup. simpl. case_decide as Hk.
    + destruct Hk as [<- <-]. split.
      * intros [= <-]. exists c0. split; [|done]. apply elem_of_app. right. by left.
      * intros (c & [Hin|Hin%list_elem_of_singleton]%elem_of_app & _ & <-).
        -- exfalso. apply (Hfresh k0); [|by left].
           apply list_elem_of_fmap. by exists (k0, c).
        -- by injection Hin as <-.
    + rewrite IH by done. split.
      * intros (c & Hin & ? & ?). exists c. split; [|done]. apply elem_of_app. by left.
      * intros (c & [Hin|Hin%list_elem_of_singleton]%elem_of_app & Hp & Hv).
        -- by exists c.
        -- injection Hin as <- <-. by destruct Hk.
Qed.

Lemma collected_dom (entries : list (string * V)) pkg :
  is_Some (foldl (config_add cenv) ∅ entries !! pkg)
  ↔ ∃ e, e ∈ entries ∧ Key_Package cenv e.1 = pkg.
Proof.
  induction entries as [|e0 entries IH] using rev_ind.
  - simpl. rewrite lookup_empty. split; [by intros [? ?]|by intros (e & ?%elem_of_nil & _)].
  - rewrite foldl_snoc. unfold config_add at 1.
    destruct (decide (Key_Package cenv e0.1 = pkg)) as [<-|Hne].
    + rewrite lookup_insert_eq. split; [|by eexists].
      intros _. exists e0. split; [|done]. apply elem_of_app. right. by left.
    + rewrite lookup_insert_ne by done. rewrite IH. split.
      * intros (e & Hin & ?). exists e. split; [|done]. apply elem_of_app. by left.
      * intros (e & [Hin|Hin%list_elem_of_singleton]%elem_of_app & Hp);
          [by exists e|by subst].
Qed.

Lemma collected_perm (entries entries' : list (string * V)) :
  entries ≡ₚ entries' → NoDup entries.*1 →
  foldl (config_add cenv) ∅ entries = foldl (config_add cenv) ∅ entries'.
Proof.
  intros Hperm Hnd.
  assert (Hnd' : NoDup entries'.*1) by (by rewrite <-Hperm).
  apply map_eq. intros pkg.
  destruct (foldl (config_add cenv) ∅ entries !! pkg) as [m|] eqn:Hm,
           (foldl (config_add cenv) ∅ entries' !! pkg) as [m'|] eqn:Hm'.
  - f_equal. apply map_eq. intros k.
    pose proof (collected_lookup entries Hnd pkg k) as H1.
    pose proof (collected_lookup entries' Hnd' pkg k) as H2.
    rewrite Hm in H1. rewrite Hm' in H2. simpl in H1, H2.
    apply option_eq. intros v. rewrite H1, H2. by setoid_rewrite Hperm.
  - assert (is_Some (foldl (config_add cenv) ∅ entries' !! pkg)) as [? ?]; [|congruence].
    apply collected_dom. setoid_rewrite <-Hperm. apply collected_dom. by eexists.
  - assert (is_Some (foldl (config_add cenv) ∅ entries !! pkg)) as [? ?]; [|congruence].
    apply collected_dom. setoid_rewrite Hperm. apply collected_dom. by eexists.
  - done.
Qed.

Lemma configure_ok (entries : list (string * V)) :
  Forall (decrypts cenv) entries →
  configure cenv entries
  = config_providers cenv
      (merge_sort string_le (map (λ e, Key_Package cenv e.1) entries))
      (foldl (config_add cenv) ∅ entries) ∅ (map (λ e, CValue e.1) entries).
Proof. intros Hok. unfold configure. by rewrite config_collect_ok. Qed.

Lemma provider_calls_app t1 t2 :
  provider_calls (t1 ++ t2) = provider_calls t1 ++ provider_calls t2.
Proof. apply filter_app. Qed.

Lemma provider_calls_decryptions {A} (f : A → string) l :
  provider_calls (map (λ e, CValue (f e)) l) = [] ∧ asked (map (λ e, CValue (f e)) l) = [].
Proof. induction l as [|x l [IH1 IH2]]; [done|]. split; [exact IH1|exact IH2]. Qed.

Lemma provider_calls_package cfgs l :
  provider_calls (l ≫= package_calls cenv cfgs) = l ≫= package_calls cenv cfgs.
Proof.
  induction l as [|pkg l IH]; [done|].
  change ((pkg :: l) ≫= package_calls cenv cfgs)
    with (package_calls cenv cfgs pkg ++ (l ≫= package_calls cenv cfgs)).
  rewrite provider_calls_app, IH. f_equal. unfold package_calls.
  by destruct (Plan_Provider cenv pkg) as [[?|] [?|]].
Qed.

(** The calls of [configure], decryptions apart, when every value
    decrypts. *)
Lemma configure_calls (entries : list (string * V)) :
  Forall (decrypts cenv) entries →
  let cfgs := foldl (config_add cenv) ∅ entries in
  let r := configure cenv entries in
  StronglySorted string_lt (asked r.2)
  ∧ Forall (λ pkg, ∃ e, e ∈ entries ∧ Key_Package cenv e.1 = pkg) (asked r.2)
  ∧ provider_calls r.2 = asked r.2 ≫= package_calls cenv cfgs
  ∧ match r.1 with
    | None =>
      (∀ e, e ∈ entries → Key_Package cenv e.1 ∈ asked r.2)
      ∧ Forall (config_passes cenv cfgs) (asked r.2)
    | Some err => ∃ pkg, last (asked r.2) = Some pkg ∧ config_failure cenv cfgs pkg err
    end.
Proof.
  intros Hok cfgs r. subst r. rewrite configure_ok by done. fold cfgs.
  rewrite config_providers_app. simpl.
  pose proof (config_providers_calls cfgs
                (merge_sort string_le (map (λ e, Key_Package cenv e.1) entries))
                (StronglySorted_merge_sort _ _) ∅) as (H1 & H2 & H3 & H4).
  simpl in *.
  destruct (provider_calls_decryptions (λ e : string * V, e.1) entries) as [Hp Ha].
  rewrite asked_app, provider_calls_app, Hp, Ha. simpl.
  split; [done|]. split; [|split].
  - eapply Forall_impl; [exact H2|]. intros pkg [Hin _].
    rewrite merge_sort_Permutation in Hin.
    apply list_elem_of_fmap in Hin as (e & -> & Hin). by exists e.
  - rewrite H3 at 1. apply provider_calls_package.
  - destruct (config_providers cenv _ cfgs ∅ []).1; [done|].
    destruct H4 as [H4 H5]. split; [|done]. intros e He.
    destruct (H4 (Key_Package cenv e.1)) as [[? Hx]|Hx]; [|by rewrite lookup_empty in Hx|done].
    rewrite merge_sort_Permutation. apply list_elem_of_fmap. by exists e.
Qed.

End ConfigureProofs.

Lemma decryptions_only {A} (f : A → string) l c :
  c ∈ map (λ e, CValue (f e)) l → is_decryption c = true.
Proof. intros (e & -> & _)%list_elem_of_fmap. done. Qed.

(** The first value that does not decrypt ends [configure]: the error is
    returned as it is, the values after it are not decrypted, and no
    provider is asked for or configured. *)
Theorem configure_decrypt_error {V} (cenv : ConfigEnv V) l1 k c l2 err :
  Forall (decrypts cenv) l1 → (Value cenv c).2 = Some err →
  configure cenv (l1 ++ (k, c) :: l2)
  = (Some err, map (λ e, CValue e.1) l1 ++ [CValue k]).
Proof.
  intros Hok Herr. unfold configure. by rewrite (config_collect_error cenv l1 k c l2 err).
Qed.

Lemma configure_decrypt_error_witness :
  configure ex_cenv ex_config_sealed
  = (Some (ErrExternal "cannot decrypt"), [CValue "aws:region"; CValue "aws:token"]).
Proof.
  apply (configure_decrypt_error ex_cenv [("aws:region", "eu-west-1")] "aws:token" "???"
           [("proj:name", "demo")]).
  - repeat constructor.
  - reflexivity.
Defined.

(** [configure] asks for the provider of a package at most once, in
    strictly ascending order of the package names, and only for packages
    of configuration keys; and what it does for a package is to ask for
    its provider and, if there is one, to configure it then and there,
    once. *)
Theorem configure_in_order {V} (cenv : ConfigEnv V) entries :
  StronglySorted string_lt (asked (configure cenv entries).2)
  ∧ Forall (λ pkg, ∃ e, e ∈ entries ∧ Key_Package cenv e.1 = pkg)
           (asked (configure cenv entries).2)
  ∧ provider_calls (configure cenv entries).2
    = asked (configure cenv entries).2
      ≫= package_calls cenv (foldl (config_add cenv) ∅ entries).
Proof.
  destruct (collect_cases cenv entries) as [Hok|(l1 & k & c & l2 & err & -> & Hok & Herr)].
  - destruct (configure_calls cenv entries Hok) as (H1 & H2 & H3 & _). done.
  - rewrite (configure_decrypt_error cenv l1 k c l2 err) by done. simpl.
    destruct (provider_calls_decryptions (λ e : string * V, e.1) l1) as [Hp Ha].
    rewrite asked_app, provider_calls_app, Hp, Ha. simpl.
    split; [constructor|]. split; [constructor|done].
Qed.

(** What a provider is configured with: when the keys of the
    configuration are distinct, as the keys of a map are, every call of
    [Configure] is for a package that was asked for and has that
    provider, and passes exactly the entries of that package, each with
    its decrypted value. *)
Theorem configure_config {V} (cenv : ConfigEnv V) entries prov cfg :
  NoDup entries.*1 →
  CConfigure prov cfg ∈ (configure cenv entries).2 →
  ∃ pkg, pkg ∈ asked (configure cenv entries).2
         ∧ Plan_Provider cenv pkg = (Some prov, None)
         ∧ ∀ k v, cfg !! k = Some v
                  ↔ ∃ c, (k, c) ∈ entries ∧ Key_Package cenv k = pkg
                         ∧ Value cenv c = (v, None).
Proof.
  intros Hnd Hin.
  destruct (collect_cases cenv entries) as [Hok|(l1 & k & c & l2 & err & -> & Hok & Herr)].
  - destruct (configure_calls cenv entries Hok) as (_ & _ & H3 & _). simpl in H3.
    assert (Hin' : CConfigure prov cfg ∈ provider_calls (configure cenv entries).2)
      by (by apply list_elem_of_filter).
    rewrite H3 in Hin'. apply list_elem_of_bind in Hin' as (pkg & Hcall & Hasked).
    exists pkg. split; [done|]. unfold package_calls in Hcall.
    destruct (Plan_Provider cenv pkg) as [[prov'|] [perr|]];
      apply elem_of_cons in Hcall as [[=]|Hcall]; try by apply elem_of_nil in Hcall.
    apply list_elem_of_singleton in Hcall as [= -> ->]. split; [done|].
    intros k v. rewrite (collected_lookup cenv entries Hnd). split.
    + intros (c & Hc & Hp & Hv). exists c. split; [done|]. split; [done|].
      rewrite Forall_forall in Hok. specialize (Hok _ Hc). unfold decrypts in Hok.
      simpl in Hok. destruct (Value cenv c). simpl in *. congruence.
    + intros (c & Hc & Hp & Hv). exists c. by rewrite Hv.
  - rewrite (configure_decrypt_error cenv l1 k c l2 err) in Hin by done. simpl in Hin.
    apply elem_of_app in Hin as [Hin|Hin%list_elem_of_singleton]; [|done].
    by apply (decryptions_only (λ e : string * V, e.1)) in Hin.
Qed.

Lemma configure_config_witness :
  ∃ pkg, pkg ∈ asked (configure ex_cenv ex_config).2
         ∧ Plan_Provider ex_cenv pkg = (Some "aws-provider", None)
         ∧ ∀ k v, ({["aws:region" := "eu-west-1"; "aws:profile" := "dev"]}
                     : gmap string string) !! k = Some v
                  ↔ ∃ c, (k, c) ∈ ex_config ∧ Key_Package ex_cenv k = pkg
                         ∧ Value ex_cenv c = (v, None).
Proof.
  apply (configure_config ex_cenv ex_config "aws-provider").
  - vm_compute. repeat constructor; set_solver.
  - vm_compute. set_solver.
Defined.

(** The order in which Go walks the configuration map does not show:
    when the keys are distinct and every value decrypts, [configure]
    returns the same error or none, and asks for and configures the same
    providers with the same configurations in the same order, for every
    order of the entries. *)
Theorem configure_order_independent {V} (cenv : ConfigEnv V) entries entries' :
  entries ≡ₚ entries' → NoDup entries.*1 → Forall (decrypts cenv) entries →
  (configure cenv entries').1 = (configure cenv entries).1
  ∧ provider_calls (configure cenv entries').2 = provider_calls (configure cenv entries).2.
Proof.
  intros Hperm Hnd Hok.
  assert (Hok' : Forall (decrypts cenv) entries') by (by rewrite <-Hperm).
  rewrite !configure_ok by done.
  rewrite <-(collected_perm cenv entries entries' Hperm Hnd).
  assert (Hsort : merge_sort string_le (map (λ e, Key_Package cenv e.1) entries')
                  = merge_sort string_le (map (λ e, Key_Package cenv e.1) entries)).
  { apply (StronglySorted_unique string_le); try apply StronglySorted_merge_sort; try apply _.
    rewrite !merge_sort_Permutation. by rewrite Hperm. }
  rewrite Hsort.
  rewrite (config_providers_app cenv _ _ _ (map _ entries')),
          (config_providers_app cenv _ _ _ (map _ entries)). simpl.
  split; [done|]. rewrite !provider_calls_app.
  destruct (provider_calls_decryptions (λ e : string * V, e.1) entries) as [-> _].
  destruct (provider_calls_decryptions (λ e : string * V, e.1) entries') as [-> _].
  done.
Qed.

Lemma configure_order_independent_witness :
  (configure ex_cenv (reverse ex_config)).1 = (configure ex_cenv ex_config).1
  ∧ provider_calls (configure ex_cenv (reverse ex_config)).2
    = provider_calls (configure ex_cenv ex_config).2.
Proof.
  apply (configure_order_independent ex_cenv ex_config (reverse ex_config)).
  - by rewrite reverse_Permutation.
  - vm_compute. repeat constructor; set_solver.
  - repeat constructor.
Defined.

(** How [configure] ends when every value decrypts.  It returns no error
    exactly when it has got through the package of every entry: each has
    no provider or a provider that accepted its configuration.  An error
    comes from the last package asked for, wraps the error of the provider
    table or of the provider's [Configure], and names the package;
    nothing is done for the packages after it. *)
Theorem configure_outcome {V} (cenv : ConfigEnv V) entries :
  Forall (decrypts cenv) entries →
  match (configure cenv entries).1 with
  | None =>
    (∀ e, e ∈ entries → Key_Package cenv e.1 ∈ asked (configure cenv entries).2)
    ∧ Forall (config_passes cenv (foldl (config_add cenv) ∅ entries))
             (asked (configure cenv entries).2)
  | Some err =>
    ∃ pkg, last (asked (configure cenv entries).2) = Some pkg
           ∧ config_failure cenv (foldl (config_add cenv) ∅ entries) pkg err
  end.
Proof. intros Hok. by destruct (configure_calls cenv entries Hok) as (_ & _ & _ & H). Qed.

Lemma configure_outcome_witness :
  asked (configure ex_cenv ex_config).2 = ["aws"; "proj"]
  ∧ (configure ex_cenv ex_config).1 = None
  ∧ Forall (config_passes ex_cenv (foldl (config_add ex_cenv) ∅ ex_config))
           (asked (configure ex_cenv ex_config).2).
Proof.
  pose proof (configure_outcome ex_cenv ex_config) as H.
  assert (Hr : (configure ex_cenv ex_config).1 = None) by (vm_compute; reflexivity).
  rewrite Hr in H. destruct H as [_ H]; [repeat constructor|].
  split; [vm_compute; reflexivity|]. split; [exact Hr|exact H].
Defined.

Lemma configure_no_Iterate {V} (cenv : ConfigEnv V) entries :
  CIterate ∉ (configure cenv entries).2.
Proof.
  intros Hin.
  assert (Hp : CIterate ∈ provider_calls (configure cenv entries).2)
    by (by apply list_elem_of_filter).
  destruct (configure_in_order cenv entries) as (_ & _ & H3). rewrite H3 in Hp.
  apply list_elem_of_bind in Hp as (pkg & Hcall & _). unfold package_calls in Hcall.
  destruct (Plan_Provider cenv pkg) as [[prov'|] [perr|]];
    apply elem_of_cons in Hcall as [[=]|Hcall]; try by apply elem_of_nil in Hcall.
  by apply list_elem_of_singleton in Hcall.
Qed.

(** [Start] returns an iterator or an error, never both and never
    neither.  It returns an iterator only after [configure] has returned
    no error and the source has been opened, once and last; the iterator
    is the fresh one, with nothing seen, classified, queued or committed.
    When [configure] fails, its error is returned as it is and the source
    is never opened. *)
Theorem Plan_Start_result {V} (cenv : ConfigEnv V) entries pl o it err tr :
  Plan_Start cenv entries pl o = ((it, err), tr) →
  (it = None ↔ is_Some err)
  ∧ (is_Some it →
     it = Some (Start pl o) ∧ (configure cenv entries).1 = None
     ∧ tr = (configure cenv entries).2 ++ [CIterate])
  ∧ (∀ cerr, (configure cenv entries).1 = Some cerr →
             err = Some cerr ∧ CIterate ∉ tr).
Proof.
  unfold Plan_Start. pose proof (configure_no_Iterate cenv entries) as Hno.
  destruct (configure cenv entries) as [[cerr|] ctr]; simpl in *.
  - intros [= <- <- <-]. split; [split; [by eexists|done]|].
    split; [by intros [? ?]|]. by intros ? [= <-].
  - destruct (source_Iterate cenv o) as [serr|]; intros [= <- <- <-].
    + split; [split; [by eexists|done]|]. split; [by intros [? ?]|done].
    + split; [split; [done|by intros [? ?]]|]. split; [done|done].
Qed.

Lemma Plan_Start_result_witness :
  Some (Start ex_plan_a (mkOptions None 1)) = Some (Start ex_plan_a (mkOptions None 1))
  ∧ (configure ex_cenv ex_config).1 = None
  ∧ (Plan_Start ex_cenv ex_config ex_plan_a (mkOptions None 1)).2
    = (configure ex_cenv ex_config).2 ++ [CIterate].
Proof.
  destruct (Plan_Start_result ex_cenv ex_config ex_plan_a (mkOptions None 1)
              (Some (Start ex_plan_a (mkOptions None 1))) None
              (Plan_Start ex_cenv ex_config ex_plan_a (mkOptions None 1)).2)
    as (_ & H & _); [vm_compute; reflexivity|].
  apply H. by eexists.
Defined.
